(** * Drone delivery optimizer: greedy assignment, nearest-neighbour routes, 2-opt

    A shallow embedding of [algorithm.js] (classes [Zone], [Drone] and
    [DroneDeliveryOptimizer]) together with the properties its specification
    states about it.

    Numbers.  A JavaScript number is modelled by [jsnum]: an exact rational
    or one of the three IEEE special values.  Division by zero, [Infinity]
    and [NaN] are modelled; rounding and the sign of zero are not.  The
    source computes in IEEE doubles, so the properties are stated in a form
    that rounding keeps: they rest on the comparisons the code itself makes
    and on laws of the rounded operations (commutativity,
    [a - b = -(b - a)], [x - x = 0]), never on associativity.  Where
    rounding decides what can be promised, the code is also run on doubles:
    the improver and the load of a route are given once more with the
    arithmetic as a parameter ([Generic]) and instantiated with binary64
    ([Binary64]).

    Objects.  Zones and drones are records held by value in the optimizer's
    state; every method is a function from state to state.  [optimize]
    returns the new state and the result object, or the exception it
    throws.  [addZone] stores the object it is given, not a copy: [Store]
    models that, and when holding by value is the same.

    Platform.  The [Math] object is not part of the repository; it is taken
    as an interface ([MathLib]) that the distance function is generic in.
    The two readings of [performance.now()] are arguments of [optimize]. *)

From Stdlib Require Import Ascii String QArith Qcanon Qround Qabs DecimalString.
From Stdlib Require Import Floats.
From stdpp Require Import base list numbers strings gmap.

Set Default Proof Using "Type".

(** ** JavaScript numbers *)

Module JS.

Inductive jsnum : Type :=
  | Num (q : Qc)
  | PInf
  | NInf
  | NaN.

Definition ofZ (z : Z) : jsnum := Num (Q2Qc (inject_Z z)).
Definition ofNat (n : nat) : jsnum := ofZ (Z.of_nat n).

Definition zero : jsnum := ofZ 0.

Definition Qc_leb (a b : Qc) : bool := Qle_bool a b.
Definition Qc_ltb (a b : Qc) : bool := negb (Qle_bool b a).
Definition Qc_eqb (a b : Qc) : bool := Qeq_bool a b.

(** Sign of a finite number, as IEEE multiplication and division use it. *)
Inductive sign := Neg | Zer | Pos.

Definition sgn (q : Qc) : sign :=
  if Qc_eqb q 0 then Zer else if Qc_ltb q 0 then Neg else Pos.

Definition neg (x : jsnum) : jsnum :=
  match x with
  | Num q => Num (- q)
  | PInf => NInf
  | NInf => PInf
  | NaN => NaN
  end.

Definition add (x y : jsnum) : jsnum :=
  match x, y with
  | NaN, _ | _, NaN => NaN
  | Num a, Num b => Num (a + b)
  | PInf, NInf | NInf, PInf => NaN
  | PInf, _ | _, PInf => PInf
  | NInf, _ | _, NInf => NInf
  end.

Definition sub (x y : jsnum) : jsnum := add x (neg y).

(** An infinity scaled by a finite factor. *)
Definition scale_inf (positive : bool) (s : sign) : jsnum :=
  match s with
  | Zer => NaN
  | Pos => if positive then PInf else NInf
  | Neg => if positive then NInf else PInf
  end.

Definition mul (x y : jsnum) : jsnum :=
  match x, y with
  | NaN, _ | _, NaN => NaN
  | Num a, Num b => Num (a * b)
  | PInf, Num b => scale_inf true (sgn b)
  | NInf, Num b => scale_inf false (sgn b)
  | Num a, PInf => scale_inf true (sgn a)
  | Num a, NInf => scale_inf false (sgn a)
  | PInf, PInf | NInf, NInf => PInf
  | PInf, NInf | NInf, PInf => NInf
  end.

(** [x / y]; the divisor zero is the positive zero. *)
Definition div (x y : jsnum) : jsnum :=
  match x, y with
  | NaN, _ | _, NaN => NaN
  | Num a, Num b =>
      if Qc_eqb b 0 then scale_inf true (sgn a) else Num (a / b)
  | Num _, (PInf | NInf) => zero
  | PInf, Num b => if Qc_ltb b 0 then NInf else PInf
  | NInf, Num b => if Qc_ltb b 0 then PInf else NInf
  | (PInf | NInf), (PInf | NInf) => NaN
  end.

(** [x <= y], [x < y], [x === y] and [x !== y]; every comparison with
    [NaN] is false, so [NaN !== NaN] is true. *)
Definition le (x y : jsnum) : bool :=
  match x, y with
  | NaN, _ | _, NaN => false
  | Num a, Num b => Qc_leb a b
  | NInf, _ | _, PInf => true
  | _, _ => false
  end.

Definition lt (x y : jsnum) : bool :=
  match x, y with
  | NaN, _ | _, NaN => false
  | Num a, Num b => Qc_ltb a b
  | PInf, _ | _, NInf => false
  | _, _ => true
  end.

Definition eqb (x y : jsnum) : bool :=
  match x, y with
  | Num a, Num b => Qc_eqb a b
  | PInf, PInf | NInf, NInf => true
  | _, _ => false
  end.

Definition neqb (x y : jsnum) : bool := negb (eqb x y).

Definition finite (x : jsnum) : Prop := ∃ q, x = Num q.

(** [Number.prototype.toFixed] for values below 10^21 in magnitude: the
    integer nearest to [x * 10^digits] (the larger one on a tie), printed
    with the decimal point [digits] places from the right. *)
Definition Qfloor_half_up (q : Q) : Z := Qfloor (q + (1 # 2)).

Fixpoint pad_zeros (n : nat) (s : string) : string :=
  match n with
  | O => s
  | S k => pad_zeros k (String "0"%char s)
  end.

Definition string_of_N (n : N) : string :=
  NilZero.string_of_uint (N.to_uint n).

Definition toFixed (x : jsnum) (digits : nat) : string :=
  match x with
  | NaN => "NaN"
  | PInf => "Infinity"
  | NInf => "-Infinity"
  | Num q =>
      let negative := Qc_ltb q 0 in
      let a := Qabs q in
      let pow := Z.pow 10 (Z.of_nat digits) in
      let n := Z.to_N (Qfloor_half_up (a * inject_Z pow)) in
      let ip := string_of_N (N.div n (Z.to_N pow)) in
      let fp := string_of_N (N.modulo n (Z.to_N pow)) in
      let fp := pad_zeros (digits - String.length fp) fp in
      ((if negative then "-" else "")
         +:+ ip +:+ (if digits is O then "" else "." +:+ fp))%string
  end.

End JS.

Import JS.

(** ** The platform's [Math] object *)

Class MathLib : Type := {
  Math_PI : jsnum;
  Math_sin : jsnum → jsnum;
  Math_cos : jsnum → jsnum;
  Math_sqrt : jsnum → jsnum;
  Math_atan2 : jsnum → jsnum → jsnum;
}.

(** ** Data model: [class Zone], [class Drone], the optimizer's fields *)

Record Zone : Type := mkZone {
  zid : nat;
  priority : jsnum;
  demand : jsnum;
  lat : jsnum;
  lng : jsnum;
  served : bool;
}.

(** [new Zone(id, priority, demand, lat, lng)] *)
Definition newZone (i : nat) (p d la ln : jsnum) : Zone :=
  mkZone i p d la ln false.

Record Drone : Type := mkDrone {
  did : nat;
  batteryCapacity : jsnum;
  payloadCapacity : jsnum;
  route : list nat;
  totalDistance : jsnum;
  totalDelivered : jsnum;
}.

(** [new Drone(id, batteryCapacity, payloadCapacity)] *)
Definition newDrone (i : nat) (b p : jsnum) : Drone :=
  mkDrone i b p [] zero zero.

Record Optimizer : Type := mkOptimizer {
  zones : list Zone;
  drones : list Drone;
  distanceMatrix : list (list jsnum);
  baseLocation : option (jsnum * jsnum);
  executionTime : jsnum;
}.

(** [new DroneDeliveryOptimizer()] *)
Definition newOptimizer : Optimizer := mkOptimizer [] [] [] None zero.

Definition set_served (b : bool) (z : Zone) : Zone :=
  mkZone (zid z) (priority z) (demand z) (lat z) (lng z) b.

Definition set_id (i : nat) (z : Zone) : Zone :=
  mkZone i (priority z) (demand z) (lat z) (lng z) (served z).

Definition nonBase (z : Zone) : bool := negb (zid z =? 0).

(** ** Insertion operations *)

Definition baseZone (la ln : jsnum) : Zone :=
  mkZone 0 zero zero la ln false.

Definition setBase (la ln : jsnum) (s : Optimizer) : Optimizer :=
  mkOptimizer (baseZone la ln :: List.filter nonBase (zones s))
    (drones s) (distanceMatrix s) (Some (la, ln)) (executionTime s).

Definition addZone (zone : Zone) (s : Optimizer) : Optimizer :=
  let zone' := set_id (length (List.filter nonBase (zones s)) + 1) zone in
  mkOptimizer (zones s ++ [zone'])
    (drones s) (distanceMatrix s) (baseLocation s) (executionTime s).

Definition addDrone (drone : Drone) (s : Optimizer) : Optimizer :=
  mkOptimizer (zones s) (drones s ++ [drone])
    (distanceMatrix s) (baseLocation s) (executionTime s).

Definition clear (s : Optimizer) : Optimizer := newOptimizer.

(** ** Distances *)

Section Distance.
Context `{MathLib}.

Definition toRad (degrees : jsnum) : jsnum :=
  mul degrees (div Math_PI (ofZ 180)).

(** Haversine distance in km. *)
Definition calculateDistance (lat1 lng1 lat2 lng2 : jsnum) : jsnum :=
  let R := ofZ 6371 in
  let dLat := toRad (sub lat2 lat1) in
  let dLng := toRad (sub lng2 lng1) in
  let a :=
    add (mul (Math_sin (div dLat (ofZ 2))) (Math_sin (div dLat (ofZ 2))))
        (mul (mul (mul (Math_cos (toRad lat1)) (Math_cos (toRad lat2)))
                  (Math_sin (div dLng (ofZ 2))))
             (Math_sin (div dLng (ofZ 2)))) in
  let c := mul (ofZ 2)
               (Math_atan2 (Math_sqrt a) (Math_sqrt (sub (ofZ 1) a))) in
  mul R c.

(** The [n]×[n] array is filled with [0]; entry [(i, j)] with [i !== j] is
    then overwritten by the distance between zone [i] and zone [j]. *)
Definition buildDistanceMatrix (zs : list Zone) : list (list jsnum) :=
  imap (λ i zi,
    imap (λ j zj,
      if decide (i = j) then zero
      else calculateDistance (lat zi) (lng zi) (lat zj) (lng zj)) zs) zs.

End Distance.

(** [matrix[i][j]]; every index the optimizer uses is in range (see
    [optimize_routes_in_range]), the value out of range is immaterial. *)
Definition dm (M : list (list jsnum)) (i j : nat) : jsnum :=
  match M !! i with
  | Some row => default NaN (row !! j)
  | None => NaN
  end.

(** [array[k]] for an index array and for the zone array; the optimizer
    only reads positions that exist. *)
Definition idx (l : list nat) (k : nat) : nat := default 0 (l !! k).

Definition noZone : Zone := mkZone 0 NaN NaN NaN NaN false.
Definition zoneAt (zs : list Zone) (k : nat) : Zone := default noZone (zs !! k).

(** ** Ordering of the requests *)

(** The comparator handed to [Array.prototype.sort]. *)
Definition compareZones (a b : Zone) : jsnum :=
  if neqb (priority a) (priority b)
  then sub (priority a) (priority b)
  else sub (demand b) (demand a).

(** [Array.prototype.sort] is stable: an element moves behind another one
    only when the comparator is positive on the pair (a [NaN] counts as 0).
    For a comparator that is a consistent ordering, as this one is on
    finite priorities and demands, that determines the result. *)
Fixpoint insertZone (x : Zone) (l : list Zone) : list Zone :=
  match l with
  | [] => [x]
  | y :: l' =>
      if lt zero (compareZones x y) then y :: insertZone x l' else x :: l
  end.

Definition sortZones (l : list Zone) : list Zone := foldr insertZone [] l.

(** Base stays at index 0, the rest is sorted.  (On an empty array the
    source produces [[undefined]]; [optimize] fails on it in its next
    step.) *)
Definition sortZonesByPriority (zs : list Zone) : list Zone :=
  match zs with
  | [] => []
  | base :: otherZones => base :: sortZones otherZones
  end.

(** ** Route distance *)

Definition calculateRouteDistance (M : list (list jsnum)) (route : list nat)
  : jsnum :=
  match route with
  | [] => zero
  | r0 :: _ =>
      let totalDist := dm M 0 r0 in
      let totalDist :=
        fold_left (λ t i, add t (dm M (idx route i) (idx route (i + 1))))
                  (seq 0 (length route - 1)) totalDist in
      add totalDist (dm M (idx route (length route - 1)) 0)
  end.

(** ** Route construction: nearest neighbour with priority weighting *)

(** The load of the partial route, recomputed at each payload check. *)
Definition currentLoad (zs : list Zone) (route : list nat) : jsnum :=
  fold_left (λ sum i, add sum (demand (zoneAt zs i)))
            (List.filter (λ i, negb (i =? 0)) route) zero.

Section Construction.
Variable M : list (list jsnum).
Variable zs : list Zone.
Variable drone : Drone.

(** One candidate of the [for ... of availableZones] scan; the accumulator
    is [(nearest, minEffectiveDistance)], [None] standing for [-1]. *)
Definition scanStep (route : list nat) (visited : gset nat)
    (current : nat) (currentDistance : jsnum)
    (acc : option nat * jsnum) (zoneIdx : nat) : option nat * jsnum :=
  if bool_decide (zoneIdx ∈ visited) then acc
  else
    let dist := dm M current zoneIdx in
    let zone := zoneAt zs zoneIdx in
    let effectiveDist := div dist (priority zone) in
    let returnDist := dm M zoneIdx 0 in
    let totalDist := add (add currentDistance dist) returnDist in
    if le totalDist (batteryCapacity drone) && lt effectiveDist (acc.2)
    then
      if le (add (currentLoad zs route) (demand zone)) (payloadCapacity drone)
      then (Some zoneIdx, effectiveDist)
      else acc
    else acc.

Definition scan (availableZones route : list nat) (visited : gset nat)
    (current : nat) (currentDistance : jsnum) : option nat * jsnum :=
  fold_left (scanStep route visited current currentDistance)
            availableZones (None, PInf).

(** The [while (true)] loop; every iteration that does not [break] visits a
    new available zone, so [S (length availableZones)] iterations reach the
    [break] (see [nearestNeighborTSP_breaks]). *)
Fixpoint nnLoop (fuel : nat) (availableZones route : list nat)
    (visited : gset nat) (current : nat) (currentDistance : jsnum)
  : list nat :=
  match fuel with
  | O => route
  | S fuel' =>
      match (scan availableZones route visited current currentDistance).1 with
      | None => route
      | Some nearest =>
          nnLoop fuel' availableZones (route ++ [nearest])
                 ({[nearest]} ∪ visited) nearest
                 (add currentDistance (dm M current nearest))
      end
  end.

Definition nearestNeighborTSP (availableZones : list nat) : list nat :=
  nnLoop (S (length availableZones)) availableZones [0] {[0]} 0 zero.

End Construction.

(** ** Route improvement: bounded 2-opt *)

(** [[route[a], route[b]] = [route[b], route[a]]] *)
Definition swap (route : list nat) (a b : nat) : list nat :=
  <[a := idx route b]> (<[b := idx route a]> route).

(** [while (start < end) { swap; start++; end-- }]; the gap shrinks by two
    per iteration, so [length route] iterations are more than enough (see
    [reverseSegment_spec]). *)
Fixpoint reverseLoop (fuel : nat) (route : list nat) (start end_ : nat)
  : list nat :=
  match fuel with
  | O => route
  | S fuel' =>
      if start <? end_
      then reverseLoop fuel' (swap route start end_) (start + 1) (end_ - 1)
      else route
  end.

Definition reverseSegment (route : list nat) (start end_ : nat) : list nat :=
  reverseLoop (length route) route start end_.

Section Improvement.
Variable M : list (list jsnum).
Variable maxDistance : jsnum.

(** Body of the inner [for j] loop; the state is [(route, improved)]. *)
Definition twoOptStep (i : nat) (st : list nat * bool) (j : nat)
  : list nat * bool :=
  let route := st.1 in
  let oldDist := add (dm M (idx route (i - 1)) (idx route i))
                     (dm M (idx route j) (idx route (j + 1))) in
  let newDist := add (dm M (idx route (i - 1)) (idx route j))
                     (dm M (idx route i) (idx route (j + 1))) in
  if lt newDist oldDist then
    let testRoute := reverseSegment route i j in
    let totalDist := calculateRouteDistance M testRoute in
    if le totalDist maxDistance then (testRoute, true) else st
  else st.

(** One execution of the body of the [while] loop: both [for] loops.  The
    bounds read [route.length], which no step changes. *)
Definition twoOptPass (route : list nat) : list nat * bool :=
  let n := length route in
  fold_left
    (λ st i, fold_left (twoOptStep i) (seq (i + 1) (n - 1 - (i + 1))) st)
    (seq 1 (n - 2 - 1)) (route, false).

(** [while (improved && iterations < maxIterations)], by the number of
    iterations that remain. *)
Fixpoint twoOptLoop (remaining : nat) (route : list nat) : list nat :=
  match remaining with
  | O => route
  | S k =>
      let st := twoOptPass route in
      if st.2 then twoOptLoop k st.1 else st.1
  end.

Definition maxIterations : nat := 5.

Definition twoOptOptimize (route : list nat) : list nat :=
  if length route <? 4 then route else twoOptLoop maxIterations route.

End Improvement.

(** ** The improver over any arithmetic

    [calculateRouteDistance], [twoOptOptimize] and the load of a route read
    their numbers through [+], [<] and [<=] only.  Here they are once more,
    line by line as above, with these operations as parameters.  At the
    operations of [jsnum] they are the functions above (see
    [Generic_at_jsnum]); at the operations of IEEE doubles they are the
    functions as the source runs them ([Binary64]). *)

Module Generic.
Section Operations.
Context {num : Type}.
Variable add : num → num → num.
Variables lt le : num → num → bool.
Variables zero nan : num.

(** [route.filter(idx => idx !== baseIdx).reduce((sum, idx) => sum +
    this.zones[idx].demand, 0)], with [demandOf idx] for
    [this.zones[idx].demand]. *)
Definition currentLoad (demandOf : nat → num) (route : list nat) : num :=
  fold_left (λ sum i, add sum (demandOf i))
            (List.filter (λ i, negb (i =? 0)) route) zero.

Section Matrix.
Variable M : list (list num).

Definition dm (i j : nat) : num :=
  match M !! i with
  | Some row => default nan (row !! j)
  | None => nan
  end.

Definition calculateRouteDistance (route : list nat) : num :=
  match route with
  | [] => zero
  | r0 :: _ =>
      let totalDist := dm 0 r0 in
      let totalDist :=
        fold_left (λ t i, add t (dm (idx route i) (idx route (i + 1))))
                  (seq 0 (length route - 1)) totalDist in
      add totalDist (dm (idx route (length route - 1)) 0)
  end.

Variable maxDistance : num.

Definition twoOptStep (i : nat) (st : list nat * bool) (j : nat)
  : list nat * bool :=
  let route := st.1 in
  let oldDist := add (dm (idx route (i - 1)) (idx route i))
                     (dm (idx route j) (idx route (j + 1))) in
  let newDist := add (dm (idx route (i - 1)) (idx route j))
                     (dm (idx route i) (idx route (j + 1))) in
  if lt newDist oldDist then
    let testRoute := reverseSegment route i j in
    let totalDist := calculateRouteDistance testRoute in
    if le totalDist maxDistance then (testRoute, true) else st
  else st.

Definition twoOptPass (route : list nat) : list nat * bool :=
  let n := length route in
  fold_left
    (λ st i, fold_left (twoOptStep i) (seq (i + 1) (n - 1 - (i + 1))) st)
    (seq 1 (n - 2 - 1)) (route, false).

Fixpoint twoOptLoop (remaining : nat) (route : list nat) : list nat :=
  match remaining with
  | O => route
  | S k =>
      let st := twoOptPass route in
      if st.2 then twoOptLoop k st.1 else st.1
  end.

Definition twoOptOptimize (route : list nat) : list nat :=
  if length route <? 4 then route else twoOptLoop maxIterations route.

(** One reversal as the search accepts it.  The route is cut around the
    segment [x, S, y] between the stops [a] and [b]: the two legs [a x] and
    [y b] are replaced by [a y] and [x b]; the sum of the new pair, as it is
    computed, is strictly smaller than the sum of the old pair, and the
    round trip of the new route, computed afresh, is within the ceiling. *)
Inductive accepted : list nat → list nat → Prop :=
  | accepted_reversal (A S B : list nat) (a x y b : nat) :
      lt (add (dm a y) (dm x b)) (add (dm a x) (dm y b)) = true →
      le (calculateRouteDistance (A ++ a :: y :: rev S ++ x :: b :: B))
         maxDistance = true →
      accepted (A ++ a :: x :: S ++ y :: b :: B)
               (A ++ a :: y :: rev S ++ x :: b :: B).

End Matrix.
End Operations.
End Generic.

(** ** IEEE doubles

    The numbers of the source are IEEE 754 binary64 values.  [PrimFloat]
    provides them, with the correctly rounded [+] and the comparisons of
    the standard. *)

Module Binary64.

Definition calculateRouteDistance : list (list float) → list nat → float :=
  Generic.calculateRouteDistance PrimFloat.add PrimFloat.zero PrimFloat.nan.

Definition twoOptOptimize
  : list (list float) → float → list nat → list nat :=
  Generic.twoOptOptimize PrimFloat.add PrimFloat.ltb PrimFloat.leb
                         PrimFloat.zero PrimFloat.nan.

Definition currentLoad : (nat → float) → list nat → float :=
  Generic.currentLoad PrimFloat.add PrimFloat.zero.

(** The double of an integer below 2^63, and [k / 10]. *)
Definition ofZ (k : Z) : float := PrimFloat.of_uint63 (Uint63.of_Z k).
Definition tenths (k : Z) : float := PrimFloat.div (ofZ k) (ofZ 10).

(** Five places whose distances are whole tenths; the matrix is symmetric
    and its diagonal is 0. *)
Definition tenthsMatrix : list (list float) :=
  map (map tenths)
      [[0; 2; 7; 7; 3]; [2; 0; 2; 5; 1]; [7; 2; 0; 9; 7];
       [7; 5; 9; 0; 6]; [3; 1; 7; 6; 0]]%Z.

(** The demands 2^53, 1, 1 and 0 of the requests at the positions 1 to 4
    (the base, at position 0, has demand 0). *)
Definition largeDemands (i : nat) : float :=
  nth i [ofZ 0; ofZ (2 ^ 53); ofZ 1; ofZ 1; ofZ 0] PrimFloat.nan.

(** The number a finite double stands for. *)
Definition exactValue (x : float) : Qc :=
  match Prim2SF x with
  | S754_finite s m e =>
      Q2Qc (inject_Z (if s then Z.neg m else Z.pos m) * Qpower 2 e)
  | _ => 0%Qc
  end.

End Binary64.

(** ** Results *)

Record DroneResult : Type := mkDroneResult {
  res_id : nat;
  res_route : list (option Zone);
  res_totalDistance : jsnum;
  res_totalDelivered : jsnum;
  res_batteryUsage : string;
  res_routeIndices : list nat;
}.

Record Summary : Type := mkSummary {
  sum_totalDistance : string;
  zonesServed : nat;
  totalZones : Z;
  criticalServed : nat;
  moderateServed : nat;
  lowServed : nat;
  totalCritical : nat;
  totalModerate : nat;
  totalLow : nat;
  avgBatteryUsage : string;
  sum_executionTime : string;
}.

Record Results : Type := mkResults {
  res_drones : list DroneResult;
  summary : Summary;
}.

Definition batteryUsage (d : Drone) : jsnum :=
  mul (div (totalDistance d) (batteryCapacity d)) (ofZ 100).

(** The average before it is formatted: a sum divided by [drones.length]. *)
Definition averageBatteryUsage (ds : list Drone) : jsnum :=
  div (fold_left (λ sum d, add sum (batteryUsage d)) ds zero)
      (ofNat (length ds)).

Definition count (f : Zone → bool) (zs : list Zone) : nat :=
  length (List.filter f zs).

Definition getResults (s : Optimizer) : Results :=
  let zs := zones s in
  let total := fold_left (λ sum d, add sum (totalDistance d)) (drones s) zero in
  mkResults
    (map (λ d, mkDroneResult (did d) (map (λ i, zs !! i) (route d))
                 (totalDistance d) (totalDelivered d)
                 (toFixed (batteryUsage d) 1) (route d))
         (drones s))
    (mkSummary
       (toFixed total 2)
       (count (λ z, served z && nonBase z) zs)
       (Z.of_nat (length zs) - 1)
       (count (λ z, served z && eqb (priority z) (ofZ 1)) zs)
       (count (λ z, served z && eqb (priority z) (ofZ 2)) zs)
       (count (λ z, served z && eqb (priority z) (ofZ 3)) zs)
       (count (λ z, eqb (priority z) (ofZ 1) && nonBase z) zs)
       (count (λ z, eqb (priority z) (ofZ 2) && nonBase z) zs)
       (count (λ z, eqb (priority z) (ofZ 3) && nonBase z) zs)
       (toFixed (averageBatteryUsage (drones s)) 1)
       (toFixed (executionTime s) 2)).

(** ** The main algorithm *)

Inductive JsError : Type := TypeError.

Definition isAssigned (zoneAssigned : list bool) (i : nat) : bool :=
  default false (zoneAssigned !! i).

(** Unserved zones within the drone's payload capacity, by position. *)
Definition availableZonesOf (zs : list Zone) (zoneAssigned : list bool)
    (drone : Drone) : list nat :=
  List.filter
    (λ i, negb (isAssigned zoneAssigned i)
          && le (demand (zoneAt zs i)) (payloadCapacity drone))
    (seq 1 (length zs - 1)).

(** The state the per-drone loop threads: the zones (their [served] flags),
    [zoneAssigned], and the running [totalDelivered] of the current drone. *)
Definition markStep (st : list Zone * list bool * jsnum) (zoneIdx : nat)
  : list Zone * list bool * jsnum :=
  let '(zs, zoneAssigned, delivered) := st in
  if negb (zoneIdx =? 0) && negb (isAssigned zoneAssigned zoneIdx)
  then (alter (set_served true) zoneIdx zs,
        <[zoneIdx := true]> zoneAssigned,
        add delivered (demand (zoneAt zs zoneIdx)))
  else st.

Definition assignDrone (M : list (list jsnum))
    (zs : list Zone) (zoneAssigned : list bool) (drone : Drone)
  : Drone * list Zone * list bool :=
  let availableZones := availableZonesOf zs zoneAssigned drone in
  if length availableZones =? 0 then (drone, zs, zoneAssigned)
  else
    let route := nearestNeighborTSP M zs drone availableZones in
    let route :=
      if 1 <? length route
      then twoOptOptimize M (batteryCapacity drone) route
      else route in
    let '(zs', zoneAssigned', delivered) :=
      fold_left markStep route (zs, zoneAssigned, zero) in
    (mkDrone (did drone) (batteryCapacity drone) (payloadCapacity drone)
             route (calculateRouteDistance M route) delivered,
     zs', zoneAssigned').

(** [for (const drone of this.drones)] *)
Fixpoint assignAll (M : list (list jsnum))
    (zs : list Zone) (zoneAssigned : list bool) (ds : list Drone)
  : list Drone * list Zone :=
  match ds with
  | [] => ([], zs)
  | drone :: rest =>
      let '(drone', zs', zoneAssigned') :=
        assignDrone M zs zoneAssigned drone in
      let '(rest', zs'') := assignAll M zs' zoneAssigned' rest in
      (drone' :: rest', zs'')
  end.

Section Optimize.
Context `{MathLib}.

(** [startTime] and [endTime] are the two readings of [performance.now()].
    With no zone at all, [this.zones[0]] is [undefined] and the reset of the
    [served] flags throws a [TypeError]. *)
Definition optimize (startTime endTime : jsnum) (s : Optimizer)
  : JsError + (Optimizer * Results) :=
  let M := buildDistanceMatrix (zones s) in
  match sortZonesByPriority (zones s) with
  | [] => inl TypeError
  | sorted =>
      let zs := alter (set_served true) 0 (map (set_served false) sorted) in
      let zoneAssigned := <[0 := true]> (replicate (length zs) false) in
      let '(ds, zs') := assignAll M zs zoneAssigned (drones s) in
      let s' := mkOptimizer zs' ds M (baseLocation s) (sub endTime startTime) in
      inr (s', getResults s')
  end.

End Optimize.

(** ** A reference [Math] for evaluation

    The arguments at which the result of the IEEE double operation is
    known exactly: [sin 0 = 0], [sin (±π/2) = ±1], [cos 0 = 1],
    [sqrt 0 = 0], [sqrt 1 = 1], [atan2 0 1 = 0] and [atan2 1 0 = π/2],
    where [π] is the double [Math.PI].  Everything else is left
    undetermined ([NaN]). *)

Module RefMath.

Definition PI : jsnum :=
  Num (Q2Qc (884279719003555 # 281474976710656)).

Definition halfPI : jsnum := div PI (ofZ 2).

Definition same (x y : jsnum) : bool := eqb x y.

Definition sin (x : jsnum) : jsnum :=
  if same x zero then zero
  else if same x halfPI then ofZ 1
  else if same x (neg halfPI) then ofZ (-1)
  else NaN.

Definition cos (x : jsnum) : jsnum :=
  if same x zero then ofZ 1 else NaN.

Definition sqrt (x : jsnum) : jsnum :=
  if same x zero then zero else if same x (ofZ 1) then ofZ 1 else NaN.

Definition atan2 (y x : jsnum) : jsnum :=
  if same y zero && same x (ofZ 1) then zero
  else if same y (ofZ 1) && same x zero then halfPI
  else NaN.

#[export] Instance lib : MathLib := {|
  Math_PI := PI;
  Math_sin := sin;
  Math_cos := cos;
  Math_sqrt := sqrt;
  Math_atan2 := atan2;
|}.

End RefMath.

(** ** Scenarios

    Concrete optimizer states, built through the public operations.  All
    coordinates lie on the equator at longitude 0 or 180, where the
    reference [Math] determines the haversine distance: 0 between equal
    points and [6371 * Math.PI] (about 20015 km) between antipodes. *)

Module Scenario.

Definition run (s : Optimizer) : JsError + (Optimizer * Results) :=
  optimize (H := RefMath.lib) zero zero s.

Definition succeeded (r : JsError + (Optimizer * Results)) : bool :=
  match r with inl _ => false | inr _ => true end.

Definition stateOf (r : JsError + (Optimizer * Results)) : Optimizer :=
  match r with inl _ => newOptimizer | inr (s, _) => s end.

Definition routesOf (r : JsError + (Optimizer * Results)) : list (list nat) :=
  match r with
  | inl _ => []
  | inr (_, res) => map res_routeIndices (res_drones res)
  end.

Definition summaryOf (r : JsError + (Optimizer * Results)) : option Summary :=
  match r with inl _ => None | inr (_, res) => Some (summary res) end.

(** A request with demand -5 and priority 7, a drone with battery range 0
    and payload capacity -1. *)
Definition badZone : Zone := newZone 0 (ofZ 7) (ofZ (-5)) zero zero.
Definition badDrone : Drone := newDrone 1 zero (ofZ (-1)).

(** Only the base, and one drone. *)
Definition baseOnly : Optimizer :=
  addDrone (newDrone 1 (ofZ 1000) (ofZ 100))
  (setBase zero zero newOptimizer).

(** The base and one request, no drone. *)
Definition noFleet : Optimizer :=
  addZone (newZone 0 (ofZ 1) (ofZ 10) zero zero)
  (setBase zero zero newOptimizer).

(** The base; a low-priority request at the base; a critical request at
    the antipode of the base; one drone with range 1000 km. *)
Definition nearAndFar : Optimizer :=
  addDrone (newDrone 1 (ofZ 1000) (ofZ 100))
  (addZone (newZone 0 (ofZ 1) (ofZ 50) zero (ofZ 180))
  (addZone (newZone 0 (ofZ 3) (ofZ 10) zero zero)
  (setBase zero zero newOptimizer))).

(** [optimizer.drones = []] followed by [addDrone] for each new drone, as
    the caller does before a run. *)
Definition replaceFleet (ds : list Drone) (s : Optimizer) : Optimizer :=
  fold_left (λ s d, addDrone d s) ds
    (mkOptimizer (zones s) [] (distanceMatrix s) (baseLocation s)
                 (executionTime s)).

(** Four requests (ids 1 to 4; id 3 lies at the antipode) and two drones:
    the first one short of range and payload, the second one not. *)
Definition fleet : Optimizer :=
  addDrone (newDrone 2 (ofZ 50000) (ofZ 100))
  (addDrone (newDrone 1 (ofZ 1000) (ofZ 60))
  (addZone (newZone 0 (ofZ 1) (ofZ 80) zero zero)
  (addZone (newZone 0 (ofZ 3) (ofZ 30) zero (ofZ 180))
  (addZone (newZone 0 (ofZ 2) (ofZ 30) zero zero)
  (addZone (newZone 0 (ofZ 1) (ofZ 30) zero zero)
  (setBase zero zero newOptimizer)))))).

(** Five points on a line, at 0, 1, 3, 2 and 4: the route 0, 1, 2, 3, 4
    goes back and forth between the third and the fourth. *)
Definition lineMatrix : list (list jsnum) :=
  map (map ofZ)
      [[0; 1; 3; 2; 4]; [1; 0; 2; 1; 3]; [3; 2; 0; 1; 1];
       [2; 1; 1; 0; 2]; [4; 3; 1; 2; 0]]%Z.

(** A fleet kept for a second run.  One request at the antipode; the
    first drone is short of range, the second one carries at most 10.
    After the first run a heavier, critical request at the base is added
    and [optimize] runs again on the same drones. *)
Definition lateRequest : Optimizer :=
  addDrone (newDrone 2 (ofZ 50000) (ofZ 10))
  (addDrone (newDrone 1 (ofZ 1000) (ofZ 100))
  (addZone (newZone 0 (ofZ 3) (ofZ 10) zero (ofZ 180))
  (setBase zero zero newOptimizer))).

Definition lateRequestAgain : JsError + (Optimizer * Results) :=
  run (addZone (newZone 0 (ofZ 1) (ofZ 50) zero zero)
         (stateOf (run lateRequest))).

(** Two requests at the base (inserted in their sorted order); the first
    drone carries at most 20, the second one at most 10 and 1000 km far.
    After the first run the base moves to the antipode and [optimize] runs
    again on the same drones. *)
Definition movedBase : Optimizer :=
  addDrone (newDrone 2 (ofZ 1000) (ofZ 10))
  (addDrone (newDrone 1 (ofZ 100000) (ofZ 20))
  (addZone (newZone 0 (ofZ 3) (ofZ 10) zero zero)
  (addZone (newZone 0 (ofZ 1) (ofZ 15) zero zero)
  (setBase zero zero newOptimizer)))).

Definition movedBaseAgain : JsError + (Optimizer * Results) :=
  run (setBase zero (ofZ 180) (stateOf (run movedBase))).

(** New drones with a negative payload capacity, or a negative range. *)
Definition negativePayload : Optimizer :=
  addDrone (newDrone 1 (ofZ 1000) (ofZ (-1)))
  (addZone (newZone 0 (ofZ 1) (ofZ 10) zero zero)
  (setBase zero zero newOptimizer)).

Definition negativeRange : Optimizer :=
  addDrone (newDrone 1 (ofZ (-1)) (ofZ 100))
  (addZone (newZone 0 (ofZ 1) (ofZ 10) zero zero)
  (setBase zero zero newOptimizer)).

(** Four requests, inserted in the order of [sortZonesByPriority] (the
    second one and the fourth one at the antipode), and two new drones: the
    first one with the payload capacity -1, the second one with a range of
    50000 km and a payload capacity of 200. *)
Definition mixedFleet : Optimizer :=
  addDrone (newDrone 2 (ofZ 50000) (ofZ 200))
  (addDrone (newDrone 1 (ofZ 1000) (ofZ (-1)))
  (addZone (newZone 0 (ofZ 3) (ofZ 30) zero (ofZ 180))
  (addZone (newZone 0 (ofZ 2) (ofZ 30) zero zero)
  (addZone (newZone 0 (ofZ 1) (ofZ 30) zero (ofZ 180))
  (addZone (newZone 0 (ofZ 1) (ofZ 80) zero zero)
  (setBase zero zero newOptimizer)))))).

(** Three requests and two new drones, but no base: the request with id 1
    holds position 0. *)
Definition noBase : Optimizer :=
  addDrone (newDrone 2 (ofZ 1000) (ofZ 10))
  (addDrone (newDrone 1 (ofZ 1000) (ofZ 10))
  (addZone (newZone 0 (ofZ 1) (ofZ 10) zero zero)
  (addZone (newZone 0 (ofZ 1) (ofZ 10) zero zero)
  (addZone (newZone 0 (ofZ 1) (ofZ 10) zero zero)
  newOptimizer)))).

(** The two invariants, drone by drone, in the state a run leaves. *)
Definition withinPayload (r : JsError + (Optimizer * Results)) : list bool :=
  (λ d, le (currentLoad (zones (stateOf r)) (route d)) (payloadCapacity d))
    <$> drones (stateOf r).

Definition withinRange (r : JsError + (Optimizer * Results)) : list bool :=
  (λ d, le (calculateRouteDistance (distanceMatrix (stateOf r)) (route d))
           (batteryCapacity d))
    <$> drones (stateOf r).

End Scenario.

(** ** Structural views of the route distance

    [walk] follows a route element by element, adding as the code adds.
    [edgeSum] adds up the legs of a path as exact numbers, [w a b] being
    the exact length of the leg from [a] to [b], and [tour] is the closed
    path base, route, base. *)

Section Views.
Variable M : list (list jsnum).

Fixpoint walk (t : jsnum) (prev : nat) (l : list nat) : jsnum :=
  match l with
  | [] => add t (dm M prev 0)
  | x :: l' => walk (add t (dm M prev x)) x l'
  end.

End Views.

Fixpoint edgeSum (w : nat → nat → Qc) (l : list nat) : Qc :=
  match l with
  | x :: l' =>
      match l' with
      | y :: _ => (w x y + edgeSum w l')%Qc
      | [] => 0%Qc
      end
  | [] => 0%Qc
  end.

Definition tour (w : nat → nat → Qc) (route : list nat) : Qc :=
  edgeSum w (0 :: route ++ [0]).

(** The number a finite [jsnum] stands for. *)
Definition exactValue (x : jsnum) : Qc :=
  match x with Num q => q | _ => 0%Qc end.

(** The distance accumulated along a route before the return leg, and
    the last stop: what [nearestNeighborTSP] keeps in [currentDistance]
    and [current]. *)
Fixpoint openWalk (M : list (list jsnum)) (t : jsnum) (prev : nat)
    (l : list nat) : jsnum * nat :=
  match l with
  | [] => (t, prev)
  | x :: l' => openWalk M (add t (dm M prev x)) x l'
  end.

(** The available zones that are not visited yet. *)
Definition unvisited (availableZones : list nat) (visited : gset nat)
  : list nat :=
  List.filter (λ k, negb (bool_decide (k ∈ visited))) availableZones.

(** The zones without their [served] flags. *)
Definition unserve (zs : list Zone) : list Zone := map (set_served false) zs.

(** The request ids along a route. *)
Definition routeIds (zs : list Zone) (r : list nat) : list nat :=
  (λ k, zid (zoneAt zs k)) <$> r.

(** The state of the [while] loop of [nearestNeighborTSP] is consistent
    with its route. *)
Definition tracks (M : list (list jsnum)) (availableZones : list nat)
    (route : list nat) (visited : gset nat) (current : nat)
    (currentDistance : jsnum) : Prop :=
  ∃ picks, route = 0 :: picks
    ∧ NoDup route
    ∧ (∀ k, k ∈ picks → k ∈ availableZones)
    ∧ (∀ k, k ∈ visited ↔ k ∈ route)
    ∧ openWalk M zero 0 picks = (currentDistance, current).

(** The payload bound as the code establishes it: the stops of the route,
    in some order, have demands that add up, in that order and as the code
    adds them, to at most the payload capacity.  (The order is the one in
    which [nearestNeighborTSP] selected the stops; [twoOptOptimize] may have
    rearranged them since.) *)
Definition loadWithin (zs : list Zone) (d : Drone) : Prop :=
  ∃ selected, route d ≡ₚ selected
    ∧ le (currentLoad zs selected) (payloadCapacity d) = true.

(** What [assignDrone] establishes for the route of a drone, stated over
    the zones and the assignment flags the drone started from. *)
Definition routeOK (M : list (list jsnum)) (zs : list Zone)
    (zoneAssigned : list bool) (d : Drone) : Prop :=
  NoDup (route d)
  ∧ Forall (λ k, k < length zs ∧ (k ≠ 0 → isAssigned zoneAssigned k = false))
           (route d)
  ∧ (le zero (payloadCapacity d) = true → loadWithin zs d)
  ∧ (dm M 0 0 = zero → le zero (batteryCapacity d) = true →
     le (calculateRouteDistance M (route d)) (batteryCapacity d) = true).

(** Same drone, as far as its constraints go. *)
Definition sameLimits (d d' : Drone) : Prop :=
  did d' = did d
  ∧ batteryCapacity d' = batteryCapacity d
  ∧ payloadCapacity d' = payloadCapacity d.

(** A drone as its constructor leaves it: no route yet. *)
Definition fresh (d : Drone) : Prop := route d = [].

(** The zones as [setBase] and [addZone] leave them: the base, with id 0,
    at position 0, and no id twice. *)
Definition wellFormed (s : Optimizer) : Prop :=
  (zid <$> zones s) !! 0 = Some 0 ∧ NoDup (zid <$> zones s).

(** The ids [addZone] hands out: with the base set first, the zones carry
    exactly the ids 0, 1, ..., n-1, the base in front. *)
Definition canonical (zs : list Zone) : Prop :=
  zid <$> zs ≡ₚ seq 0 (length zs) ∧ (zid <$> zs) !! 0 = Some 0.

(** ** Zones as objects

    [addZone] does not copy the zone it is given: it writes the new id into
    that object and appends the object itself to [this.zones].  Holding the
    zones by value, as the optimizer state above does, is the same thing as
    long as no object is handed over twice.  [Store] keeps the objects
    apart from the array that refers to them: [objects] gives the [Zone]
    object at each address, [zones] the addresses the array holds. *)

Module Store.

Record State : Type := mkState {
  objects : nat → Zone;
  zones : list nat;
}.

(** [array] as a reader sees it: the objects its elements refer to. *)
Definition contents (st : State) : list Zone := objects st <$> zones st.

(** [object.id = id] *)
Definition write_id (address id : nat) (objs : nat → Zone) : nat → Zone :=
  λ a, if a =? address then set_id id (objs a) else objs a.

Definition addZone (zone : nat) (st : State) : State :=
  let id :=
    length (List.filter (λ a, nonBase (objects st a)) (zones st)) + 1 in
  mkState (write_id zone id (objects st)) (zones st ++ [zone]).

(** The base at address 0, held by the array, and one more [Zone] object
    at every other address. *)
Definition example : State :=
  mkState (λ a, if a =? 0 then baseZone zero zero
                else newZone 0 (ofZ 1) (ofZ 10) zero zero)
          [0].

End Store.

(** ** Notions used by the further properties *)

(** The order [sortZonesByPriority] aims at: a zone goes before every zone
    of a larger priority number, and before the zones of its own priority
    number whose demand is not larger than its own. *)
Definition precedes (a b : Zone) : Prop :=
  lt (priority a) (priority b) = true
  ∨ (priority a = priority b ∧ le (demand b) (demand a) = true).

(** Every earlier zone of the list precedes every later one. *)
Definition ordered (l : list Zone) : Prop :=
  ∀ i j a b, i < j → l !! i = Some a → l !! j = Some b → precedes a b.

(** Priority and demand are numbers proper: neither [NaN] nor infinite. *)
Definition finiteKeys (z : Zone) : Prop :=
  finite (priority z) ∧ finite (demand z).

(** The two tests of the scan of [nearestNeighborTSP] that do not depend
    on the best candidate so far: the round trip through the candidate fits
    the battery, and the load with the candidate fits the payload. *)
Definition feasible (M : list (list jsnum)) (zs : list Zone) (drone : Drone)
    (route : list nat) (current : nat) (currentDistance : jsnum)
    (zoneIdx : nat) : bool :=
  le (add (add currentDistance (dm M current zoneIdx)) (dm M zoneIdx 0))
     (batteryCapacity drone)
  && le (add (currentLoad zs route) (demand (zoneAt zs zoneIdx)))
        (payloadCapacity drone).

(** [dist / zone.priority], the quantity the scan minimises. *)
Definition effectiveDist (M : list (list jsnum)) (zs : list Zone)
    (current zoneIdx : nat) : jsnum :=
  div (dm M current zoneIdx) (priority (zoneAt zs zoneIdx)).

(** A number proper that is not negative. *)
Definition nonneg (x : jsnum) : Prop := ∃ q, x = Num q ∧ (0 ≤ q)%Qc.

(** The number of stops of a drone's route besides the base. *)
Definition stops (d : Drone) : nat := length (route d) - 1.

(** The state [s] with the fleet [ds] in place of its drones: what the
    caller builds before a run ([optimizer.drones = []], then [addDrone]
    for each new drone). *)
Definition withFleet (ds : list Drone) (s : Optimizer) : Optimizer :=
  mkOptimizer (zones s) ds (distanceMatrix s) (baseLocation s)
              (executionTime s).

(** ** The caller: [app.js]

    The handlers of the page, as far as they drive the optimizer.  The
    state is the optimizer object together with the variables of the script
    that the handlers test or update: whether [baseMarker] is set, the zone
    markers (one opacity each) and [animationActive].  The map, the
    document and the toasts are outside the model; a handler that only
    shows a toast leaves the state as it is.  What [parseInt],
    [parseFloat] and [Math.random] deliver is an argument of the handler. *)

Module App.

Record State : Type := mkState {
  optimizer : Optimizer;
  baseMarker : bool;
  zoneMarkers : list jsnum;
  animationActive : bool;
}.

(** The variables of the script before any handler has run. *)
Definition initial : State := mkState newOptimizer false [] false.

(** The two opacities [updateZoneMarkers] sets: 1 and 0.4. *)
Definition opaque : jsnum := ofZ 1.
Definition dimmed : jsnum := Num (Q2Qc (4 # 10)).

Definition clearZones (st : State) : State :=
  let o := optimizer st in
  let zones' := match zones o with [] => [] | base :: _ => [base] end in
  mkState (mkOptimizer zones' (drones o) (distanceMatrix o) (baseLocation o)
                       (executionTime o))
          (baseMarker st) [] (animationActive st).

Definition clearAll (st : State) : State :=
  let st := clearZones st in
  mkState (clear (optimizer st)) false (zoneMarkers st) false.

Definition setBaseLocation (la ln : jsnum) (st : State) : State :=
  mkState (setBase la ln (optimizer st)) true (zoneMarkers st)
          (animationActive st).

(** [la] and [ln] are the coordinates of the preset chosen. *)
Definition changeLocation (la ln : jsnum) (st : State) : State :=
  setBaseLocation la ln (clearAll st).

(** [addZone(lat, lng, priority, demand)] of the page: a zone for the
    optimizer and a marker, opaque as every new marker, for the map. *)
Definition addZone (la ln priority demand : jsnum) (st : State) : State :=
  mkState (addZone (newZone 0 priority demand la ln) (optimizer st))
          (baseMarker st) (zoneMarkers st ++ [opaque]) (animationActive st).

Definition onMapClick (la ln priority demand : jsnum) (st : State) : State :=
  addZone la ln priority demand st.

(** [generated] holds, for each of the [numZones] iterations, the position,
    the priority and the demand drawn in it. *)
Definition generateRandomZones
    (generated : list (jsnum * jsnum * jsnum * jsnum)) (st : State) : State :=
  if negb (baseMarker st) then st
  else fold_left (λ st '(la, ln, priority, demand),
                    addZone la ln priority demand st)
                 generated (clearZones st).

(** [for (let i = 1; i <= numDrones; i++) addDrone(new Drone(i, ...))];
    [numDrones] is an integer, or [None] for [NaN]. *)
Definition newFleet (numDrones : option Z) (battery payload : jsnum)
  : list Drone :=
  match numDrones with
  | None => []
  | Some n => (λ i, newDrone i battery payload) <$> seq 1 (Z.to_nat n)
  end.

(** The three guards of [optimizeRoutes], by the toast each one shows. *)
Inductive Refusal : Type := NoBase | NoZones | AnimationInProgress.

(** [optimizeRoutes] up to its [await]: the guards, then the new fleet. *)
Definition optimizeRoutes_prepare (numDrones : option Z)
    (battery payload : jsnum) (st : State) : Refusal + State :=
  if negb (baseMarker st) then inl NoBase
  else if length (zones (optimizer st)) <=? 1 then inl NoZones
  else if animationActive st then inl AnimationInProgress
  else
    inr (mkState (fold_left (λ o d, addDrone d o)
                            (newFleet numDrones battery payload)
                            (withFleet [] (optimizer st)))
                 (baseMarker st) (zoneMarkers st) (animationActive st)).

(** The state to go on with: the prepared one, or [st] after a refusal. *)
Definition proceed (r : Refusal + State) (st : State) : State :=
  match r with inr st' => st' | inl _ => st end.

(** [updateZoneMarkers]: the set [servedZones] of marker positions, then
    the opacity of every marker. *)
Definition servedZones (results : Results) : gset nat :=
  fold_left
    (λ acc drone,
       fold_left (λ acc idx, if negb (idx =? 0) then {[idx - 1]} ∪ acc else acc)
                 (res_routeIndices drone) acc)
    (res_drones results) ∅.

Definition updateZoneMarkers (results : Results) (st : State) : State :=
  mkState (optimizer st) (baseMarker st)
          (imap (λ idx _, if bool_decide (idx ∈ servedZones results)
                          then opaque else dimmed)
                (zoneMarkers st))
          (animationActive st).

(** What the handlers keep: while the base marker is set, the zones carry
    the ids 0, 1, ..., the base in front; and there is one marker for each
    request. *)
Definition consistent (st : State) : Prop :=
  (baseMarker st = true → canonical (zones (optimizer st)))
  ∧ length (zoneMarkers st) = count nonBase (zones (optimizer st)).

(** A location chosen, then two clicks on the map. *)
Definition example : State :=
  onMapClick zero (ofZ 180) (ofZ 1) (ofZ 50)
    (onMapClick zero zero (ofZ 3) (ofZ 10)
       (changeLocation zero zero initial)).

End App.

(** * Properties *)

(** ** Arithmetic of [jsnum] *)

Section Arithmetic.
Local Open Scope Qc_scope.

Lemma Qc_leb_le (a b : Qc) : Qc_leb a b = true ↔ a ≤ b.
Proof. unfold Qc_leb, Qcle. apply Qle_bool_iff. Qed.

Lemma Qc_ltb_lt (a b : Qc) : Qc_ltb a b = true ↔ a < b.
Proof.
  unfold Qc_ltb. rewrite negb_true_iff, <- not_true_iff_false.
  change (Qle_bool b a = true) with (Qc_leb b a = true). rewrite Qc_leb_le.
  split; [apply Qcnot_le_lt | apply Qclt_not_le].
Qed.

Lemma Qc_eqb_eq (a b : Qc) : Qc_eqb a b = true ↔ a = b.
Proof.
  unfold Qc_eqb. rewrite Qeq_bool_iff. split; [apply Qc_is_canon|].
  by intros ->.
Qed.

Lemma Qc_eqb_refl (a : Qc) : Qc_eqb a a = true.
Proof. by apply Qc_eqb_eq. Qed.

Lemma Qc_eqb_opp_0 (a : Qc) : Qc_eqb (- a) 0 = Qc_eqb a 0.
Proof.
  apply eq_true_iff_eq. rewrite !Qc_eqb_eq. split; intros E.
  - by rewrite <- (Qcopp_involutive a), E.
  - by rewrite E.
Qed.

Lemma Qcopp_0 : - 0 = 0.
Proof. reflexivity. Qed.

Lemma Qc_eqb_neq (a b : Qc) : Qc_eqb a b = false ↔ a ≠ b.
Proof. rewrite <- Qc_eqb_eq. by destruct (Qc_eqb a b). Qed.

Lemma Qc_ltb_opp_0 (a : Qc) : Qc_ltb (- a) 0 = true ↔ 0 < a.
Proof.
  rewrite Qc_ltb_lt. split; intros Hlt.
  - apply Qcnot_le_lt. intros Hle. apply Qcopp_le_compat in Hle.
    rewrite Qcopp_0 in Hle. by apply (Qclt_not_le _ _ Hlt).
  - apply Qcnot_le_lt. intros Hle. apply Qcopp_le_compat in Hle.
    rewrite Qcopp_0, Qcopp_involutive in Hle. by apply (Qclt_not_le _ _ Hlt).
Qed.

Lemma sgn_opp (a : Qc) :
  sgn (- a) = match sgn a with Neg => Pos | Zer => Zer | Pos => Neg end.
Proof.
  unfold sgn. rewrite Qc_eqb_opp_0.
  destruct (Qc_eqb a 0) eqn:E0; [done|].
  apply Qc_eqb_neq in E0.
  destruct (Qc_ltb a 0) eqn:E1.
  - apply Qc_ltb_lt in E1.
    destruct (Qc_ltb (- a) 0) eqn:E2; [|done].
    apply Qc_ltb_opp_0 in E2.
    destruct (Qclt_not_le _ _ E1). by apply Qclt_le_weak.
  - destruct (Qc_ltb (- a) 0) eqn:E2; [done|].
    assert (¬ a < 0) as H1 by (rewrite <- Qc_ltb_lt; congruence).
    assert (¬ 0 < a) as H2 by (rewrite <- Qc_ltb_opp_0; congruence).
    apply Qcnot_lt_le in H1, H2.
    destruct E0. by apply Qcle_antisym.
Qed.

Lemma neg_involutive (x : jsnum) : neg (neg x) = x.
Proof. destruct x; simpl; [|done..]. by rewrite Qcopp_involutive. Qed.

Lemma neg_zero : neg zero = zero.
Proof. reflexivity. Qed.

Lemma add_comm (x y : jsnum) : add x y = add y x.
Proof. destruct x, y; simpl; try done. by rewrite Qcplus_comm. Qed.

Lemma add_assoc (x y z : jsnum) : add (add x y) z = add x (add y z).
Proof. destruct x, y, z; simpl; try done. by rewrite Qcplus_assoc. Qed.

Lemma add_zero_l (x : jsnum) : add zero x = x.
Proof.
  destruct x; simpl; try done. f_equal.
  change (Q2Qc (inject_Z 0)) with 0. apply Qcplus_0_l.
Qed.

Lemma add_zero_r (x : jsnum) : add x zero = x.
Proof. by rewrite add_comm, add_zero_l. Qed.

Lemma neg_add (x y : jsnum) : neg (add x y) = add (neg x) (neg y).
Proof. destruct x, y; simpl; try done. f_equal. ring. Qed.

Lemma sub_swap (x y : jsnum) : sub x y = neg (sub y x).
Proof. unfold sub. by rewrite neg_add, neg_involutive, add_comm. Qed.

Lemma neg_scale_inf (b : bool) (s : sign) :
  neg (scale_inf b s) = scale_inf (negb b) s.
Proof. by destruct b, s. Qed.

Lemma scale_inf_sgn_opp (b : bool) (a : Qc) :
  scale_inf b (sgn (- a)) = scale_inf (negb b) (sgn a).
Proof. rewrite sgn_opp. by destruct b, (sgn a). Qed.

Lemma mul_comm (x y : jsnum) : mul x y = mul y x.
Proof. destruct x, y; simpl; try done. by rewrite Qcmult_comm. Qed.

Lemma mul_neg_l (x y : jsnum) : mul (neg x) y = neg (mul x y).
Proof.
  destruct x, y; simpl; try done;
    rewrite ?neg_scale_inf, ?scale_inf_sgn_opp; try done.
  f_equal. ring.
Qed.

Lemma mul_neg_r (x y : jsnum) : mul x (neg y) = neg (mul x y).
Proof. by rewrite mul_comm, mul_neg_l, mul_comm. Qed.

Lemma mul_neg_neg (x y : jsnum) : mul (neg x) (neg y) = mul x y.
Proof. by rewrite mul_neg_l, mul_neg_r, neg_involutive. Qed.

Lemma div_neg_l (x y : jsnum) : div (neg x) y = neg (div x y).
Proof.
  destruct x, y; simpl; rewrite ?neg_zero; try done.
  - destruct (Qc_eqb q0 0) eqn:E.
    + by rewrite neg_scale_inf, scale_inf_sgn_opp.
    + simpl. f_equal. apply Qc_eqb_neq in E. field. done.
  - by destruct (Qc_ltb q 0).
  - by destruct (Qc_ltb q 0).
Qed.

End Arithmetic.

Lemma eqb_refl (x : jsnum) : x ≠ NaN → eqb x x = true.
Proof. destruct x; simpl; [|done..]. intros _. apply Qc_eqb_refl. Qed.

(** ** The distance matrix *)

Section DistanceFacts.
Context `{MathLib}.

(** The haversine formula does not depend on the order of its two points
    as soon as [Math.sin] is an odd function. *)
Lemma calculateDistance_sym (lat1 lng1 lat2 lng2 : jsnum) :
  (∀ x, Math_sin (neg x) = neg (Math_sin x)) →
  calculateDistance lat1 lng1 lat2 lng2 = calculateDistance lat2 lng2 lat1 lng1.
Proof.
  intros Hodd. unfold calculateDistance, toRad.
  rewrite (sub_swap lat1 lat2), (sub_swap lng1 lng2).
  rewrite !mul_neg_l, !div_neg_l, !Hodd, !mul_neg_r, !mul_neg_l.
  rewrite !neg_involutive.
  by rewrite (mul_comm (Math_cos (mul lat2 _)) (Math_cos (mul lat1 _))).
Qed.

Lemma buildDistanceMatrix_length (zs : list Zone) :
  length (buildDistanceMatrix zs) = length zs.
Proof. unfold buildDistanceMatrix. by rewrite length_imap. Qed.

Lemma buildDistanceMatrix_rows (zs : list Zone) :
  Forall (λ row, length row = length zs) (buildDistanceMatrix zs).
Proof.
  apply Forall_lookup. intros i row. unfold buildDistanceMatrix.
  rewrite list_lookup_imap. destruct (zs !! i); [|done].
  intros [= <-]. by rewrite length_imap.
Qed.

Lemma dm_buildDistanceMatrix (zs : list Zone) (i j : nat) (zi zj : Zone) :
  zs !! i = Some zi → zs !! j = Some zj →
  dm (buildDistanceMatrix zs) i j =
    if decide (i = j) then zero
    else calculateDistance (lat zi) (lng zi) (lat zj) (lng zj).
Proof.
  intros Hi Hj. unfold dm, buildDistanceMatrix.
  rewrite list_lookup_imap, Hi. simpl.
  by rewrite list_lookup_imap, Hj.
Qed.

Lemma dm_buildDistanceMatrix_diag (zs : list Zone) (i : nat) :
  i < length zs → dm (buildDistanceMatrix zs) i i = zero.
Proof.
  intros Hi. destruct (lookup_lt_is_Some_2 zs i Hi) as [zi Hzi].
  rewrite (dm_buildDistanceMatrix zs i i zi zi) by done.
  by rewrite decide_True.
Qed.

End DistanceFacts.

(** The matrix does not read the [served] flags. *)
Lemma buildDistanceMatrix_unserve `{MathLib} (zs zs' : list Zone) :
  unserve zs' = unserve zs → buildDistanceMatrix zs' = buildDistanceMatrix zs.
Proof.
  intros E.
  assert (∀ l, buildDistanceMatrix l = buildDistanceMatrix (unserve l)) as Hu.
  { intros l. unfold buildDistanceMatrix, unserve.
    change (map (set_served false) l) with (set_served false <$> l).
    rewrite imap_fmap. apply imap_ext. intros i zi _. simpl.
    rewrite imap_fmap. by apply imap_ext. }
  by rewrite (Hu zs'), (Hu zs), E.
Qed.

(** C8.  For every sequence of zones the matrix that [buildDistanceMatrix]
    builds is square (as many rows as zones, every row as long), its
    diagonal is 0, and it is symmetric: [matrix[i][j]] and [matrix[j][i]]
    hold the same number (which [==] accepts unless that number is [NaN]).
    Symmetry uses that the platform's [Math.sin] is odd. *)
Theorem buildDistanceMatrix_square_symmetric `{MathLib} (zs : list Zone) :
  (∀ x, Math_sin (neg x) = neg (Math_sin x)) →
  let M := buildDistanceMatrix zs in
  length M = length zs
  ∧ Forall (λ row, length row = length zs) M
  ∧ (∀ i j, i < length zs → j < length zs →
       dm M i j = dm M j i
       ∧ (dm M i j ≠ NaN → eqb (dm M i j) (dm M j i) = true))
  ∧ (∀ i, i < length zs → dm M i i = zero ∧ eqb (dm M i i) zero = true).
Proof.
  intros Hodd M. split; [apply buildDistanceMatrix_length|].
  split; [apply buildDistanceMatrix_rows|].
  assert (∀ i j, i < length zs → j < length zs → dm M i j = dm M j i) as Hsym.
  { intros i j Hi Hj.
    destruct (lookup_lt_is_Some_2 zs i Hi) as [zi Hzi].
    destruct (lookup_lt_is_Some_2 zs j Hj) as [zj Hzj].
    unfold M.
    rewrite (dm_buildDistanceMatrix zs i j zi zj),
            (dm_buildDistanceMatrix zs j i zj zi) by done.
    destruct (decide (i = j)) as [->|Hne].
    - by rewrite decide_True.
    - rewrite decide_False by congruence. by apply calculateDistance_sym. }
  split.
  - intros i j Hi Hj. split; [by apply Hsym|].
    intros Hnan. rewrite <- (Hsym i j) by done. by apply eqb_refl.
  - intros i Hi. unfold M. by rewrite dm_buildDistanceMatrix_diag.
Qed.

(** ** Insertion *)

(** C10.  [setBase] puts the new base (id 0, priority 0, demand 0, not
    served) at position 0 and keeps after it exactly the requests whose id
    is not 0, each one unchanged and in their former order; the fleet is not
    touched. *)
Theorem setBase_preserves_requests (la ln : jsnum) (s : Optimizer) :
  zones (setBase la ln s) !! 0 = Some (mkZone 0 zero zero la ln false)
  ∧ tail (zones (setBase la ln s)) = List.filter nonBase (zones s)
  ∧ List.filter nonBase (zones (setBase la ln s))
    = List.filter nonBase (zones s)
  ∧ (∀ z, z ∈ zones s → zid z ≠ 0 → z ∈ zones (setBase la ln s))
  ∧ drones (setBase la ln s) = drones s.
Proof.
  assert (∀ l, List.filter nonBase (List.filter nonBase l)
               = List.filter nonBase l) as Hidem.
  { induction l as [|z l IH]; [done|]. simpl.
    destruct (nonBase z) eqn:E; simpl; rewrite ?E, IH; done. }
  repeat split; try done.
  - simpl. apply Hidem.
  - intros z Hz Hid. simpl. right.
    apply list_elem_of_In, filter_In. split; [by apply list_elem_of_In|].
    unfold nonBase. by apply negb_true_iff, Nat.eqb_neq.
Qed.

(** C5 (as the code has it).  [addZone] and [addDrone] validate nothing:
    any zone is appended, with the next sequential id and its priority,
    demand and coordinates as given; any drone is appended as given. *)
Theorem insertion_unvalidated (zone : Zone) (drone : Drone) (s : Optimizer) :
  zones (addZone zone s)
    = zones s
      ++ [mkZone (length (List.filter nonBase (zones s)) + 1)
                 (priority zone) (demand zone) (lat zone) (lng zone)
                 (served zone)]
  ∧ drones (addZone zone s) = drones s
  ∧ drones (addDrone drone s) = drones s ++ [drone]
  ∧ zones (addDrone drone s) = zones s.
Proof. done. Qed.

(** C5, refuted as stated: a request with demand -5 and priority 7 and a
    drone with range 0 and payload -1 are both stored. *)
Lemma insertion_accepts_invalid :
  le (demand Scenario.badZone) zero = true
  ∧ zones (addZone Scenario.badZone newOptimizer) ≠ zones newOptimizer
  ∧ demand <$> zones (addZone Scenario.badZone newOptimizer) = [ofZ (-5)]
  ∧ priority <$> zones (addZone Scenario.badZone newOptimizer) = [ofZ 7]
  ∧ le (batteryCapacity Scenario.badDrone) zero = true
  ∧ le (payloadCapacity Scenario.badDrone) zero = true
  ∧ drones (addDrone Scenario.badDrone newOptimizer) = [Scenario.badDrone].
Proof. repeat split; done. Qed.

(** ** Degenerate inputs of [optimize] *)

Lemma assignAll_no_request (M : list (list jsnum)) (zs : list Zone)
    (zoneAssigned : list bool) (ds : list Drone) :
  length zs ≤ 1 → assignAll M zs zoneAssigned ds = (ds, zs).
Proof.
  intros Hlen. induction ds as [|d ds IH]; [done|].
  simpl. unfold assignDrone, availableZonesOf.
  replace (length zs - 1) with 0 by lia. simpl. by rewrite IH.
Qed.

(** C4 (as the code has it).  With the base as the only zone, [optimize]
    returns normally: every drone keeps its route, and the summary counts
    0 requests in total and 0 served.  With no zone at all it fails with a
    [TypeError]. *)
Theorem optimize_without_requests `{MathLib} (t0 t1 : jsnum) (s : Optimizer) :
  tail (zones s) = [] →
  match zones s with
  | [] => optimize t0 t1 s = inl TypeError
  | base :: _ =>
      ∃ s' res, optimize t0 t1 s = inr (s', res)
        ∧ drones s' = drones s
        ∧ res_routeIndices <$> res_drones res = route <$> drones s
        ∧ totalZones (summary res) = 0%Z
        ∧ (zid base = 0 → zonesServed (summary res) = 0)
  end.
Proof.
  destruct (zones s) as [|b [|??]] eqn:Hzs; [| |done]; intros _.
  { unfold optimize. by rewrite Hzs. }
  unfold optimize. rewrite Hzs. simpl sortZonesByPriority. lazy beta iota zeta.
  rewrite assignAll_no_request by done.
  eexists _, _. split; [done|]. simpl.
  split; [done|]. split.
  - rewrite <- list_fmap_compose. done.
  - split; [done|]. intros Hb. unfold count, nonBase. simpl.
    by rewrite Hb.
Qed.

(** C4, refuted as stated: with only the base present [optimize] succeeds
    and hands back an empty result. *)
Lemma optimize_base_only_succeeds :
  Scenario.succeeded (Scenario.run Scenario.baseOnly) = true
  ∧ Scenario.routesOf (Scenario.run Scenario.baseOnly) = [[]]
  ∧ zonesServed <$> Scenario.summaryOf (Scenario.run Scenario.baseOnly)
    = Some 0.
Proof. by vm_compute. Qed.

Lemma optimize_without_requests_witness :
  ∃ s' res, Scenario.run Scenario.baseOnly = inr (s', res)
    ∧ drones s' = drones Scenario.baseOnly
    ∧ res_routeIndices <$> res_drones res = route <$> drones Scenario.baseOnly
    ∧ totalZones (summary res) = 0%Z
    ∧ (0 = 0 → zonesServed (summary res) = 0).
Proof.
  exact (optimize_without_requests (H := RefMath.lib) zero zero
           Scenario.baseOnly eq_refl).
Defined.

Lemma averageBatteryUsage_nil : averageBatteryUsage [] = NaN.
Proof. reflexivity. Qed.

(** With an empty fleet every request stays unserved, and the average
    battery usage is 0 / 0. *)
Lemma optimize_empty_fleet `{MathLib} (t0 t1 : jsnum) (s : Optimizer) :
  drones s = [] → zones s ≠ [] →
  ∃ s' res, optimize t0 t1 s = inr (s', res)
    ∧ (∀ i z, 0 < i → zones s' !! i = Some z → served z = false)
    ∧ zonesServed (summary res)
      = count (λ z, served z && nonBase z) (take 1 (zones s'))
    ∧ avgBatteryUsage (summary res) = "NaN"%string.
Proof.
  intros Hds Hzs. unfold optimize. rewrite Hds.
  destruct (zones s) as [|b rest] eqn:E; [done|].
  simpl sortZonesByPriority. lazy beta iota zeta. simpl assignAll.
  eexists _, _. split; [done|]. split; [|split; [|done]].
  - intros [|i] z Hi; [lia|]. simpl. rewrite list_lookup_fmap.
    destruct (sortZones rest !! i); [|done]. by intros [= <-].
  - assert (∀ l, List.filter (λ z, served z && nonBase z)
                   (map (set_served false) l) = []) as Hnone
      by (induction l; done).
    simpl. unfold count. simpl. rewrite Hnone.
    by destruct (nonBase _).
Qed.

(** C6, the defect: with the base, one request and no drone, [optimize]
    leaves the request unserved and reports the average battery usage
    ["NaN"], not 0. *)
Theorem optimize_empty_fleet_average_NaN :
  Scenario.succeeded (Scenario.run Scenario.noFleet) = true
  ∧ served <$> zones (Scenario.stateOf (Scenario.run Scenario.noFleet))
    = [true; false]
  ∧ zonesServed <$> Scenario.summaryOf (Scenario.run Scenario.noFleet)
    = Some 0
  ∧ avgBatteryUsage <$> Scenario.summaryOf (Scenario.run Scenario.noFleet)
    = Some "NaN"%string.
Proof. by vm_compute. Qed.

(** ** Reversal of a segment *)

Lemma fold_left_invariant {A B : Type} (P : A → Prop) (f : A → B → A)
    (l : list B) (a : A) :
  P a → (∀ a x, x ∈ l → P a → P (f a x)) → P (fold_left f l a).
Proof.
  revert a. induction l as [|x l IH]; intros a Ha Hstep; [done|].
  simpl. apply IH.
  - apply Hstep; [left|done].
  - intros a' y Hy. apply Hstep. by right.
Qed.

Lemma idx_middle (A B : list nat) (x : nat) : idx (A ++ x :: B) (length A) = x.
Proof. unfold idx. by rewrite list_lookup_middle. Qed.

Lemma swap_ends (A S B : list nat) (x y : nat) :
  swap (A ++ x :: S ++ y :: B) (length A) (length A + length S + 1)
  = A ++ y :: S ++ x :: B.
Proof.
  unfold swap. rewrite idx_middle.
  assert (A ++ x :: S ++ y :: B = (A ++ x :: S) ++ y :: B) as E
    by (by rewrite <- app_assoc).
  assert (length A + length S + 1 = length (A ++ x :: S)) as El
    by (rewrite length_app; simpl; lia).
  rewrite E, El, idx_middle.
  rewrite insert_app_r_alt, Nat.sub_diag by lia. simpl.
  rewrite <- app_assoc. simpl.
  rewrite insert_app_r_alt, Nat.sub_diag by lia. done.
Qed.

Lemma list_ends_case {A : Type} (l : list A) :
  length l ≤ 1 ∨ ∃ x l' y, l = x :: l' ++ [y].
Proof.
  destruct l as [|x l]; [left; simpl; lia|].
  destruct l as [|z l'] using rev_ind; [left; simpl; lia|].
  right. by exists x, l', z.
Qed.

Lemma reverseLoop_spec (fuel : nat) (A S B : list nat) :
  length S ≤ fuel →
  reverseLoop fuel (A ++ S ++ B) (length A) (length A + length S - 1)
  = A ++ rev S ++ B.
Proof.
  revert A S B. induction fuel as [|fuel IH]; intros A S B Hfuel.
  { destruct S; [done|simpl in Hfuel; lia]. }
  simpl. destruct (list_ends_case S) as [Hshort|(x & S' & y & ->)].
  - replace (length A <? length A + length S - 1) with false
      by (symmetry; apply Nat.ltb_ge; lia).
    destruct S as [|x [|??]]; simpl in *; [done|done|lia].
  - rewrite length_cons, length_app in *. simpl in *.
    replace (length A <? length A + S (length S' + 1) - 1) with true
      by (symmetry; apply Nat.ltb_lt; lia).
    replace (length A + S (length S' + 1) - 1)
      with (length A + length S' + 1) by lia.
    rewrite <- (app_assoc S' [y] B). simpl.
    rewrite swap_ends.
    specialize (IH (A ++ [y]) S' (x :: B)).
    rewrite length_app in IH. simpl in IH.
    replace (length A + length S' + 1 - 1)
      with (length A + 1 + length S' - 1) by lia.
    replace (A ++ y :: S' ++ x :: B) with ((A ++ [y]) ++ S' ++ x :: B)
      by (by rewrite <- app_assoc).
    rewrite IH by lia.
    rewrite rev_app_distr. simpl. rewrite <- !app_assoc. done.
Qed.

(** [reverseSegment] on a route cut at the two positions. *)
Lemma reverseSegment_spec (A S B : list nat) :
  S ≠ [] →
  reverseSegment (A ++ S ++ B) (length A) (length A + length S - 1)
  = A ++ rev S ++ B.
Proof.
  intros _. unfold reverseSegment. apply reverseLoop_spec.
  rewrite !length_app. lia.
Qed.

(** ** Route distance *)

Lemma calculateRouteDistance_walk (M : list (list jsnum)) (r0 : nat)
    (rest : list nat) :
  calculateRouteDistance M (r0 :: rest) = walk M (dm M 0 r0) r0 rest.
Proof.
  unfold calculateRouteDistance.
  assert (∀ rest pre x t,
    add (fold_left
           (λ t i, add t (dm M (idx (pre ++ x :: rest) i)
                               (idx (pre ++ x :: rest) (i + 1))))
           (seq (length pre) (length rest)) t)
        (dm M (idx (pre ++ x :: rest) (length (pre ++ x :: rest) - 1)) 0)
    = walk M t x rest) as Hgen.
  { clear. induction rest as [|y rest IH]; intros pre x t.
    - simpl. rewrite length_app. simpl.
      replace (length pre + 1 - 1)%nat with (length pre) by lia.
      by rewrite idx_middle.
    - simpl. rewrite idx_middle.
      replace (pre ++ x :: y :: rest) with ((pre ++ [x]) ++ y :: rest)
        by (by rewrite <- app_assoc).
      replace (length pre + 1)%nat with (length (pre ++ [x]))
        by (by rewrite length_app).
      rewrite idx_middle.
      replace (S (length pre)) with (length (pre ++ [x]))
        by (rewrite length_app; simpl; lia).
      apply IH. }
  specialize (Hgen rest [] r0 (dm M 0 r0)). simpl in Hgen.
  rewrite Nat.sub_0_r in Hgen. simpl. rewrite Nat.sub_0_r. apply Hgen.
Qed.

(** The legs of a route added up as exact numbers, for leg lengths that do
    not depend on the direction. *)
Section ExactSums.
Variable w : nat → nat → Qc.
Variable n : nat.
Hypothesis w_sym : ∀ a b, a < n → b < n → w a b = w b a.

Local Open Scope Qc_scope.

Lemma edgeSum_app (l1 l2 : list nat) (x : nat) :
  edgeSum w (l1 ++ x :: l2) = edgeSum w (l1 ++ [x]) + edgeSum w (x :: l2).
Proof using Type.
  induction l1 as [|a l1 IH].
  - simpl. ring.
  - destruct l1 as [|b l1].
    + simpl. destruct l2; ring.
    + change (edgeSum w ((a :: b :: l1) ++ x :: l2))
        with (w a b + edgeSum w ((b :: l1) ++ x :: l2)).
      change (edgeSum w ((a :: b :: l1) ++ [x]))
        with (w a b + edgeSum w ((b :: l1) ++ [x])).
      rewrite IH. ring.
Qed.

Lemma edgeSum_rev (l : list nat) :
  Forall (λ k, (k < n)%nat) l → edgeSum w (rev l) = edgeSum w l.
Proof using w_sym.
  induction l as [|x l IH]; [done|]. intros Hall.
  inversion Hall as [|?? Hx Hl]; subst.
  destruct l as [|y l]; [done|]. inversion Hl; subst.
  change (rev (x :: y :: l)) with ((rev l ++ [y]) ++ [x]).
  rewrite <- app_assoc. simpl app. rewrite (edgeSum_app (rev l) [x] y).
  change (rev l ++ [y]) with (rev (y :: l)). rewrite IH by done.
  simpl. rewrite (w_sym y x) by done. ring.
Qed.

Lemma edgeSum_cut (P S Q : list nat) (a x y b : nat) :
  edgeSum w (P ++ a :: x :: S ++ y :: b :: Q)
  = edgeSum w (P ++ [a]) + edgeSum w (b :: Q)
    + (w a x + w y b) + edgeSum w (x :: S ++ [y]).
Proof using Type.
  rewrite (edgeSum_app P (x :: S ++ y :: b :: Q) a).
  change (edgeSum w (a :: x :: S ++ y :: b :: Q))
    with (w a x + edgeSum w ((x :: S) ++ y :: b :: Q)).
  rewrite (edgeSum_app (x :: S) (b :: Q) y).
  change (edgeSum w (y :: b :: Q)) with (w y b + edgeSum w (b :: Q)).
  simpl app. ring.
Qed.

(** Reversing an inner segment changes the exact round trip by exactly
    the difference of the two pairs of legs that are exchanged. *)
Lemma tour_reversed (A S B : list nat) (a x y b : nat) :
  Forall (λ k, (k < n)%nat) (x :: S ++ [y]) →
  tour w (A ++ a :: y :: rev S ++ x :: b :: B) + (w a x + w y b)
  = tour w (A ++ a :: x :: S ++ y :: b :: B) + (w a y + w x b).
Proof using w_sym.
  intros Hall.
  assert (∀ S x y, tour w (A ++ a :: x :: S ++ y :: b :: B)
            = edgeSum w ((0%nat :: A) ++ a :: x :: S ++ y :: b :: B ++ [0%nat]))
    as Hcut.
  { intros S' x' y'. unfold tour. f_equal. simpl. f_equal.
    rewrite <- app_assoc. simpl. by rewrite <- app_assoc. }
  rewrite !Hcut.
  rewrite (edgeSum_cut (0%nat :: A) (rev S) (B ++ [0%nat]) a y x b).
  rewrite (edgeSum_cut (0%nat :: A) S (B ++ [0%nat]) a x y b).
  replace (y :: rev S ++ [x]) with (rev (x :: S ++ [y]))
    by (simpl; rewrite rev_app_distr; done).
  rewrite edgeSum_rev by done. ring.
Qed.

(** A reversal that exchanges two legs for two legs of a smaller exact sum
    shortens the exact round trip. *)
Lemma tour_reversed_shorter (A S B : list nat) (a x y b : nat) :
  Forall (λ k, (k < n)%nat) (x :: S ++ [y]) →
  w a y + w x b < w a x + w y b →
  tour w (A ++ a :: y :: rev S ++ x :: b :: B)
  < tour w (A ++ a :: x :: S ++ y :: b :: B).
Proof using w_sym.
  intros Hall Hlt.
  apply (Qcplus_lt_mono_r _ _ (w a x + w y b)).
  rewrite (tour_reversed A S B a x y b Hall).
  by apply Qcplus_lt_mono_l.
Qed.

End ExactSums.

(** ** 2-opt *)

Lemma route_cut (r : list nat) (i j : nat) :
  1 ≤ i → i < j → j + 1 < length r →
  ∃ A a x S y b B,
    r = A ++ a :: x :: S ++ y :: b :: B
    ∧ length A = i - 1 ∧ length S = j - i - 1.
Proof.
  intros Hi Hij Hj.
  destruct (lookup_lt_is_Some_2 r (i - 1)) as [a Ha]; [lia|].
  apply list_elem_of_split_length in Ha as (A & T1 & -> & HA).
  rewrite length_app in Hj. simpl in Hj.
  destruct T1 as [|x T2]; [simpl in Hj; lia|]. simpl in Hj.
  destruct (lookup_lt_is_Some_2 T2 (j - i - 1)) as [y Hy]; [lia|].
  apply list_elem_of_split_length in Hy as (S & T3 & -> & HS).
  rewrite length_app in Hj. simpl in Hj.
  destruct T3 as [|b B]; [simpl in Hj; lia|].
  exists A, a, x, S, y, b, B. done.
Qed.

Lemma reversed_Permutation (A S B : list nat) (a x y b : nat) :
  A ++ a :: y :: rev S ++ x :: b :: B ≡ₚ A ++ a :: x :: S ++ y :: b :: B.
Proof. rewrite <- (Permutation_rev S). solve_Permutation. Qed.

(** The search, whatever the arithmetic. *)
Section GenericImprover.
Context {num : Type}.
Variable add : num → num → num.
Variables lt le : num → num → bool.
Variables zero nan : num.
Variable M : list (list num).
Variable maxDistance : num.

Local Abbreviation dm := (Generic.dm nan M).
Local Abbreviation calculateRouteDistance := (Generic.calculateRouteDistance add zero nan M).
Local Abbreviation twoOptStep := (Generic.twoOptStep add lt le zero nan M maxDistance).
Local Abbreviation twoOptPass := (Generic.twoOptPass add lt le zero nan M maxDistance).
Local Abbreviation twoOptLoop := (Generic.twoOptLoop add lt le zero nan M maxDistance).
Local Abbreviation twoOptOptimize :=
  (Generic.twoOptOptimize add lt le zero nan M maxDistance).
Local Abbreviation accepted := (Generic.accepted add lt le zero nan M maxDistance).

(** What [twoOptStep] reads and builds on a route cut at [i] and [j]. *)
Lemma generic_twoOptStep_cut (A S B : list nat) (a x y b : nat)
    (improved : bool) :
  let r := A ++ a :: x :: S ++ y :: b :: B in
  let r' := A ++ a :: y :: rev S ++ x :: b :: B in
  twoOptStep (length A + 1) (r, improved) (length A + length S + 2)
  = if lt (add (dm a y) (dm x b)) (add (dm a x) (dm y b))
    then if le (calculateRouteDistance r') maxDistance
         then (r', true) else (r, improved)
    else (r, improved).
Proof.
  intros r r'. unfold Generic.twoOptStep. cbn [fst].
  assert (idx r (length A + 1 - 1) = a) as ->.
  { replace (length A + 1 - 1) with (length A) by lia. apply idx_middle. }
  assert (idx r (length A + 1) = x) as ->.
  { unfold r. replace (A ++ a :: x :: S ++ y :: b :: B)
      with ((A ++ [a]) ++ x :: S ++ y :: b :: B) by (by rewrite <- app_assoc).
    replace (length A + 1) with (length (A ++ [a])) by (by rewrite length_app).
    apply idx_middle. }
  assert (idx r (length A + length S + 2) = y) as ->.
  { unfold r. replace (A ++ a :: x :: S ++ y :: b :: B)
      with ((A ++ a :: x :: S) ++ y :: b :: B)
      by (by rewrite <- app_assoc).
    replace (length A + length S + 2) with (length (A ++ a :: x :: S))
      by (rewrite length_app; simpl; lia).
    apply idx_middle. }
  assert (idx r (length A + length S + 2 + 1) = b) as ->.
  { unfold r. replace (A ++ a :: x :: S ++ y :: b :: B)
      with ((A ++ a :: x :: S ++ [y]) ++ b :: B)
      by (rewrite <- app_assoc; simpl; by rewrite <- app_assoc).
    replace (length A + length S + 2 + 1)
      with (length (A ++ a :: x :: S ++ [y]))
      by (rewrite length_app; simpl; rewrite length_app; simpl; lia).
    apply idx_middle. }
  assert (reverseSegment r (length A + 1) (length A + length S + 2) = r')
    as ->; [|done].
  pose proof (reverseSegment_spec (A ++ [a]) (x :: S ++ [y]) (b :: B)) as Hrev.
  specialize (Hrev ltac:(done)).
  assert (length (A ++ [a]) + length (x :: S ++ [y]) - 1
          = length A + length S + 2) as E2
    by (simpl; rewrite !length_app; simpl; lia).
  assert (length (A ++ [a]) = length A + 1) as E1
    by (by rewrite length_app).
  rewrite E2, E1 in Hrev.
  unfold r, r'.
  replace (A ++ a :: x :: S ++ y :: b :: B)
    with ((A ++ [a]) ++ (x :: S ++ [y]) ++ b :: B)
    by (rewrite <- !app_assoc; simpl; by rewrite <- app_assoc).
  rewrite Hrev. simpl.
  rewrite rev_app_distr. simpl. rewrite <- !app_assoc. simpl.
  by rewrite <- ?app_assoc.
Qed.

(** A property that every accepted reversal keeps holds of the route
    returned as soon as it holds of the route given. *)
Section Invariant.
Variable P : list nat → Prop.
Hypothesis P_step : ∀ r r', P r → accepted r r' → P r'.

Lemma generic_twoOptStep_invariant (i j : nat) (st : list nat * bool) :
  1 ≤ i → i < j → j + 1 < length st.1 → P st.1 →
  P (twoOptStep i st j).1
  ∧ length (twoOptStep i st j).1 = length st.1.
Proof using P_step.
  destruct st as [r improved]. cbn [fst]. intros Hi Hij Hj HP.
  destruct (route_cut r i j Hi Hij Hj)
    as (A & a & x & S & y & b & B & -> & HA & HS).
  replace i with (length A + 1) by lia.
  replace j with (length A + length S + 2) by lia.
  rewrite generic_twoOptStep_cut.
  destruct (lt _ _) eqn:Hlt; [|done].
  destruct (le _ _) eqn:Hle; [|done].
  cbn [fst]. split.
  - apply (P_step _ _ HP). by constructor.
  - apply Permutation_length, reversed_Permutation.
Qed.

Lemma generic_twoOptPass_invariant (r : list nat) :
  P r →
  P (twoOptPass r).1 ∧ length (twoOptPass r).1 = length r.
Proof using P_step.
  intros HP. unfold Generic.twoOptPass.
  apply (fold_left_invariant (λ st, P st.1 ∧ length st.1 = length r));
    [done|].
  intros st i Hi Hst.
  apply (fold_left_invariant (λ st, P st.1 ∧ length st.1 = length r));
    [done|].
  intros st' j Hj [HP' Hlen].
  apply elem_of_seq in Hi, Hj.
  destruct (generic_twoOptStep_invariant i j st') as [H1 H2]; [lia..|done|].
  split; [done|]. by rewrite H2.
Qed.

Lemma generic_twoOptLoop_invariant (k : nat) (r : list nat) :
  P r → P (twoOptLoop k r).
Proof using P_step.
  revert r. induction k as [|k IH]; intros r HP; [done|].
  simpl. destruct (generic_twoOptPass_invariant r HP) as [HP' _].
  destruct (twoOptPass r).2; [by apply IH|done].
Qed.

Lemma generic_twoOptOptimize_invariant (r : list nat) :
  P r → P (twoOptOptimize r).
Proof using P_step.
  intros HP. unfold Generic.twoOptOptimize.
  destruct (length r <? 4); [done|]. by apply generic_twoOptLoop_invariant.
Qed.

End Invariant.

(** The route returned is reached from the route given by reversals that
    the search accepts, and has the same stops. *)
Lemma generic_twoOptOptimize_accepted (r : list nat) :
  twoOptOptimize r ≡ₚ r ∧ rtc accepted r (twoOptOptimize r).
Proof.
  apply (generic_twoOptOptimize_invariant (λ r', r' ≡ₚ r ∧ rtc accepted r r'));
    [|done].
  intros r1 r2 [Hperm Hrtc] Hstep. split.
  - destruct Hstep. by rewrite reversed_Permutation.
  - by eapply rtc_r.
Qed.

(** For leg lengths [exact] that do not depend on the direction, and as
    long as a smaller computed sum of two legs is a smaller exact sum,
    the exact round trip does not grow. *)
Lemma generic_twoOptOptimize_shorter (exact : num → Qc) (n : nat)
    (r : list nat) :
  (∀ a x y b, a < n → x < n → y < n → b < n →
     lt (add (dm a y) (dm x b)) (add (dm a x) (dm y b)) = true →
     (exact (dm a y) + exact (dm x b) < exact (dm a x) + exact (dm y b))%Qc) →
  (∀ a b, a < n → b < n → dm a b = dm b a) →
  Forall (λ k, k < n) r →
  (tour (λ a b, exact (dm a b)) (twoOptOptimize r)
   ≤ tour (λ a b, exact (dm a b)) r)%Qc.
Proof.
  intros Hexact Hsym Hall.
  set (w := λ a b, exact (dm a b)).
  assert (twoOptOptimize r ≡ₚ r ∧ (tour w (twoOptOptimize r) ≤ tour w r)%Qc)
    as [_ Hle]; [|done].
  apply (generic_twoOptOptimize_invariant
           (λ r', r' ≡ₚ r ∧ (tour w r' ≤ tour w r)%Qc)); [|done].
  intros r1 r2 [Hperm Hle] Hstep. destruct Hstep as [A S B a x y b Hlt _].
  split; [by rewrite reversed_Permutation|].
  assert (Forall (λ k, k < n) (A ++ a :: x :: S ++ y :: b :: B)) as Hall'
    by (by rewrite Hperm).
  apply Forall_app in Hall' as [_ Hall'].
  apply Forall_cons in Hall' as [Ha Hall'].
  apply Forall_cons in Hall' as [Hx Hall'].
  apply Forall_app in Hall' as [HS Hall'].
  apply Forall_cons in Hall' as [Hy Hall'].
  apply Forall_cons in Hall' as [Hb _].
  apply Qcle_trans with (tour w (A ++ a :: x :: S ++ y :: b :: B)); [|done].
  apply Qclt_le_weak.
  apply (tour_reversed_shorter w n).
  - intros c d Hc Hd. unfold w. by rewrite Hsym.
  - apply Forall_cons. split; [done|]. apply Forall_app. split; [done|].
    by apply Forall_singleton.
  - by apply Hexact.
Qed.

End GenericImprover.

(** At the operations of [jsnum] the generic functions are the functions
    of the embedding. *)
Lemma Generic_at_jsnum (M : list (list jsnum)) (zs : list Zone)
    (maxDistance : jsnum) (r : list nat) :
  Generic.calculateRouteDistance add zero NaN M r = calculateRouteDistance M r
  ∧ Generic.twoOptOptimize add lt le zero NaN M maxDistance r
    = twoOptOptimize M maxDistance r
  ∧ Generic.currentLoad add zero (λ i, demand (zoneAt zs i)) r
    = currentLoad zs r.
Proof. done. Qed.

Section TwoOptInvariant.
Variable M : list (list jsnum).
Variable maxDistance : jsnum.
Variable P : list nat → Prop.

(** [P] is kept by every reversal the search can accept. *)
Hypothesis P_step : ∀ A S B a x y b,
  P (A ++ a :: x :: S ++ y :: b :: B) →
  lt (add (dm M a y) (dm M x b)) (add (dm M a x) (dm M y b)) = true →
  le (calculateRouteDistance M (A ++ a :: y :: rev S ++ x :: b :: B))
     maxDistance = true →
  P (A ++ a :: y :: rev S ++ x :: b :: B).

Lemma twoOptOptimize_invariant (r : list nat) :
  P r → P (twoOptOptimize M maxDistance r).
Proof using P_step.
  apply (generic_twoOptOptimize_invariant add lt le zero NaN M maxDistance P).
  intros r1 r2 HP Hstep. destruct Hstep as [A S B a x y b Hlt Hle].
  by apply P_step.
Qed.

End TwoOptInvariant.

(** The improved route has the same stops, and is either the route given
    or one whose round trip was checked against the ceiling. *)
Lemma twoOptOptimize_feasible (M : list (list jsnum)) (maxDistance : jsnum)
    (r : list nat) :
  twoOptOptimize M maxDistance r ≡ₚ r
  ∧ (twoOptOptimize M maxDistance r = r
     ∨ le (calculateRouteDistance M (twoOptOptimize M maxDistance r))
          maxDistance = true).
Proof.
  apply (twoOptOptimize_invariant M maxDistance
           (λ r', r' ≡ₚ r ∧ (r' = r ∨ le (calculateRouteDistance M r')
                                         maxDistance = true)));
    [|split; [done|by left]].
  intros A S B a x y b [Hperm _] _ Hle. split; [|by right].
  by rewrite reversed_Permutation.
Qed.


(** ** Nearest-neighbour construction *)

Section ConstructionFacts.
Variable M : list (list jsnum).
Variable zs : list Zone.
Variable drone : Drone.
Variable availableZones : list nat.

Lemma walk_openWalk (t : jsnum) (prev : nat) (l : list nat) :
  walk M t prev l
  = add (openWalk M t prev l).1 (dm M (openWalk M t prev l).2 0).
Proof. revert t prev. induction l as [|x l IH]; intros t prev; [done|]. apply IH. Qed.

Lemma openWalk_snoc (t : jsnum) (prev : nat) (l : list nat) (z : nat) :
  openWalk M t prev (l ++ [z])
  = (add (openWalk M t prev l).1 (dm M (openWalk M t prev l).2 z), z).
Proof. revert t prev. induction l as [|x l IH]; intros t prev; [done|]. apply IH. Qed.

(** What the scan guarantees about the zone it selects. *)
Lemma scan_Some (route : list nat) (visited : gset nat) (current : nat)
    (currentDistance : jsnum) (z : nat) :
  (scan M zs drone availableZones route visited current currentDistance).1
    = Some z →
  z ∈ availableZones ∧ (z ∉ visited)
  ∧ le (add (add currentDistance (dm M current z)) (dm M z 0))
       (batteryCapacity drone) = true
  ∧ le (add (currentLoad zs route) (demand (zoneAt zs z)))
       (payloadCapacity drone) = true.
Proof.
  unfold scan. revert z.
  apply (fold_left_invariant (λ acc, ∀ z, fst acc = Some z → _)); [done|].
  intros acc k Hk IH z. unfold scanStep.
  case_bool_decide as Hvis; [by apply IH|].
  destruct (le _ (batteryCapacity drone)) eqn:Hbat; [|by apply IH].
  destruct (lt _ _); [|by apply IH]. simpl.
  destruct (le _ (payloadCapacity drone)) eqn:Hpay; [|by apply IH].
  simpl. by intros [= <-].
Qed.

Lemma currentLoad_snoc (route : list nat) (z : nat) :
  z ≠ 0 →
  currentLoad zs (route ++ [z])
  = add (currentLoad zs route) (demand (zoneAt zs z)).
Proof.
  intros Hz. unfold currentLoad. rewrite List.filter_app. simpl.
  replace (z =? 0) with false by (symmetry; by apply Nat.eqb_neq).
  simpl. by rewrite fold_left_app.
Qed.

Lemma nnLoop_invariant (P : list nat → Prop) (fuel : nat) :
  (∀ route visited current currentDistance z,
     tracks M availableZones route visited current currentDistance → P route →
     z ∈ availableZones → z ∉ visited →
     le (add (add currentDistance (dm M current z)) (dm M z 0))
        (batteryCapacity drone) = true →
     le (add (currentLoad zs route) (demand (zoneAt zs z)))
        (payloadCapacity drone) = true →
     P (route ++ [z])) →
  ∀ route visited current currentDistance,
    tracks M availableZones route visited current currentDistance → P route →
    let r := nnLoop M zs drone fuel availableZones route visited current
                    currentDistance in
    P r ∧ ∃ picks, r = 0 :: picks ∧ NoDup r
                   ∧ (∀ k, k ∈ picks → k ∈ availableZones).
Proof.
  intros Hstep. induction fuel as [|fuel IH];
    intros route visited current currentDistance Htr HP; simpl.
  { split; [done|]. destruct Htr as (picks & ? & ? & ? & _). eauto. }
  destruct (scan _ _ _ _ _ _ _ _).1 as [z|] eqn:Hscan.
  2:{ split; [done|]. destruct Htr as (picks & ? & ? & ? & _). eauto. }
  apply scan_Some in Hscan as (Hz & Hvis & Hbat & Hpay).
  apply IH; [|by eapply Hstep].
  destruct Htr as (picks & -> & Hnd & Hsub & Hvisited & Hwalk).
  exists (picks ++ [z]). split; [done|]. split; [|split; [|split]].
  - change (0 :: picks ++ [z]) with ((0 :: picks) ++ [z]).
    apply NoDup_app. split; [done|]. split; [|apply NoDup_singleton].
    intros k Hk ->%list_elem_of_singleton. by apply Hvis, Hvisited.
  - intros k [Hk| ->%list_elem_of_singleton]%elem_of_app; auto.
  - intros k. rewrite elem_of_union, elem_of_singleton, Hvisited.
    change (0 :: picks ++ [z]) with ((0 :: picks) ++ [z]).
    rewrite elem_of_app, list_elem_of_singleton. tauto.
  - by rewrite openWalk_snoc, Hwalk.
Qed.

Lemma nearestNeighborTSP_spec :
  Forall (λ k, k ≠ 0) availableZones →
  let r := nearestNeighborTSP M zs drone availableZones in
  (∃ picks, r = 0 :: picks ∧ NoDup r
            ∧ (∀ k, k ∈ picks → k ∈ availableZones))
  ∧ (le zero (payloadCapacity drone) = true →
     le (currentLoad zs r) (payloadCapacity drone) = true)
  ∧ (dm M 0 0 = zero → le zero (batteryCapacity drone) = true →
     le (calculateRouteDistance M r) (batteryCapacity drone) = true).
Proof.
  intros Hnz r.
  pose (P := λ route : list nat,
    (le zero (payloadCapacity drone) = true →
     le (currentLoad zs route) (payloadCapacity drone) = true)
    ∧ (dm M 0 0 = zero → le zero (batteryCapacity drone) = true →
       le (calculateRouteDistance M route) (batteryCapacity drone) = true)).
  destruct (nnLoop_invariant P (S (length availableZones))) with
    (route := [0]) (visited := ({[0]} : gset nat)) (current := 0)
    (currentDistance := zero) as [[HP1 HP2] Hshape].
  - intros route visited current cd z (picks & -> & _ & _ & _ & Hwalk) _
      Hz _ Hbat Hpay. split.
    + intros _. rewrite currentLoad_snoc; [done|].
      by apply (proj1 (Forall_forall _ _) Hnz).
    + intros H00 _.
      change ((0 :: picks) ++ [z]) with (0 :: (picks ++ [z])).
      rewrite calculateRouteDistance_walk, walk_openWalk, H00.
      by rewrite openWalk_snoc, Hwalk.
  - exists []. split; [done|]. split; [apply NoDup_singleton|].
    split; [by intros k ?%elem_of_nil|]. split; [|done].
    intros k. by rewrite elem_of_singleton, list_elem_of_singleton.
  - split; [done|]. intros H00 Hb. unfold calculateRouteDistance. simpl.
    unfold idx. simpl. by rewrite H00.
  - done.
Qed.

Lemma unvisited_shrinks (visited : gset nat) (z : nat) (l : list nat) :
  length (unvisited l ({[z]} ∪ visited)) ≤ length (unvisited l visited)
  ∧ (z ∈ l → z ∉ visited →
     length (unvisited l ({[z]} ∪ visited)) < length (unvisited l visited)).
Proof.
  induction l as [|x l [IH1 IH2]]; [split; [done|by intros ?%elem_of_nil]|].
  unfold unvisited in *. simpl.
  destruct (decide (x ∈ visited)) as [Hx|Hx].
  - rewrite (bool_decide_eq_true_2 (x ∈ visited)) by done.
    rewrite (bool_decide_eq_true_2 (x ∈ {[z]} ∪ visited)) by set_solver.
    simpl. split; [done|]. intros Hin Hnz.
    apply elem_of_cons in Hin as [E|Hz]; [by subst|auto].
  - rewrite (bool_decide_eq_false_2 (x ∈ visited)) by done. simpl.
    destruct (decide (x = z)) as [->|Hne].
    + rewrite (bool_decide_eq_true_2 (z ∈ {[z]} ∪ visited)) by set_solver.
      simpl. split; [lia|]. intros; lia.
    + rewrite (bool_decide_eq_false_2 (x ∈ {[z]} ∪ visited))
        by (rewrite elem_of_union, elem_of_singleton; intros [?|?]; done).
      simpl. split; [lia|].
      intros Hin Hnz. apply elem_of_cons in Hin as [E|Hz]; [congruence|].
      specialize (IH2 Hz Hnz). lia.
Qed.

(** More fuel than unvisited zones: the loop ends through its [break], and
    any larger amount of fuel gives the same route. *)
Lemma nnLoop_fuel (fuel1 fuel2 : nat) (route : list nat) (visited : gset nat)
    (current : nat) (currentDistance : jsnum) :
  length (unvisited availableZones visited) < fuel1 →
  length (unvisited availableZones visited) < fuel2 →
  nnLoop M zs drone fuel1 availableZones route visited current currentDistance
  = nnLoop M zs drone fuel2 availableZones route visited current
           currentDistance.
Proof.
  revert fuel2 route visited current currentDistance.
  induction fuel1 as [|fuel1 IH];
    intros [|fuel2] route visited current cd H1 H2; try lia.
  simpl. destruct (scan _ _ _ _ _ _ _ _).1 as [z|] eqn:Hscan; [|done].
  apply scan_Some in Hscan as (Hz & Hvis & _).
  destruct (unvisited_shrinks visited z availableZones) as [_ Hlt].
  specialize (Hlt Hz Hvis). apply IH; lia.
Qed.

Lemma nearestNeighborTSP_breaks (fuel : nat) :
  length availableZones < fuel →
  nnLoop M zs drone fuel availableZones [0] {[0]} 0 zero
  = nearestNeighborTSP M zs drone availableZones.
Proof.
  intros Hfuel. unfold nearestNeighborTSP.
  assert (length (unvisited availableZones {[0]}) ≤ length availableZones).
  { unfold unvisited. apply List.filter_length_le. }
  apply nnLoop_fuel; lia.
Qed.

End ConstructionFacts.

(** ** Loads, flags and the per-drone step *)

Lemma filter_Permutation {A : Type} (f : A → bool) (l l' : list A) :
  l ≡ₚ l' → List.filter f l ≡ₚ List.filter f l'.
Proof.
  induction 1 as [|x l l' _ IH|x y l|l l' l'' _ IH1 _ IH2]; simpl.
  - done.
  - destruct (f x); [by constructor|done].
  - destruct (f x), (f y); try done. constructor.
  - by etrans.
Qed.

Lemma unserve_zoneAt (zs zs' : list Zone) (k : nat) :
  unserve zs' = unserve zs →
  set_served false (zoneAt zs' k) = set_served false (zoneAt zs k).
Proof.
  intros E. apply (f_equal (λ l, l !! k)) in E. unfold unserve in E.
  rewrite !list_lookup_fmap in E. unfold zoneAt.
  destruct (zs' !! k), (zs !! k); simpl in *; congruence.
Qed.

Lemma unserve_demand (zs zs' : list Zone) (k : nat) :
  unserve zs' = unserve zs → demand (zoneAt zs' k) = demand (zoneAt zs k).
Proof. intros E. apply (f_equal demand (unserve_zoneAt zs zs' k E)). Qed.

Lemma unserve_zid (zs zs' : list Zone) (k : nat) :
  unserve zs' = unserve zs → zid (zoneAt zs' k) = zid (zoneAt zs k).
Proof. intros E. apply (f_equal zid (unserve_zoneAt zs zs' k E)). Qed.

Lemma unserve_length (zs zs' : list Zone) :
  unserve zs' = unserve zs → length zs' = length zs.
Proof.
  intros E. apply (f_equal length) in E. unfold unserve in E.
  by rewrite !length_map in E.
Qed.

Lemma unserve_alter (zs : list Zone) (k : nat) :
  unserve (alter (set_served true) k zs) = unserve zs.
Proof.
  unfold unserve. revert k.
  induction zs as [|z zs IH]; intros [|k]; simpl; try done.
  f_equal. apply IH.
Qed.

Lemma currentLoad_unserve (zs zs' : list Zone) (r : list nat) :
  unserve zs' = unserve zs → currentLoad zs' r = currentLoad zs r.
Proof.
  intros E. unfold currentLoad.
  generalize (List.filter (λ i, negb (i =? 0)) r) zero.
  induction l as [|k l IH]; intros a; [done|]. simpl.
  by rewrite IH, (unserve_demand zs zs' k E).
Qed.

Lemma isAssigned_insert (a : list bool) (k j : nat) :
  isAssigned (<[k := true]> a) j = true
  ↔ (j = k ∧ k < length a) ∨ isAssigned a j = true.
Proof.
  unfold isAssigned. destruct (decide (j = k)) as [->|Hne].
  - destruct (decide (k < length a)) as [Hlt|Hge].
    + rewrite list_lookup_insert_eq by done. simpl.
      split; [by left|done].
    + rewrite list_insert_ge by lia.
      split; [by right|intros [[_ ?]|?]; [lia|done]].
  - rewrite list_lookup_insert_ne by done.
    split; [by right|intros [[? _]|?]; done].
Qed.

Lemma availableZonesOf_spec (zs : list Zone) (a : list bool) (d : Drone)
    (k : nat) :
  k ∈ availableZonesOf zs a d →
  1 ≤ k < length zs ∧ isAssigned a k = false.
Proof.
  unfold availableZonesOf. rewrite list_elem_of_In, filter_In, in_seq.
  intros [Hk [Ha _]%andb_true_iff]. apply negb_true_iff in Ha.
  split; [lia|done].
Qed.

Lemma markStep_fold (r : list nat) (zs : list Zone) (a : list bool)
    (t : jsnum) (zs' : list Zone) (a' : list bool) (t' : jsnum) :
  fold_left markStep r (zs, a, t) = (zs', a', t') →
  unserve zs' = unserve zs
  ∧ length a' = length a
  ∧ (∀ k, isAssigned a k = true → isAssigned a' k = true)
  ∧ (∀ k, k ∈ r → k ≠ 0 → k < length a → isAssigned a' k = true).
Proof.
  revert zs a t. induction r as [|x r IH]; intros zs a t; simpl.
  { intros [= <- <- <-]. repeat split; try done. by intros k ?%elem_of_nil. }
  destruct (negb (x =? 0) && negb (isAssigned a x)) eqn:Hc.
  - intros (Hu & Hl & Hmono & Hin)%IH.
    rewrite unserve_alter in Hu. rewrite length_insert in Hl.
    split; [done|]. split; [done|]. split.
    + intros k Hk. apply Hmono, isAssigned_insert. by right.
    + intros k [->|Hk]%elem_of_cons Hk0 Hlt.
      * apply Hmono, isAssigned_insert. by left.
      * apply Hin; [done..|]. by rewrite length_insert.
  - intros (Hu & Hl & Hmono & Hin)%IH.
    split; [done|]. split; [done|]. split; [done|].
    intros k [->|Hk]%elem_of_cons Hk0 Hlt; [|by apply Hin].
    apply Hmono. apply andb_false_iff in Hc as [Hc|Hc].
    + apply negb_false_iff, Nat.eqb_eq in Hc. done.
    + by apply negb_false_iff in Hc.
Qed.

(** A drone to which no zone is available is left as it is. *)
Lemma assignDrone_skips (M : list (list jsnum)) (zs : list Zone)
    (a : list bool) (d : Drone) :
  availableZonesOf zs a d = [] → assignDrone M zs a d = (d, zs, a).
Proof. intros E. unfold assignDrone. by rewrite E. Qed.

Lemma assignDrone_spec (M : list (list jsnum)) (zs : list Zone)
    (a : list bool) (d d' : Drone) (zs' : list Zone) (a' : list bool) :
  length a = length zs → fresh d →
  assignDrone M zs a d = (d', zs', a') →
  unserve zs' = unserve zs
  ∧ length a' = length a
  ∧ (∀ k, isAssigned a k = true → isAssigned a' k = true)
  ∧ (∀ k, k ∈ route d' → k ≠ 0 → isAssigned a' k = true)
  ∧ sameLimits d d'
  ∧ routeOK M zs a d'.
Proof.
  intros Hlen Hfresh. unfold assignDrone.
  destruct (length (availableZonesOf zs a d) =? 0) eqn:Hempty.
  { intros [= <- <- <-]. unfold routeOK, loadWithin. rewrite Hfresh.
    split; [done|]. split; [done|]. split; [done|].
    split; [by intros k ?%elem_of_nil|]. split; [done|].
    split; [apply NoDup_nil_2|]. split; [done|]. split; [|done].
    intros Hp. by exists []. }
  apply Nat.eqb_neq in Hempty.
  set (avail := availableZonesOf zs a d) in *.
  set (r0 := nearestNeighborTSP M zs d avail).
  set (r := if 1 <? length r0
            then twoOptOptimize M (batteryCapacity d) r0 else r0).
  destruct (fold_left markStep r (zs, a, zero)) as [[zs1 a1] t1] eqn:Hmark.
  intros [= <- <- <-].
  apply markStep_fold in Hmark as (Hu & Hl & Hmono & Hin).
  assert (Forall (λ k, k ≠ 0) avail) as Hnz.
  { apply Forall_forall. intros k Hk%availableZonesOf_spec. lia. }
  destruct (nearestNeighborTSP_spec M zs d avail Hnz)
    as ((picks & Hr0 & Hnd & Hsub) & Hload & Hrange).
  fold r0 in Hr0, Hnd, Hload, Hrange.
  assert (r ≡ₚ r0 ∧ (r = r0 ∨ le (calculateRouteDistance M r)
                                  (batteryCapacity d) = true))
    as [Hperm Hfeas].
  { unfold r. destruct (1 <? length r0); [|by split; [|left]].
    apply twoOptOptimize_feasible. }
  assert (0 < length zs) as Hpos.
  { destruct avail as [|k0 ?] eqn:E; [done|].
    assert (k0 ∈ avail) as Hk0 by (rewrite E; left).
    apply availableZonesOf_spec in Hk0. lia. }
  assert (Forall (λ k, k < length zs ∧ (k ≠ 0 → isAssigned a k = false)) r)
    as Hall.
  { apply Forall_forall. intros k Hk. rewrite Hperm, Hr0 in Hk.
    apply elem_of_cons in Hk as [->|Hk]; [split; [done|]; by intros []|].
    apply Hsub, availableZonesOf_spec in Hk as [Hk Hfree].
    split; [lia|]. by intros _. }
  split; [done|]. split; [done|]. split; [done|]. split.
  { simpl. intros k Hk Hk0. apply Hin; [done..|].
    rewrite Hlen. by apply (proj1 (Forall_forall _ _) Hall). }
  split; [done|]. unfold routeOK. simpl.
  split; [by rewrite Hperm|]. split; [done|]. split.
  - intros Hp. exists r0. auto.
  - intros H00 Hb. destruct Hfeas as [->|Hle]; auto.
Qed.

Lemma routeOK_weaken (M : list (list jsnum)) (zs zs' : list Zone)
    (a a' : list bool) (d : Drone) :
  unserve zs' = unserve zs →
  (∀ k, isAssigned a k = true → isAssigned a' k = true) →
  routeOK M zs' a' d → routeOK M zs a d.
Proof.
  intros Hu Hmono (Hnd & Hall & Hload & Hrange).
  split; [done|]. split; [|split; [|done]].
  - eapply Forall_impl; [exact Hall|]. intros k [Hk Ha]. simpl.
    rewrite <- (unserve_length zs zs' Hu). split; [done|].
    intros Hk0. specialize (Ha Hk0).
    destruct (isAssigned a k) eqn:E; [|done]. apply Hmono in E. congruence.
  - intros Hp. destruct (Hload Hp) as (selected & Hperm & Hle).
    exists selected. split; [done|].
    by rewrite <- (currentLoad_unserve zs zs').
Qed.

(** The state of the fleet after the loop over the drones. *)
Lemma assignAll_spec (M : list (list jsnum)) (ds : list Drone) :
  ∀ (zs : list Zone) (a : list bool) (ds' : list Drone) (zs' : list Zone),
  length a = length zs → Forall fresh ds →
  assignAll M zs a ds = (ds', zs') →
  unserve zs' = unserve zs
  ∧ Forall2 sameLimits ds ds'
  ∧ Forall (routeOK M zs a) ds'
  ∧ (∀ i j di dj k, i < j → ds' !! i = Some di → ds' !! j = Some dj →
       k ∈ route di → k ∈ route dj → k = 0).
Proof.
  induction ds as [|d ds IH]; intros zs a ds' zs' Hlen Hfresh; simpl.
  { intros [= <- <-]. split; [done|]. split; [constructor|].
    split; [constructor|]. intros i j di dj k _ Hi.
    by rewrite lookup_nil in Hi. }
  destruct (assignDrone M zs a d) as [[d1 zs1] a1] eqn:Hd.
  destruct (assignAll M zs1 a1 ds) as [ds1 zs2] eqn:Hds.
  intros [= <- <-].
  apply Forall_cons in Hfresh as [Hfd Hfds].
  apply assignDrone_spec in Hd as (Hu1 & Hl1 & Hmono & Hin & Hsame & Hok);
    [|done..].
  assert (length a1 = length zs1) as Hlen1
    by (by rewrite Hl1, Hlen, (unserve_length zs zs1)).
  apply IH in Hds as (Hu2 & Hsames & Hoks & Hdisj); [|done..].
  split; [by rewrite Hu2|]. split; [by constructor|]. split.
  - constructor; [done|]. eapply Forall_impl; [exact Hoks|].
    intros d'. by apply routeOK_weaken.
  - intros [|i] [|j] di dj k Hij; simpl; try lia.
    + intros [= <-] Hdj Hki Hkj.
      destruct (decide (k = 0)) as [|Hk0]; [done|].
      apply list_elem_of_lookup_2 in Hdj.
      apply (proj1 (Forall_forall _ _) Hoks) in Hdj as (_ & Hall & _).
      apply (proj1 (Forall_forall _ _) Hall) in Hkj as [_ Hfree].
      specialize (Hfree Hk0). rewrite (Hin k Hki Hk0) in Hfree. done.
    + apply Hdisj. lia.
Qed.

(** ** The whole run *)

Lemma insertZone_Permutation (x : Zone) (l : list Zone) :
  insertZone x l ≡ₚ x :: l.
Proof.
  induction l as [|y l IH]; [done|]. cbn [insertZone].
  destruct (lt zero (compareZones x y)); [|reflexivity].
  rewrite IH. apply perm_swap.
Qed.

Lemma sortZones_Permutation (l : list Zone) : sortZones l ≡ₚ l.
Proof.
  induction l as [|x l IH]; [done|].
  change (insertZone x (sortZones l) ≡ₚ x :: l).
  by rewrite insertZone_Permutation, IH.
Qed.

Lemma sortZonesByPriority_Permutation (zs : list Zone) :
  sortZonesByPriority zs ≡ₚ zs.
Proof. destruct zs; [done|]. simpl. by rewrite sortZones_Permutation. Qed.

Lemma sortZonesByPriority_head (zs : list Zone) :
  sortZonesByPriority zs !! 0 = zs !! 0.
Proof. by destruct zs. Qed.

Lemma unserve_idemp (zs : list Zone) : unserve (unserve zs) = unserve zs.
Proof. unfold unserve. rewrite map_map. by apply map_ext. Qed.

Lemma zid_unserve (zs : list Zone) : zid <$> unserve zs = zid <$> zs.
Proof. unfold unserve. induction zs; simpl; [done|]. by f_equal. Qed.

Section RunFacts.
Context `{MathLib}.

(** Everything the run establishes, for a fleet of fresh drones. *)
Lemma optimize_spec (t0 t1 : jsnum) (s s' : Optimizer) (res : Results) :
  Forall fresh (drones s) →
  optimize t0 t1 s = inr (s', res) →
  let M := distanceMatrix s' in
  let a0 := <[0 := true]> (replicate (length (zones s')) false) in
  M = buildDistanceMatrix (zones s)
  ∧ dm M 0 0 = zero
  ∧ length M = length (zones s')
  ∧ unserve (zones s') = unserve (sortZonesByPriority (zones s))
  ∧ Forall2 sameLimits (drones s) (drones s')
  ∧ Forall (routeOK M (zones s') a0) (drones s')
  ∧ (∀ i j di dj k, i < j →
       drones s' !! i = Some di → drones s' !! j = Some dj →
       k ∈ route di → k ∈ route dj → k = 0)
  ∧ res = getResults s'.
Proof.
  intros Hfresh. unfold optimize.
  destruct (sortZonesByPriority (zones s)) as [|z l] eqn:Hsort; [done|].
  set (zs0 := alter (set_served true) 0 (map (set_served false) (z :: l))).
  destruct (assignAll _ zs0 _ (drones s)) as [ds' zs'] eqn:Hall.
  intros [= <- <-]. cbn [distanceMatrix zones drones].
  assert (unserve zs0 = unserve (z :: l)) as Hu0.
  { unfold zs0. rewrite unserve_alter. apply unserve_idemp. }
  apply assignAll_spec in Hall as (Hu & Hsame & Hok & Hdisj); [|..|done].
  2:{ by rewrite length_insert, length_replicate. }
  assert (length zs' = length zs0) as Hlen by (by apply unserve_length).
  assert (length (zones s) = length zs0) as Hlen0.
  { rewrite <- (Permutation_length (sortZonesByPriority_Permutation _)), Hsort.
    symmetry. by apply unserve_length. }
  split; [done|]. split.
  { apply dm_buildDistanceMatrix_diag. rewrite Hlen0. unfold zs0.
    simpl. lia. }
  split; [by rewrite buildDistanceMatrix_length, Hlen0|].
  split; [by rewrite Hu|]. split; [done|]. split; [|done].
  rewrite Hlen. eapply Forall_impl; [exact Hok|].
  intros d'. by apply routeOK_weaken.
Qed.

Lemma sameLimits_transfer (P : Drone → Prop) (ds ds' : list Drone) :
  (∀ d d', sameLimits d d' → P d → P d') →
  Forall2 sameLimits ds ds' → Forall P ds → Forall P ds'.
Proof.
  intros HP. induction 1 as [|d d' ds ds' Hs _ IH]; [done|].
  intros [Hd Hds]%Forall_cons. constructor; eauto.
Qed.

(** The positions a route holds exist in the zone array and in the
    matrix. *)
Lemma optimize_routes_in_range (t0 t1 : jsnum) (s s' : Optimizer)
    (res : Results) :
  Forall fresh (drones s) →
  optimize t0 t1 s = inr (s', res) →
  Forall (λ d, Forall (λ k, k < length (zones s')
                            ∧ k < length (distanceMatrix s')) (route d))
         (drones s').
Proof.
  intros Hfresh Hrun.
  destruct (optimize_spec t0 t1 s s' res Hfresh Hrun)
    as (_ & _ & HlenM & _ & _ & Hok & _).
  eapply Forall_impl; [exact Hok|]. intros d (_ & Hall & _).
  eapply Forall_impl; [exact Hall|]. intros k [Hk _]. simpl.
  rewrite HlenM. done.
Qed.

End RunFacts.



Lemma zid_zoneAt (zs : list Zone) (k : nat) :
  k < length zs → (zid <$> zs) !! k = Some (zid (zoneAt zs k)).
Proof.
  intros Hk. destruct (lookup_lt_is_Some_2 zs k Hk) as [z Hz].
  unfold zoneAt. by rewrite list_lookup_fmap, Hz.
Qed.

(** C3 (as the code has it).  After a successful [optimize] on
    well-formed zones and a fleet of fresh drones: no position and no
    request id occurs twice in a route;
    a request id that occurs in the routes of two different drones is the
    base's id 0, and a position that does is the base's position 0.  So a
    request that one drone's route has taken is in no later route. *)
Theorem optimize_exclusive `{MathLib} (t0 t1 : jsnum) (s s' : Optimizer)
    (res : Results) :
  Forall fresh (drones s) →
  wellFormed s →
  optimize t0 t1 s = inr (s', res) →
  (∀ i di, drones s' !! i = Some di →
     NoDup (route di) ∧ NoDup (routeIds (zones s') (route di)))
  ∧ (∀ i j di dj id, i ≠ j →
       drones s' !! i = Some di → drones s' !! j = Some dj →
       id ∈ routeIds (zones s') (route di) →
       id ∈ routeIds (zones s') (route dj) → id = 0)
  ∧ (∀ i j di dj k, i ≠ j →
       drones s' !! i = Some di → drones s' !! j = Some dj →
       k ∈ route di → k ∈ route dj → k = 0).
Proof.
  intros Hfresh [Hhead Hids] Hrun.
  destruct (optimize_spec t0 t1 s s' res Hfresh Hrun)
    as (_ & _ & _ & Hu & _ & Hok & Hdisj & _).
  assert (zid <$> zones s' = zid <$> sortZonesByPriority (zones s)) as Hzid
    by (by rewrite <- (zid_unserve (zones s')), Hu, zid_unserve).
  assert (NoDup (zid <$> zones s')) as Hnd.
  { rewrite Hzid. by rewrite sortZonesByPriority_Permutation. }
  assert ((zid <$> zones s') !! 0 = Some 0) as Hbase.
  { rewrite Hzid, list_lookup_fmap, sortZonesByPriority_head.
    by rewrite <- list_lookup_fmap. }
  assert (∀ i di k, drones s' !! i = Some di → k ∈ route di →
            k < length (zones s')) as Hrange.
  { intros i di k Hdi Hk. apply list_elem_of_lookup_2 in Hdi.
    apply (proj1 (Forall_forall _ _) Hok) in Hdi as (_ & Hall & _).
    by apply (proj1 (Forall_forall _ _) Hall) in Hk as [Hk _]. }
  assert (∀ k1 k2, k1 < length (zones s') → k2 < length (zones s') →
            zid (zoneAt (zones s') k1) = zid (zoneAt (zones s') k2) →
            k1 = k2) as Hinj.
  { intros k1 k2 H1 H2 E. apply zid_zoneAt in H1, H2. rewrite E in H1.
    by apply (NoDup_lookup _ _ _ _ Hnd H1 H2). }
  assert (∀ i j di dj k, i ≠ j →
            drones s' !! i = Some di → drones s' !! j = Some dj →
            k ∈ route di → k ∈ route dj → k = 0) as Hpos.
  { intros i j di dj k Hij Hdi Hdj Hki Hkj.
    destruct (decide (i < j)).
    - by apply (Hdisj i j di dj k).
    - apply (Hdisj j i dj di k); [lia|done..]. }
  split; [|split; [|done]].
  - intros i di Hdi.
    assert (NoDup (route di)) as Hndr.
    { apply list_elem_of_lookup_2 in Hdi.
      by apply (proj1 (Forall_forall _ _) Hok) in Hdi as (? & _). }
    split; [done|]. unfold routeIds.
    apply NoDup_fmap_2_strong; [|done].
    intros k1 k2 Hk1 Hk2. apply Hinj; by apply (Hrange i di).
  - intros i j di dj id Hij Hdi Hdj.
    unfold routeIds. rewrite !list_elem_of_fmap.
    intros (k1 & -> & Hk1) (k2 & E & Hk2).
    assert (k1 = k2) as <-
      by (apply Hinj; [by apply (Hrange i di)|by apply (Hrange j dj)|done]).
    rewrite (Hpos i j di dj k1) by done.
    assert (0 < length (zones s')) as H0
      by (apply lookup_lt_Some in Hbase; by rewrite length_fmap in Hbase).
    apply zid_zoneAt in H0. rewrite Hbase in H0. congruence.
Qed.

(** ** The ids of zones built through [setBase] and [addZone] *)

Lemma filter_nonBase_ids (zs : list Zone) :
  zid <$> List.filter nonBase zs
  = List.filter (λ i, negb (i =? 0)) (zid <$> zs).
Proof.
  induction zs as [|z zs IH]; [done|]. simpl. unfold nonBase.
  destruct (zid z =? 0); simpl; [exact IH|f_equal; exact IH].
Qed.

Lemma filter_positive_seq (m : nat) :
  List.filter (λ i, negb (i =? 0)) (seq 0 (S m)) = seq 1 m.
Proof.
  assert (∀ k, 0 < k → List.filter (λ i, negb (i =? 0)) (seq k m) = seq k m)
    as Hall.
  { induction m as [|m IH]; intros k Hk; [done|]. simpl.
    destruct k; [lia|]. simpl. f_equal. apply IH. lia. }
  simpl. apply Hall. lia.
Qed.

Lemma canonical_nonBase (zs : list Zone) :
  canonical zs →
  zid <$> List.filter nonBase zs ≡ₚ seq 1 (length zs - 1)
  ∧ 0 < length zs.
Proof.
  intros [Hperm Hhead].
  assert (0 < length zs) as Hpos.
  { apply lookup_lt_Some in Hhead. by rewrite length_fmap in Hhead. }
  split; [|done]. rewrite filter_nonBase_ids.
  rewrite (filter_Permutation _ _ _ Hperm).
  destruct (length zs) as [|m]; [lia|].
  rewrite filter_positive_seq. by replace (S m - 1) with m by lia.
Qed.

Lemma canonical_wellFormed (s : Optimizer) : canonical (zones s) → wellFormed s.
Proof.
  intros [Hperm Hhead]. split; [done|]. rewrite Hperm. apply NoDup_seq.
Qed.

Lemma canonical_setBase (la ln : jsnum) (s : Optimizer) :
  zones s = [] ∨ canonical (zones s) → canonical (zones (setBase la ln s)).
Proof.
  intros [Hnil|Hcan].
  { unfold setBase. rewrite Hnil. by split. }
  destruct (canonical_nonBase _ Hcan) as [Hrest Hpos].
  split; [|done]. simpl. rewrite Hrest.
  assert (length (List.filter nonBase (zones s)) = length (zones s) - 1) as ->.
  { rewrite <- (length_fmap zid), Hrest. apply length_seq. }
  destruct (length (zones s)) as [|m]; [lia|].
  by replace (S m - 1) with m by lia.
Qed.

Lemma canonical_addZone (zone : Zone) (s : Optimizer) :
  canonical (zones s) → canonical (zones (addZone zone s)).
Proof.
  intros Hcan. destruct (canonical_nonBase _ Hcan) as [Hrest Hpos].
  destruct Hcan as [Hperm Hhead].
  assert (length (List.filter nonBase (zones s)) = length (zones s) - 1) as El.
  { rewrite <- (length_fmap zid), Hrest. apply length_seq. }
  unfold addZone. simpl. rewrite El. split.
  - rewrite fmap_app, length_app. simpl.
    replace (length (zones s) - 1 + 1) with (length (zones s)) by lia.
    rewrite seq_app. simpl. by rewrite Hperm.
  - rewrite fmap_app, lookup_app_l; [done|]. by rewrite length_fmap.
Qed.

(** A successful run keeps the zones canonical. *)
Lemma canonical_optimize `{MathLib} (t0 t1 : jsnum) (s s' : Optimizer)
    (res : Results) :
  Forall fresh (drones s) → canonical (zones s) →
  optimize t0 t1 s = inr (s', res) → canonical (zones s').
Proof.
  intros Hfresh [Hperm Hhead] Hrun.
  destruct (optimize_spec t0 t1 s s' res Hfresh Hrun)
    as (_ & _ & _ & Hu & _).
  assert (zid <$> zones s' = zid <$> sortZonesByPriority (zones s)) as Hzid
    by (by rewrite <- (zid_unserve (zones s')), Hu, zid_unserve).
  assert (length (zones s') = length (zones s)) as Hlen.
  { rewrite (unserve_length _ _ Hu).
    apply Permutation_length, sortZonesByPriority_Permutation. }
  split.
  - by rewrite Hzid, Hlen, sortZonesByPriority_Permutation.
  - rewrite Hzid, list_lookup_fmap, sortZonesByPriority_head.
    by rewrite <- list_lookup_fmap.
Qed.

(** ** The clock *)

(** The two clock readings reach nothing but [executionTime]. *)
Lemma optimize_clock `{MathLib} (t0 t1 t0' t1' : jsnum) (s : Optimizer) :
  match optimize t0 t1 s, optimize t0' t1' s with
  | inr (s1, r1), inr (s2, r2) =>
      zones s1 = zones s2 ∧ drones s1 = drones s2
      ∧ distanceMatrix s1 = distanceMatrix s2
      ∧ res_drones r1 = res_drones r2
      ∧ sum_totalDistance (summary r1) = sum_totalDistance (summary r2)
      ∧ zonesServed (summary r1) = zonesServed (summary r2)
      ∧ avgBatteryUsage (summary r1) = avgBatteryUsage (summary r2)
  | inl e1, inl e2 => e1 = e2
  | _, _ => False
  end.
Proof.
  unfold optimize.
  destruct (sortZonesByPriority (zones s)) as [|z l]; [done|].
  by destruct (assignAll _ _ _ _) as [ds zs'].
Qed.

(** ** The statements at concrete inputs *)

(** The two distances of the scenarios, as the result object prints
    them. *)
Example scenario_distances :
  toFixed (calculateDistance (H := RefMath.lib) zero zero zero zero) 2
    = "0.00"%string
  ∧ toFixed (calculateDistance (H := RefMath.lib) zero zero zero (ofZ 180)) 2
    = "20015.09"%string.
Proof. by vm_compute. Qed.

Lemma RefMath_sin_odd (x : jsnum) : RefMath.sin (neg x) = neg (RefMath.sin x).
Proof.
  destruct x as [q| | |]; try reflexivity.
  unfold RefMath.sin, RefMath.same.
  assert (∀ a b : Qc, Qc_eqb (- a) b = Qc_eqb a (- b)) as Hopp.
  { intros a b. apply eq_true_iff_eq. rewrite !Qc_eqb_eq. split.
    - intros <-. by rewrite Qcopp_involutive.
    - intros ->. by rewrite Qcopp_involutive. }
  destruct (eqb (Num q) zero) eqn:E0.
  { apply Qc_eqb_eq in E0. by rewrite E0. }
  destruct (eqb (Num q) RefMath.halfPI) eqn:E1.
  { apply Qc_eqb_eq in E1. by rewrite E1. }
  destruct (eqb (Num q) (neg RefMath.halfPI)) eqn:E2.
  { apply Qc_eqb_eq in E2. by rewrite E2. }
  simpl neg. simpl eqb in *.
  rewrite !Hopp, Qcopp_involutive, E1, E2.
  change (- Q2Qc (inject_Z 0))%Qc with (Q2Qc (inject_Z 0)).
  by rewrite E0.
Qed.

Lemma buildDistanceMatrix_square_symmetric_witness :
  let zs := zones Scenario.fleet in
  let M := buildDistanceMatrix (H := RefMath.lib) zs in
  length M = length zs
  ∧ Forall (λ row, length row = length zs) M
  ∧ (∀ i j, i < length zs → j < length zs →
       dm M i j = dm M j i
       ∧ (dm M i j ≠ NaN → eqb (dm M i j) (dm M j i) = true))
  ∧ (∀ i, i < length zs → dm M i i = zero ∧ eqb (dm M i i) zero = true).
Proof.
  exact (buildDistanceMatrix_square_symmetric (H := RefMath.lib)
           (zones Scenario.fleet) RefMath_sin_odd).
Defined.

(** C7, refuted as stated.  Five places whose distances are whole tenths,
    in doubles.  On the route 0, 1, 2, 3, 4 the search compares the legs
    0.2 + 0.6 with the legs 0.7 + 0.1: the second sum is computed smaller
    (it is smaller by less than 10^-16 as an exact sum of the four
    doubles), so the segment 1, 2, 3 is reversed.  The round trip of the
    route returned is computed as 2.2, the one of the route given as the
    double just below 2.2: the route returned is not at most as long as the
    route given, as the code measures them. *)
Lemma twoOptOptimize_longer_round_trip :
  let M := Binary64.tenthsMatrix in
  let given := [0; 1; 2; 3; 4] in
  let returned := Binary64.twoOptOptimize M (Binary64.ofZ 100) given in
  returned = [0; 3; 2; 1; 4]
  ∧ Binary64.calculateRouteDistance M returned = Binary64.tenths 22
  ∧ Binary64.calculateRouteDistance M given
    = PrimFloat.next_down (Binary64.tenths 22)
  ∧ PrimFloat.leb (Binary64.calculateRouteDistance M returned)
                  (Binary64.calculateRouteDistance M given) = false.
Proof. by vm_compute. Qed.

Lemma forallb_seq (f : nat → bool) (n : nat) :
  forallb f (seq 0 n) = true → ∀ k, k < n → f k = true.
Proof.
  intros Hall k Hk. apply (proj1 (forallb_forall f (seq 0 n)) Hall).
  apply in_seq. lia.
Qed.


(** The load of a route depends, in doubles, on the order of its stops.
    With the demands 2^53, 1, 1 and 0 and a payload capacity of 2^53, the
    stops in the order 1, 2, 3, 4 are within the capacity as the code adds
    them up (each 1 is lost in the rounding), and the same stops in the
    order 3, 2, 1, 4, into which a reversal of [twoOptOptimize] can put
    them, are not. *)
Example currentLoad_order_binary64 :
  let load := Binary64.currentLoad Binary64.largeDemands in
  let capacity := Binary64.ofZ (2 ^ 53) in
  load [0; 1; 2; 3; 4] = Binary64.ofZ (2 ^ 53)
  ∧ PrimFloat.leb (load [0; 1; 2; 3; 4]) capacity = true
  ∧ load [0; 3; 2; 1; 4] = Binary64.ofZ (2 ^ 53 + 2)
  ∧ PrimFloat.leb (load [0; 3; 2; 1; 4]) capacity = false.
Proof. by vm_compute. Qed.

Lemma run_fleet_succeeds :
  ∃ s' res, Scenario.run Scenario.fleet = inr (s', res)
            ∧ s' = Scenario.stateOf (Scenario.run Scenario.fleet).
Proof.
  destruct (Scenario.run Scenario.fleet) as [e|[s' res]] eqn:Hrun.
  - by vm_compute in Hrun.
  - exists s', res. split; reflexivity.
Qed.

(** The run of [mixedFleet]: the first drone is skipped, the second one
    visits all four requests. *)
Lemma mixedFleet_runs :
  ∃ s' res d1 d2,
    optimize (H := RefMath.lib) zero zero Scenario.mixedFleet = inr (s', res)
    ∧ drones s' = [d1; d2]
    ∧ route d1 = [] ∧ payloadCapacity d1 = ofZ (-1)
    ∧ route d2 = [0; 1; 3; 4; 2]
    ∧ payloadCapacity d2 = ofZ 200 ∧ batteryCapacity d2 = ofZ 50000.
Proof.
  pose (r := Scenario.run Scenario.mixedFleet).
  assert (route <$> drones (Scenario.stateOf r) = [[]; [0; 1; 3; 4; 2]]) as Hr
    by (by vm_compute).
  assert (payloadCapacity <$> drones (Scenario.stateOf r)
          = [ofZ (-1); ofZ 200]) as Hp by (by vm_compute).
  assert (batteryCapacity <$> drones (Scenario.stateOf r)
          = [ofZ 1000; ofZ 50000]) as Hb by (by vm_compute).
  unfold r, Scenario.run in Hr, Hp, Hb.
  destruct (optimize (H := RefMath.lib) zero zero Scenario.mixedFleet)
    as [e|[s' res]] eqn:Hrun; [discriminate Hr|].
  simpl in Hr, Hp, Hb.
  destruct (drones s') as [|d1 [|d2 [|d3 ds]]] eqn:Hds;
    [discriminate Hr|discriminate Hr| |discriminate Hr].
  injection Hr as Hr1 Hr2. injection Hp as Hp1 Hp2. injection Hb as _ Hb2.
  exists s', res, d1, d2.
  split; [reflexivity|]. split; [exact Hds|]. split; [exact Hr1|].
  split; [exact Hp1|]. split; [exact Hr2|]. split; [exact Hp2|exact Hb2].
Qed.



Lemma fleet_wellFormed : wellFormed Scenario.fleet.
Proof.
  split; [reflexivity|].
  apply (bool_decide_unpack _). by vm_compute.
Qed.

Lemma optimize_exclusive_witness :
  let s' := Scenario.stateOf (Scenario.run Scenario.fleet) in
  (∀ i di, drones s' !! i = Some di →
     NoDup (route di) ∧ NoDup (routeIds (zones s') (route di)))
  ∧ (∀ i j di dj id, i ≠ j →
       drones s' !! i = Some di → drones s' !! j = Some dj →
       id ∈ routeIds (zones s') (route di) →
       id ∈ routeIds (zones s') (route dj) → id = 0)
  ∧ (∀ i j di dj k, i ≠ j →
       drones s' !! i = Some di → drones s' !! j = Some dj →
       k ∈ route di → k ∈ route dj → k = 0).
Proof.
  destruct run_fleet_succeeds as (s' & res & Hrun & <-).
  apply (optimize_exclusive (H := RefMath.lib) zero zero Scenario.fleet s' res).
  - repeat constructor.
  - exact fleet_wellFormed.
  - exact Hrun.
Defined.

(** The routes of that run: the first drone takes the requests at
    positions 2 and 4 of the sorted zones, the second one the request at
    position 1. *)
Example run_fleet_routes :
  Scenario.routesOf (Scenario.run Scenario.fleet) = [[0; 2; 4]; [0; 1]]
  ∧ zid <$> zones (Scenario.stateOf (Scenario.run Scenario.fleet))
    = [0; 4; 1; 2; 3].
Proof. by vm_compute. Qed.

(** ** Drones kept from an earlier run, and invalid limits *)



(** C3, refuted as stated.  After the second run of [movedBase] the
    request with id 2, at position 2, is in the routes of both drones: the
    first one took it in this run, the second one, skipped, keeps it from
    the first run.  And without a base the request with id 1 holds position
    0 and starts the routes of both drones. *)
Lemma optimize_exclusive_counterexample :
  Scenario.succeeded Scenario.movedBaseAgain = true
  ∧ Scenario.routesOf Scenario.movedBaseAgain = [[0; 2]; [0; 2]]
  ∧ routeIds (zones (Scenario.stateOf Scenario.movedBaseAgain))
      <$> Scenario.routesOf Scenario.movedBaseAgain
    = [[0; 2]; [0; 2]]
  ∧ Scenario.succeeded (Scenario.run Scenario.noBase) = true
  ∧ Scenario.routesOf (Scenario.run Scenario.noBase) = [[0; 1]; [0; 2]]
  ∧ routeIds (zones (Scenario.stateOf (Scenario.run Scenario.noBase)))
      <$> Scenario.routesOf (Scenario.run Scenario.noBase)
    = [[1; 2]; [1; 3]].
Proof. by vm_compute. Qed.

(** ** Repeating a run *)

(** C9, the defect.  The matrix is built from the zones in their order
    before [sortZonesByPriority] and then indexed by their positions after
    it.  On the base, a low-priority request at the base and a critical
    request at the antipode (inserted in this order), with one drone of
    range 1000 km: the first run sends the drone to position 1, the
    critical request 20015 km away, at a recorded distance of 0; the second
    run on the state the first one left (zones now sorted) sends it to
    position 2, the request at the base, also when the fleet is replaced
    by a new drone of the same kind before it. *)
Theorem optimize_twice_differs :
  let first := Scenario.run Scenario.nearAndFar in
  let second := Scenario.run (Scenario.stateOf first) in
  Scenario.succeeded first = true
  ∧ Scenario.succeeded second = true
  ∧ zid <$> zones (Scenario.stateOf first) = [0; 2; 1]
  ∧ zid <$> zones (Scenario.stateOf second) = [0; 2; 1]
  ∧ Scenario.routesOf first = [[0; 1]]
  ∧ Scenario.routesOf second = [[0; 2]]
  ∧ Scenario.routesOf first ≠ Scenario.routesOf second
  ∧ Scenario.routesOf
      (Scenario.run
         (Scenario.replaceFleet [newDrone 1 (ofZ 1000) (ofZ 100)]
            (Scenario.stateOf first))) = [[0; 2]]
  ∧ (λ d, toFixed (totalDistance d) 2) <$> drones (Scenario.stateOf first)
    = ["0.00"%string].
Proof. by vm_compute. Qed.

(** * Further properties of the code *)

(** ** Insertion: how [setBase] and [addZone] compose *)

Lemma filter_nonBase_idemp (l : list Zone) :
  List.filter nonBase (List.filter nonBase l) = List.filter nonBase l.
Proof.
  induction l as [|z l IH]; [done|]. simpl.
  destruct (nonBase z) eqn:E; simpl; rewrite ?E, IH; done.
Qed.

(** X1.  Setting the base again replaces the base: the state after two
    calls of [setBase] is the state after the second one alone. *)
Theorem setBase_overrides (la ln la' ln' : jsnum) (s : Optimizer) :
  setBase la ln (setBase la' ln' s) = setBase la ln s.
Proof.
  unfold setBase. simpl. by rewrite filter_nonBase_idemp.
Qed.

(** X2.  [setBase] and [addZone] commute: the request gets the same id
    and the zones end in the same order whether the base is set before or
    after the request is added. *)
Theorem setBase_addZone_commute (la ln : jsnum) (zone : Zone) (s : Optimizer) :
  setBase la ln (addZone zone s) = addZone zone (setBase la ln s).
Proof.
  unfold setBase, addZone. simpl.
  rewrite List.filter_app, filter_nonBase_idemp. simpl.
  unfold nonBase at 2. simpl.
  replace (length (List.filter nonBase (zones s)) + 1 =? 0) with false
    by (symmetry; apply Nat.eqb_neq; lia).
  done.
Qed.

Lemma addZone_ids_step (zone : Zone) (s : Optimizer) :
  zones s ≠ [] → zid <$> zones s = seq 0 (length (zones s)) →
  zid <$> zones (addZone zone s) = seq 0 (length (zones s) + 1)
  ∧ zones (addZone zone s)
    = zones s ++ [set_id (length (zones s)) zone].
Proof.
  intros Hne Hids.
  assert (length (List.filter nonBase (zones s)) + 1 = length (zones s)) as E.
  { rewrite <- (length_fmap zid), filter_nonBase_ids, Hids.
    destruct (length (zones s)) as [|m] eqn:El.
    - by destruct (zones s).
    - rewrite filter_positive_seq, length_seq. lia. }
  unfold addZone. simpl. rewrite E. split; [|done].
  rewrite fmap_app, seq_app, Hids. done.
Qed.

(** On zones whose ids are 0, 1, ..., n-1 in this order, [addZone] on
    zones held by value appends the zones given, in the order given and
    each with the next id. *)
Lemma addZone_values_sequential (s : Optimizer) (new : list Zone) :
  zones s ≠ [] → zid <$> zones s = seq 0 (length (zones s)) →
  let s' := fold_left (λ s z, addZone z s) new s in
  zid <$> zones s' = seq 0 (length (zones s) + length new)
  ∧ zones s'
    = zones s ++ imap (λ i z, set_id (length (zones s) + i) z) new
  ∧ drones s' = drones s.
Proof.
  revert s. induction new as [|z new IH]; intros s Hne Hids; simpl.
  { rewrite Nat.add_0_r, app_nil_r. done. }
  destruct (addZone_ids_step z s Hne Hids) as [Hids' Hzs].
  assert (length (zones (addZone z s)) = length (zones s) + 1) as Hlen
    by (rewrite Hzs, length_app; done).
  destruct (IH (addZone z s)) as (H1 & H2 & H3).
  { rewrite Hzs. by destruct (zones s). }
  { by rewrite Hlen. }
  rewrite Hlen in H1, H2.
  split; [rewrite H1; f_equal; lia|]. split; [|done].
  rewrite H2, Hzs, <- app_assoc. simpl. rewrite Nat.add_0_r.
  do 2 f_equal. apply imap_ext. intros i x _. simpl. f_equal. lia.
Qed.

(** [addZone] on an object that the array does not hold yet: the array as
    a reader sees it changes as the by-value [addZone] says, and no other
    object is written to. *)
Lemma Store_addZone_fresh (st : Store.State) (a : nat) (s : Optimizer) :
  a ∉ Store.zones st → zones s = Store.contents st →
  Store.contents (Store.addZone a st)
  = zones (addZone (Store.objects st a) s)
  ∧ Store.zones (Store.addZone a st) = Store.zones st ++ [a]
  ∧ ∀ b, b ≠ a →
      Store.objects (Store.addZone a st) b = Store.objects st b.
Proof.
  intros Ha Hs. split; [|split; [done|]].
  - unfold Store.contents, Store.addZone, addZone. cbn [Store.objects Store.zones zones].
    rewrite fmap_app, Hs. unfold Store.contents. f_equal.
    + apply list_fmap_ext. intros i b Hb. unfold Store.write_id.
      destruct (b =? a) eqn:E; [|done].
      apply Nat.eqb_eq in E. subst b.
      destruct Ha. by apply list_elem_of_lookup_2 in Hb.
    + simpl. unfold Store.write_id. rewrite Nat.eqb_refl. do 3 f_equal.
      induction (Store.zones st) as [|b l IH]; [done|]. simpl.
      apply not_elem_of_cons in Ha as [_ Ha].
      destruct (nonBase (Store.objects st b)); simpl; by rewrite IH.
  - intros b Hb. unfold Store.addZone, Store.write_id. simpl.
    by rewrite (proj2 (Nat.eqb_neq b a) Hb).
Qed.

Lemma Store_addZone_fold (new : list nat) :
  ∀ (st : Store.State) (s : Optimizer),
    NoDup new → (∀ a, a ∈ new → a ∉ Store.zones st) →
    zones s = Store.contents st →
    let st' := fold_left (λ st a, Store.addZone a st) new st in
    Store.contents st'
    = zones (fold_left (λ s z, addZone z s) (Store.objects st <$> new) s)
    ∧ Store.zones st' = Store.zones st ++ new.
Proof.
  induction new as [|a new IH]; intros st s Hnd Hnew Hs; simpl.
  { by rewrite app_nil_r. }
  apply NoDup_cons in Hnd as [Ha Hnd].
  destruct (Store_addZone_fresh st a s) as (Hc & Hz & Hobj);
    [apply Hnew; left|done|].
  destruct (IH (Store.addZone a st) (addZone (Store.objects st a) s))
    as [H1 H2]; [done| |done|].
  { intros b Hb. rewrite Hz. intros [Hin| ->%list_elem_of_singleton]%elem_of_app.
    - apply (Hnew b); [by right|done].
    - done. }
  split.
  - rewrite H1. do 2 f_equal. apply list_fmap_ext. intros i b Hb.
    apply Hobj. intros ->. by apply list_elem_of_lookup_2 in Hb.
  - rewrite H2, Hz, <- app_assoc. done.
Qed.


(** The same object given twice is stored twice and carries, in both
    places, the id of the second call. *)
Example addZone_same_object_twice :
  zid <$> Store.contents (Store.addZone 1 (Store.addZone 1 Store.example))
  = [0; 2; 2].
Proof. reflexivity. Qed.

(** ** The haversine distance of a point to itself *)

Section Haversine.
Context `{MathLib}.
Local Open Scope Qc_scope.

Lemma sub_self (x : jsnum) : finite x → sub x x = zero.
Proof.
  intros [q ->]. unfold sub, zero, ofZ. simpl. f_equal.
  apply Qcplus_opp_r.
Qed.

Lemma mul_zero_l (x : jsnum) : finite x → mul zero x = zero.
Proof.
  intros [q ->]. unfold zero, ofZ. simpl. f_equal.
  change (Q2Qc (inject_Z 0)) with 0. ring.
Qed.

Lemma mul_zero_r (x : jsnum) : finite x → mul x zero = zero.
Proof. intros Hx. by rewrite mul_comm, mul_zero_l. Qed.

(** X4.  Two zones at the same coordinates are at distance 0: for finite
    coordinates [calculateDistance] of a point and itself is 0, given that
    the platform's [Math] has [sin 0 = 0], [sqrt 0 = 0], [sqrt 1 = 1] and
    [atan2(0, 1) = 0], a finite [PI] and a finite cosine of the
    latitude. *)
Theorem calculateDistance_same_point (la ln : jsnum) :
  finite la → finite ln → finite Math_PI →
  finite (Math_cos (toRad la)) →
  Math_sin zero = zero → Math_sqrt zero = zero →
  Math_sqrt (ofZ 1) = ofZ 1 → Math_atan2 zero (ofZ 1) = zero →
  calculateDistance la ln la ln = zero.
Proof.
  intros Hla Hln [pi Hpi] Hcos Hsin Hsqrt0 Hsqrt1 Hatan.
  unfold calculateDistance.
  rewrite !sub_self by done.
  assert (toRad zero = zero) as ->.
  { unfold toRad. apply mul_zero_l. rewrite Hpi. by eexists. }
  assert (div zero (ofZ 2) = zero) as ->
    by (unfold div, zero, ofZ; simpl; f_equal; by apply Qc_is_canon).
  rewrite Hsin.
  rewrite (mul_zero_r (mul _ _)).
  2:{ destruct Hcos as [c ->]. by eexists. }
  rewrite (mul_zero_l zero) by (by eexists).
  rewrite add_zero_l. unfold sub. rewrite neg_zero, add_zero_r.
  rewrite Hsqrt0, Hsqrt1, Hatan.
  rewrite (mul_zero_r (ofZ 2)) by (by eexists).
  apply mul_zero_r. by eexists.
Qed.

End Haversine.

(** ** The order [sortZonesByPriority] produces *)

Section Order.
Local Open Scope Qc_scope.

Lemma Qc_lt_irrefl (q : Qc) : ¬ q < q.
Proof. intros Hlt. by apply Qclt_not_eq in Hlt. Qed.

Lemma jsnum_lt_irrefl (x : jsnum) : lt x x = false.
Proof.
  destruct x; simpl; try done.
  apply not_true_iff_false. rewrite Qc_ltb_lt. apply Qc_lt_irrefl.
Qed.

Lemma jsnum_lt_trans (x y z : jsnum) :
  lt x y = true → lt y z = true → lt x z = true.
Proof.
  destruct x, y, z; simpl; try done.
  rewrite !Qc_ltb_lt. apply Qclt_trans.
Qed.

(** The comparator puts [a] behind [b] exactly when [a] does not precede
    [b]. *)
Lemma compareZones_precedes (a b : Zone) :
  finiteKeys a → finiteKeys b →
  lt zero (compareZones a b) = false ↔ precedes a b.
Proof.
  intros [[p Hp] [d Hd]] [[q Hq] [e He]].
  unfold compareZones, precedes, neqb. rewrite Hp, Hq, Hd, He. simpl.
  destruct (Qc_eqb p q) eqn:Epq; simpl.
  - apply Qc_eqb_eq in Epq as ->.
    rewrite <- not_true_iff_false, Qc_ltb_lt, Qc_ltb_lt, Qc_leb_le.
    rewrite <- Qclt_minus_iff. split.
    + intros Hn. right. split; [done|]. by apply Qcnot_lt_le.
    + intros [Hlt|[_ Hle]]; [by apply Qc_lt_irrefl in Hlt|].
      by apply Qcle_not_lt.
  - assert (p ≠ q) as Hne.
    { intros ->. by rewrite Qc_eqb_refl in Epq. }
    rewrite <- not_true_iff_false, Qc_ltb_lt, Qc_ltb_lt.
    rewrite <- Qclt_minus_iff. split.
    + intros Hn. left. apply Qcnot_lt_le in Hn.
      apply Qcle_lt_or_eq in Hn as [?|?]; done.
    + intros [Hlt|[E _]]; [|congruence].
      apply Qcle_not_lt. by apply Qclt_le_weak.
Qed.

Lemma precedes_total (a b : Zone) :
  finiteKeys a → finiteKeys b → precedes a b ∨ precedes b a.
Proof.
  intros [[p Hp] [d Hd]] [[q Hq] [e He]]. unfold precedes.
  rewrite Hp, Hq, Hd, He. simpl. rewrite !Qc_ltb_lt, !Qc_leb_le.
  destruct (Qc_dec p q) as [[Hlt|Hgt]| ->]; [by left; left|by right; left|].
  destruct (Qclt_le_dec d e) as [Hde|Hed].
  - right. right. split; [done|]. by apply Qclt_le_weak.
  - left. right. done.
Qed.

Lemma precedes_trans (a b c : Zone) :
  finiteKeys a → finiteKeys b → finiteKeys c →
  precedes a b → precedes b c → precedes a c.
Proof.
  intros [[p Hp] [d Hd]] [[q Hq] [e He]] [[r Hr] [f Hf]]. unfold precedes.
  rewrite Hp, Hq, Hr, Hd, He, Hf. simpl. rewrite !Qc_ltb_lt, !Qc_leb_le.
  intros [Hpq|[[= ->] Hed]] [Hqr|[[= ->] Hfe]].
  - left. by apply Qclt_trans with q.
  - by left.
  - by left.
  - right. split; [done|]. by apply Qcle_trans with e.
Qed.

End Order.

Lemma ordered_nil : ordered [].
Proof. intros i j a b _ Hi. by rewrite lookup_nil in Hi. Qed.

Lemma ordered_cons (x : Zone) (l : list Zone) :
  ordered (x :: l) ↔ Forall (precedes x) l ∧ ordered l.
Proof.
  split.
  - intros Ho. split.
    + apply Forall_lookup. intros j b Hb. by apply (Ho 0 (S j) x b); [lia|..].
    + intros i j a b Hij Ha Hb. by apply (Ho (S i) (S j) a b); [lia|..].
  - intros [Hall Ho] [|i] [|j] a b Hij; try lia; simpl.
    + intros [= <-] Hb. by apply (proj1 (Forall_lookup _ _) Hall j b).
    + apply Ho. lia.
Qed.

Lemma insertZone_ordered (x : Zone) (l : list Zone) :
  finiteKeys x → Forall finiteKeys l → ordered l → ordered (insertZone x l).
Proof.
  intros Hx. induction l as [|y l IH]; intros Hfin Ho.
  { simpl. apply ordered_cons. split; [constructor|apply ordered_nil]. }
  apply Forall_cons in Hfin as [Hy Hfin].
  apply ordered_cons in Ho as [Hyl Hol].
  cbn [insertZone]. destruct (lt zero (compareZones x y)) eqn:Hc.
  - apply ordered_cons. split; [|by apply IH].
    rewrite insertZone_Permutation. constructor; [|done].
    destruct (precedes_total x y Hx Hy) as [Hxy|Hyx]; [|done].
    apply compareZones_precedes in Hxy; [congruence|done..].
  - apply compareZones_precedes in Hc; [|done..].
    apply ordered_cons. split; [|by apply ordered_cons].
    constructor; [done|].
    apply Forall_forall. intros z Hz.
    apply (precedes_trans x y z); [done..| |done|].
    + by apply (proj1 (Forall_forall _ _) Hfin).
    + by apply (proj1 (Forall_forall _ _) Hyl).
Qed.

Lemma sortZones_ordered (l : list Zone) :
  Forall finiteKeys l → ordered (sortZones l).
Proof.
  induction l as [|x l IH]; intros Hfin; [apply ordered_nil|].
  apply Forall_cons in Hfin as [Hx Hfin].
  change (ordered (insertZone x (sortZones l))).
  apply insertZone_ordered; [done| |by apply IH].
  by rewrite sortZones_Permutation.
Qed.

(** Sorting leaves an ordered list as it is. *)
Lemma sortZones_fixed (l : list Zone) :
  Forall finiteKeys l → ordered l → sortZones l = l.
Proof.
  induction l as [|x l IH]; intros Hfin Ho; [done|].
  apply Forall_cons in Hfin as [Hx Hfin].
  apply ordered_cons in Ho as [Hxl Hol].
  change (insertZone x (sortZones l) = x :: l). rewrite IH by done.
  destruct l as [|y l]; [done|]. cbn [insertZone].
  apply Forall_cons in Hxl as [Hxy _].
  apply Forall_cons in Hfin as [Hy _].
  apply compareZones_precedes in Hxy; [|done..]. by rewrite Hxy.
Qed.

(** X5.  [sortZonesByPriority] keeps the zone at position 0 in place and
    rearranges the others, none lost and none added; when their priorities
    and demands are finite numbers, they end up by ascending priority
    number and, within one priority number, by descending demand. *)
Theorem sortZonesByPriority_sorted (zs : list Zone) :
  Forall finiteKeys (tail zs) →
  sortZonesByPriority zs ≡ₚ zs
  ∧ head (sortZonesByPriority zs) = head zs
  ∧ ordered (tail (sortZonesByPriority zs)).
Proof.
  intros Hfin. split; [apply sortZonesByPriority_Permutation|].
  destruct zs as [|b rest]; [split; [done|apply ordered_nil]|].
  split; [done|]. by apply sortZones_ordered.
Qed.

(** X6.  Sorting twice is sorting once: on zones with finite priorities
    and demands a second [sortZonesByPriority] changes nothing. *)
Theorem sortZonesByPriority_idempotent (zs : list Zone) :
  Forall finiteKeys (tail zs) →
  sortZonesByPriority (sortZonesByPriority zs) = sortZonesByPriority zs.
Proof.
  intros Hfin. destruct zs as [|b rest]; [done|]. simpl in *. f_equal.
  apply sortZones_fixed; [|by apply sortZones_ordered].
  by rewrite sortZones_Permutation.
Qed.

(** Order and finiteness do not look at the [served] flags. *)
Lemma ordered_unserve (l l' : list Zone) :
  unserve l' = unserve l → ordered l → ordered l'.
Proof.
  intros E Ho i j a b Hij Ha Hb.
  assert (∀ k z, l' !! k = Some z →
            ∃ z', l !! k = Some z' ∧ priority z' = priority z
                  ∧ demand z' = demand z) as Hget.
  { intros k z Hz. apply (f_equal (λ l, l !! k)) in E. unfold unserve in E.
    change (map (set_served false) l') with (set_served false <$> l') in E.
    change (map (set_served false) l) with (set_served false <$> l) in E.
    rewrite !list_lookup_fmap, Hz in E. simpl in E.
    destruct (l !! k) as [z'|]; [|done]. apply (inj Some) in E.
    exists z'. split; [done|].
    split; [exact (eq_sym (f_equal priority E))
           |exact (eq_sym (f_equal demand E))]. }
  destruct (Hget i a Ha) as (a' & Ha' & Hpa & Hda).
  destruct (Hget j b Hb) as (b' & Hb' & Hpb & Hdb).
  specialize (Ho i j a' b' Hij Ha' Hb'). unfold precedes in *.
  by rewrite <- Hpa, <- Hpb, <- Hda, <- Hdb.
Qed.

Lemma finiteKeys_unserve (l l' : list Zone) :
  unserve l' = unserve l → Forall finiteKeys l → Forall finiteKeys l'.
Proof.
  intros E Hfin. apply Forall_lookup. intros k z Hz.
  apply (f_equal (λ l, l !! k)) in E. unfold unserve in E.
  change (map (set_served false) l') with (set_served false <$> l') in E.
  change (map (set_served false) l) with (set_served false <$> l) in E.
  rewrite !list_lookup_fmap, Hz in E. simpl in E.
  destruct (l !! k) as [z'|] eqn:Hz'; [|done]. apply (inj Some) in E.
  apply (proj1 (Forall_lookup _ _) Hfin) in Hz'. unfold finiteKeys in *.
  pose proof (f_equal priority E) as Ep. pose proof (f_equal demand E) as Ed.
  simpl in Ep, Ed. by rewrite Ep, Ed.
Qed.

Lemma unserve_tail (l : list Zone) : tail (unserve l) = unserve (tail l).
Proof. by destruct l. Qed.

(** ** The scan and the loop of [nearestNeighborTSP] *)

Section ScanFacts.
Variable M : list (list jsnum).
Variable zs : list Zone.
Variable drone : Drone.

Lemma scanStep_cases (route : list nat) (visited : gset nat) (current : nat)
    (cd : jsnum) (acc : option nat * jsnum) (k : nat) :
  scanStep M zs drone route visited current cd acc k
  = if bool_decide (k ∈ visited) then acc
    else if feasible M zs drone route current cd k
            && lt (effectiveDist M zs current k) acc.2
         then (Some k, effectiveDist M zs current k)
         else acc.
Proof.
  unfold scanStep, feasible, effectiveDist.
  case_bool_decide; [done|].
  destruct (le _ (batteryCapacity drone)), (lt _ _),
           (le _ (payloadCapacity drone)); done.
Qed.

Lemma lt_PInf_trans (x y : jsnum) :
  lt x y = true → lt x PInf = true.
Proof. by destruct x, y. Qed.

(** The accumulator of the scan, for the candidates [D] scanned so far. *)
Lemma scan_fold (route : list nat) (visited : gset nat) (current : nat)
    (cd : jsnum) (l : list nat) (acc : option nat * jsnum) (D : nat → Prop) :
  let I := λ (acc : option nat * jsnum) (D : nat → Prop),
    match acc.1 with
    | None => acc.2 = PInf
    | Some z => D z ∧ (z ∉ visited)
                ∧ feasible M zs drone route current cd z = true
                ∧ acc.2 = effectiveDist M zs current z
                ∧ lt acc.2 PInf = true
    end
    ∧ ∀ k, D k → k ∉ visited →
        feasible M zs drone route current cd k = true →
        lt (effectiveDist M zs current k) acc.2 = false in
  I acc D →
  I (fold_left (scanStep M zs drone route visited current cd) l acc)
    (λ k, D k ∨ k ∈ l).
Proof.
  intros I. revert acc D. induction l as [|k0 l IH]; intros acc D [Hacc Hmin].
  { simpl. split.
    - destruct acc.1; [|done]. destruct Hacc as (? & ?). split; [by left|done].
    - intros k [Hk|Hk]; [by apply Hmin|by apply elem_of_nil in Hk]. }
  simpl.
  assert (I (scanStep M zs drone route visited current cd acc k0)
            (λ k, D k ∨ k = k0)) as Hstep.
  { rewrite scanStep_cases. case_bool_decide as Hvis.
    - split.
      + destruct acc.1; [|done]. destruct Hacc as (? & ?).
        split; [by left|done].
      + intros k [Hk| ->]; [by apply Hmin|done].
    - destruct (feasible M zs drone route current cd k0) eqn:Hf; simpl.
      + destruct (lt (effectiveDist M zs current k0) acc.2) eqn:Hlt.
        * split.
          { simpl. split; [by right|]. split; [done|]. split; [done|].
            split; [done|]. by apply lt_PInf_trans with acc.2. }
          simpl. intros k [Hk| ->] Hkv Hkf; [|apply jsnum_lt_irrefl].
          specialize (Hmin k Hk Hkv Hkf).
          destruct (lt (effectiveDist M zs current k)
                       (effectiveDist M zs current k0)) eqn:E; [|done].
          by rewrite (jsnum_lt_trans _ _ _ E Hlt) in Hmin.
        * split.
          { destruct acc.1; [|done]. destruct Hacc as (? & ?).
            split; [by left|done]. }
          intros k [Hk| ->]; [by apply Hmin|done].
      + split.
        * destruct acc.1; [|done]. destruct Hacc as (? & ?).
          split; [by left|done].
        * intros k [Hk| ->] Hkv Hkf; [by apply Hmin|congruence]. }
  apply IH in Hstep. destruct Hstep as [H1 H2]. split.
  - destruct (fold_left _ _ _).1; [|done].
    destruct H1 as ([[?| ->]|?] & ?); (split; [|done]).
    + by left.
    + right. left.
    + right. by right.
  - intros k [Hk|Hk] Hkv Hkf.
    + apply H2; [by left; left|done..].
    + apply elem_of_cons in Hk as [->|Hk];
        (apply H2; [|done..]); [left; by right|by right].
Qed.

(** X7.  One scan of the available zones.  If it selects a zone, the zone
    is available, unvisited and passes the battery and the payload test,
    its effective distance (distance divided by priority) is below
    [Infinity], and no other unvisited available zone that passes both
    tests has a smaller effective distance.  If it selects none, no
    unvisited available zone that passes both tests has an effective
    distance below [Infinity]. *)
Theorem scan_least (availableZones route : list nat) (visited : gset nat)
    (current : nat) (currentDistance : jsnum) :
  let unvisitedFeasible := λ k,
    k ∈ availableZones ∧ (k ∉ visited)
    ∧ feasible M zs drone route current currentDistance k = true in
  match scan M zs drone availableZones route visited current currentDistance
  with
  | (Some nearest, e) =>
      unvisitedFeasible nearest
      ∧ e = effectiveDist M zs current nearest
      ∧ lt e PInf = true
      ∧ ∀ k, unvisitedFeasible k →
          lt (effectiveDist M zs current k) e = false
  | (None, e) =>
      e = PInf
      ∧ ∀ k, unvisitedFeasible k →
          lt (effectiveDist M zs current k) PInf = false
  end.
Proof.
  intros unvisitedFeasible. unfold scan.
  destruct (scan_fold route visited current currentDistance availableZones
              (None, PInf) (λ _, False)) as [H1 H2].
  { split; [done|]. by intros k []. }
  destruct (fold_left _ _ _) as [[nearest|] e]; simpl in H1, H2.
  - destruct H1 as ([[]|Hin] & Hvis & Hfeas & He & Hfin).
    split; [done|]. split; [done|]. split; [done|].
    intros k (Hk & Hkv & Hkf). apply H2; [by right|done..].
  - split; [done|]. subst e.
    intros k (Hk & Hkv & Hkf). apply H2; [by right|done..].
Qed.

Lemma scan_None (availableZones route : list nat) (visited : gset nat)
    (current : nat) (currentDistance : jsnum) :
  (scan M zs drone availableZones route visited current currentDistance).1
    = None →
  ∀ k, k ∈ availableZones → k ∉ visited →
    feasible M zs drone route current currentDistance k = true →
    lt (effectiveDist M zs current k) PInf = false.
Proof.
  intros Hscan. unfold scan in Hscan.
  destruct (scan_fold route visited current currentDistance availableZones
              (None, PInf) (λ _, False)) as [H1 H2].
  { split; [done|]. by intros k []. }
  rewrite Hscan in H1. rewrite H1 in H2.
  intros k Hk. apply H2. by right.
Qed.

Lemma tracks_start (availableZones : list nat) :
  tracks M availableZones [0] {[0]} 0 zero.
Proof.
  exists []. split; [done|]. split; [apply NoDup_singleton|].
  split; [by intros k ?%elem_of_nil|]. split; [|done].
  intros k. by rewrite elem_of_singleton, list_elem_of_singleton.
Qed.

Lemma tracks_step (availableZones route : list nat) (visited : gset nat)
    (current : nat) (cd : jsnum) (z : nat) :
  tracks M availableZones route visited current cd →
  z ∈ availableZones → z ∉ visited →
  tracks M availableZones (route ++ [z]) ({[z]} ∪ visited) z
         (add cd (dm M current z)).
Proof.
  intros (picks & -> & Hnd & Hsub & Hvisited & Hwalk) Hz Hvis.
  exists (picks ++ [z]). split; [done|]. split; [|split; [|split]].
  - change (0 :: picks ++ [z]) with ((0 :: picks) ++ [z]).
    apply NoDup_app. split; [done|]. split; [|apply NoDup_singleton].
    intros k Hk ->%list_elem_of_singleton. by apply Hvis, Hvisited.
  - intros k [Hk| ->%list_elem_of_singleton]%elem_of_app; auto.
  - intros k. rewrite elem_of_union, elem_of_singleton, Hvisited.
    change (0 :: picks ++ [z]) with ((0 :: picks) ++ [z]).
    rewrite elem_of_app, list_elem_of_singleton. tauto.
  - by rewrite openWalk_snoc, Hwalk.
Qed.

(** With more fuel than unvisited zones the loop ends in a state whose
    scan selects nothing: it ends through its [break]. *)
Lemma nnLoop_final (availableZones : list nat) (fuel : nat) :
  ∀ (route : list nat) (visited : gset nat) (current : nat) (cd : jsnum),
    tracks M availableZones route visited current cd →
    length (unvisited availableZones visited) < fuel →
    let r := nnLoop M zs drone fuel availableZones route visited current cd in
    ∃ visited' current' cd',
      tracks M availableZones r visited' current' cd'
      ∧ (scan M zs drone availableZones r visited' current' cd').1 = None.
Proof.
  induction fuel as [|fuel IH]; intros route visited current cd Htr Hfuel;
    [lia|].
  simpl. destruct (scan _ _ _ _ _ _ _ _).1 as [z|] eqn:Hscan.
  2:{ by exists visited, current, cd. }
  apply scan_Some in Hscan as (Hz & Hvis & _).
  apply IH; [by apply tracks_step|].
  destruct (unvisited_shrinks visited z availableZones) as [_ Hlt].
  specialize (Hlt Hz Hvis). lia.
Qed.

Lemma nearestNeighborTSP_shape (availableZones : list nat) :
  ∃ picks, nearestNeighborTSP M zs drone availableZones = 0 :: picks
           ∧ NoDup (0 :: picks)
           ∧ (∀ k, k ∈ picks → k ∈ availableZones).
Proof.
  destruct (nnLoop_invariant M zs drone availableZones (λ _, True)
              (S (length availableZones)))
    with (route := [0]) (visited := ({[0]} : gset nat)) (current := 0)
         (currentDistance := zero) as [_ (picks & Hr & Hnd & Hsub)];
    [done|apply tracks_start|done|].
  fold (nearestNeighborTSP M zs drone availableZones) in Hr, Hnd.
  exists picks. by rewrite <- Hr.
Qed.

(** X8.  Whatever the matrix, the zones, the drone and the candidates,
    the route [nearestNeighborTSP] returns starts with the base position
    0, holds no position twice, holds after the base only positions taken
    from [availableZones], and so is at most one longer than
    [availableZones]. *)
Theorem nearestNeighborTSP_route (availableZones : list nat) :
  let r := nearestNeighborTSP M zs drone availableZones in
  head r = Some 0
  ∧ NoDup r
  ∧ (∀ k, k ∈ tail r → k ∈ availableZones)
  ∧ length r ≤ S (length availableZones).
Proof.
  intros r. unfold r.
  destruct (nearestNeighborTSP_shape availableZones)
    as (picks & -> & Hnd & Hsub).
  split; [done|]. split; [done|]. split; [done|]. simpl. apply le_n_S.
  apply submseteq_length, NoDup_submseteq; [|done].
  by apply NoDup_cons in Hnd as [_ ?].
Qed.

(** X9.  The construction stops only when nothing can be appended: for
    the route returned, its last stop and the distance travelled up to
    it, every available zone is on the route, or fails the battery test or
    the payload test, or has an effective distance that is not below
    [Infinity]. *)
Theorem nearestNeighborTSP_maximal (availableZones : list nat) :
  let r := nearestNeighborTSP M zs drone availableZones in
  let current := (openWalk M zero 0 (tail r)).2 in
  let currentDistance := (openWalk M zero 0 (tail r)).1 in
  Forall (λ k, k ∈ r
               ∨ feasible M zs drone r current currentDistance k
                 && lt (effectiveDist M zs current k) PInf = false)
         availableZones.
Proof.
  intros r current currentDistance. apply Forall_forall. intros k Hk.
  destruct (decide (k ∈ r)) as [|Hnot]; [by left|]. right.
  destruct (feasible M zs drone r current currentDistance k) eqn:Hfeas;
    [|done]. simpl.
  destruct (nnLoop_final availableZones (S (length availableZones))
              [0] {[0]} 0 zero)
    as (visited' & current' & cd' & Htr & Hscan); [apply tracks_start| |].
  { assert (length (unvisited availableZones {[0]}) ≤ length availableZones);
      [|lia].
    unfold unvisited. apply List.filter_length_le. }
  fold (nearestNeighborTSP M zs drone availableZones) in Htr, Hscan.
  fold r in Htr, Hscan.
  destruct Htr as (picks & Hr & _ & _ & Hvisited & Hwalk).
  assert (current = current' ∧ currentDistance = cd') as [E1 E2].
  { unfold current, currentDistance. rewrite Hr. simpl tail.
    by rewrite Hwalk. }
  rewrite E1, E2 in *.
  apply (scan_None availableZones r visited' current' cd' Hscan k);
    [done| |done].
  by rewrite Hvisited.
Qed.

End ScanFacts.

(** ** 2-opt and the reversal of a segment *)

Lemma twoOptOptimize_head (M : list (list jsnum)) (maxDistance : jsnum)
    (r : list nat) :
  twoOptOptimize M maxDistance r ≡ₚ r
  ∧ head (twoOptOptimize M maxDistance r) = head r.
Proof.
  apply (twoOptOptimize_invariant M maxDistance
           (λ r', r' ≡ₚ r ∧ head r' = head r)); [|done].
  intros A S B a x y b (Hperm & Hhead) _ _.
  split; [by rewrite reversed_Permutation|].
  rewrite <- Hhead. by destruct A.
Qed.

(** X10.  Whatever the matrix and the ceiling, [twoOptOptimize] returns
    the stops of the route it was given, in some order, with the first and
    the last of them where they were: only the stops in between move. *)
Theorem twoOptOptimize_keeps_ends (M : list (list jsnum)) (maxDistance : jsnum)
    (r : list nat) :
  twoOptOptimize M maxDistance r ≡ₚ r
  ∧ head (twoOptOptimize M maxDistance r) = head r
  ∧ last (twoOptOptimize M maxDistance r) = last r.
Proof.
  apply (twoOptOptimize_invariant M maxDistance
           (λ r', r' ≡ₚ r ∧ head r' = head r ∧ last r' = last r)); [|done].
  intros A S B a x y b (Hperm & Hhead & Hlast) _ _.
  split; [by rewrite reversed_Permutation|]. split.
  - rewrite <- Hhead. by destruct A.
  - rewrite <- Hlast.
    replace (A ++ a :: y :: rev S ++ x :: b :: B)
      with ((A ++ a :: y :: rev S ++ [x]) ++ b :: B)
      by (rewrite <- !app_assoc; simpl; by rewrite <- !app_assoc).
    replace (A ++ a :: x :: S ++ y :: b :: B)
      with ((A ++ a :: x :: S ++ [y]) ++ b :: B)
      by (rewrite <- !app_assoc; simpl; by rewrite <- !app_assoc).
    by rewrite !last_app_cons.
Qed.

(** X11.  [twoOptOptimize] never trades feasibility for length: if the
    round trip of the route given is within the ceiling, so is the round
    trip of the route returned, whatever the matrix. *)
Theorem twoOptOptimize_within_ceiling (M : list (list jsnum))
    (maxDistance : jsnum) (r : list nat) :
  le (calculateRouteDistance M r) maxDistance = true →
  le (calculateRouteDistance M (twoOptOptimize M maxDistance r)) maxDistance
  = true.
Proof.
  intros Hle. destruct (twoOptOptimize_feasible M maxDistance r) as [_ [->|?]];
    done.
Qed.

Lemma reverseSegment_noop (route : list nat) (start end_ : nat) :
  end_ ≤ start → reverseSegment route start end_ = route.
Proof.
  intros Hle. unfold reverseSegment. destruct (length route); [done|]. simpl.
  by replace (start <? end_) with false by (symmetry; apply Nat.ltb_ge; lia).
Qed.

Lemma route_segment (route : list nat) (start end_ : nat) :
  start ≤ end_ → end_ < length route →
  ∃ A S B, route = A ++ S ++ B ∧ length A = start
           ∧ length S = end_ - start + 1.
Proof.
  intros Hle Hlt.
  exists (take start route), (take (end_ - start + 1) (drop start route)),
         (drop (end_ - start + 1) (drop start route)).
  split; [by rewrite !take_drop|].
  split; [rewrite length_take; lia|].
  rewrite length_take, length_drop. lia.
Qed.

Lemma reverseSegment_cut (A S B : list nat) (start end_ : nat) :
  length A = start → length S = end_ - start + 1 → start ≤ end_ →
  reverseSegment (A ++ S ++ B) start end_ = A ++ rev S ++ B.
Proof.
  intros HA HS Hle.
  replace start with (length A) by done.
  replace end_ with (length A + length S - 1) by lia.
  apply reverseSegment_spec. by destruct S; [simpl in HS; lia|].
Qed.

(** X12.  [reverseSegment(route, start, end)] with [end] inside the route
    mirrors the positions from [start] to [end]: afterwards position [k] in
    that range holds what position [start + end - k] held, and every other
    position holds what it held; with [start >= end] nothing moves. *)
Theorem reverseSegment_lookup (route : list nat) (start end_ k : nat) :
  end_ < length route →
  reverseSegment route start end_ !! k
  = route !! (if bool_decide (start ≤ k ≤ end_) then start + end_ - k else k).
Proof.
  intros Hend. destruct (decide (end_ ≤ start)) as [Hno|Hlt].
  { rewrite reverseSegment_noop by done. f_equal.
    case_bool_decide; lia. }
  destruct (route_segment route start end_) as (A & S & B & -> & HA & HS);
    [lia|done|].
  rewrite (reverseSegment_cut A S B start end_) by (done || lia).
  assert (length (rev S) = length S) as Hrev by apply length_rev.
  case_bool_decide as Hk.
  - rewrite lookup_app_r, lookup_app_l by lia.
    rewrite (lookup_app_r A), (lookup_app_l S) by lia.
    rewrite rev_alt. change (rev_append S []) with (reverse S).
    rewrite reverse_lookup by lia. f_equal. lia.
  - destruct (decide (k < start)).
    + by rewrite !lookup_app_l by lia.
    + rewrite lookup_app_r, lookup_app_r by lia.
      rewrite (lookup_app_r A), (lookup_app_r S) by lia.
      by rewrite Hrev.
Qed.

(** X13.  Reversing the same segment twice gives the route back, and one
    reversal only rearranges the route. *)
Theorem reverseSegment_involutive (route : list nat) (start end_ : nat) :
  end_ < length route →
  reverseSegment (reverseSegment route start end_) start end_ = route
  ∧ reverseSegment route start end_ ≡ₚ route.
Proof.
  intros Hend. destruct (decide (end_ ≤ start)) as [Hno|Hlt].
  { by rewrite !reverseSegment_noop by done. }
  destruct (route_segment route start end_) as (A & S & B & -> & HA & HS);
    [lia|done|].
  rewrite (reverseSegment_cut A S B start end_) by (done || lia).
  rewrite (reverseSegment_cut A (rev S) B start end_)
    by (rewrite ?length_rev; done || lia).
  rewrite rev_involutive. split; [done|].
  by rewrite <- (Permutation_rev S).
Qed.

(** ** One drone of the loop in [optimize] *)

Lemma served_alter (zs : list Zone) (k : nat) :
  served <$> alter (set_served true) k zs = <[k := true]> (served <$> zs).
Proof.
  revert k. induction zs as [|z zs IH]; intros [|k]; simpl; try done.
  f_equal. apply IH.
Qed.

Lemma served_isAssigned (zs : list Zone) (k : nat) :
  isAssigned (served <$> zs) k = served (zoneAt zs k).
Proof.
  unfold isAssigned, zoneAt. rewrite list_lookup_fmap.
  by destruct (zs !! k).
Qed.

Lemma count_served_alter (zs : list Zone) (k : nat) :
  k < length zs → served (zoneAt zs k) = false →
  count served (alter (set_served true) k zs) = S (count served zs).
Proof.
  unfold count, zoneAt. revert k.
  induction zs as [|z zs IH]; intros [|k] Hk Hs; simpl in *; try lia.
  - rewrite Hs. done.
  - specialize (IH k ltac:(lia) Hs). unfold alter in IH.
    destruct (served z); simpl; rewrite IH; done.
Qed.

Lemma fold_demand_unserve (zs zs' : list Zone) :
  unserve zs' = unserve zs →
  ∀ l t, fold_left (λ sum i, add sum (demand (zoneAt zs' i))) l t
         = fold_left (λ sum i, add sum (demand (zoneAt zs i))) l t.
Proof.
  intros E. induction l as [|k l IH]; intros t; [done|]. simpl.
  by rewrite IH, (unserve_demand zs zs' k E).
Qed.

Lemma markStep_routed (r : list nat) :
  ∀ (zs : list Zone) (a : list bool) (t : jsnum)
    (zs' : list Zone) (a' : list bool) (t' : jsnum),
  served <$> zs = a → NoDup r →
  (∀ k, k ∈ r → k ≠ 0 → k < length zs ∧ isAssigned a k = false) →
  fold_left markStep r (zs, a, t) = (zs', a', t') →
  served <$> zs' = a'
  ∧ t' = fold_left (λ sum i, add sum (demand (zoneAt zs i)))
                   (List.filter (λ i, negb (i =? 0)) r) t
  ∧ (∀ k, isAssigned a' k = true
          ↔ isAssigned a k = true ∨ (k ∈ r ∧ k ≠ 0))
  ∧ count served zs'
    = count served zs + length (List.filter (λ i, negb (i =? 0)) r).
Proof.
  induction r as [|x r IH]; intros zs a t zs' a' t' Ha Hnd Hfree; simpl.
  { intros [= <- <- <-]. split; [done|]. split; [done|]. split; [|lia].
    intros k. split; [by left|]. intros [?|[?%elem_of_nil _]]; done. }
  apply NoDup_cons in Hnd as [Hx Hnd].
  destruct (decide (x = 0)) as [->|Hx0].
  - simpl. intros Hfold.
    apply IH in Hfold as (H1 & H2 & H3 & H4); [|done..|].
    2:{ intros k Hk. apply Hfree. by right. }
    split; [done|]. split; [done|]. split; [|done].
    intros k. rewrite H3. split.
    + intros [?|[? ?]]; [by left|right]. split; [by right|done].
    + intros [?|[[->|?]%elem_of_cons ?]]; [by left|done|by right].
  - destruct (Hfree x) as [Hlt Hun]; [by left|done|].
    replace (x =? 0) with false by (symmetry; by apply Nat.eqb_neq).
    rewrite Hun. simpl. intros Hfold.
    apply IH in Hfold as (H1 & H2 & H3 & H4); [| |done|].
    2:{ by rewrite served_alter, Ha. }
    2:{ intros k Hk Hk0. destruct (Hfree k) as [Hklt Hkun]; [by right|done|].
        rewrite length_alter. split; [done|].
        destruct (isAssigned (<[x:=true]> a) k) eqn:E; [|done].
        apply isAssigned_insert in E as [[-> _]|E]; [done|congruence]. }
    assert (length a = length zs) as Hlen by (by rewrite <- Ha, length_fmap).
    split; [done|]. split.
    { rewrite H2. apply fold_demand_unserve, unserve_alter. }
    split.
    + intros k. rewrite H3, isAssigned_insert. split.
      * intros [[[-> _]|?]|[? ?]].
        -- right. split; [by left|done].
        -- by left.
        -- right. split; [by right|done].
      * intros [?|[[->|?]%elem_of_cons ?]].
        -- left. by right.
        -- left. left. split; [done|lia].
        -- by right.
    + rewrite H4, count_served_alter; [lia|done|].
      by rewrite <- served_isAssigned, Ha.
Qed.

Lemma filter_positive_all (l : list nat) :
  Forall (λ k, k ≠ 0) l → List.filter (λ i, negb (i =? 0)) l = l.
Proof.
  induction 1 as [|x l Hx _ IH]; [done|]. simpl.
  replace (x =? 0) with false by (symmetry; by apply Nat.eqb_neq).
  simpl. by rewrite IH.
Qed.

(** The branch of [assignDrone] that builds a route. *)
Lemma assignDrone_routed (M : list (list jsnum)) (zs : list Zone)
    (a : list bool) (d d' : Drone) (zs' : list Zone) (a' : list bool) :
  served <$> zs = a →
  availableZonesOf zs a d ≠ [] →
  assignDrone M zs a d = (d', zs', a') →
  (∃ rest, route d' = 0 :: rest ∧ Forall (λ k, k ≠ 0) rest)
  ∧ NoDup (route d')
  ∧ (∀ k, k ∈ route d' → k ≠ 0 → k < length zs ∧ isAssigned a k = false)
  ∧ totalDistance d' = calculateRouteDistance M (route d')
  ∧ totalDelivered d' = currentLoad zs (route d')
  ∧ served <$> zs' = a'
  ∧ (∀ k, isAssigned a' k = true
          ↔ isAssigned a k = true ∨ (k ∈ route d' ∧ k ≠ 0))
  ∧ count served zs' = count served zs + stops d'.
Proof.
  intros Ha Hne. unfold assignDrone.
  destruct (length (availableZonesOf zs a d) =? 0) eqn:Hempty.
  { apply Nat.eqb_eq in Hempty. by destruct (availableZonesOf zs a d). }
  clear Hempty.
  set (avail := availableZonesOf zs a d) in *.
  set (r0 := nearestNeighborTSP M zs d avail).
  set (r := if 1 <? length r0
            then twoOptOptimize M (batteryCapacity d) r0 else r0).
  destruct (fold_left markStep r (zs, a, zero)) as [[zs1 a1] t1] eqn:Hmark.
  intros [= <- <- <-]. unfold stops. cbn [route totalDistance totalDelivered].
  destruct (nearestNeighborTSP_shape M zs d avail)
    as (picks & Hr0 & Hnd & Hsub).
  fold r0 in Hr0.
  assert (r ≡ₚ r0 ∧ head r = head r0) as [Hperm Hhead].
  { unfold r. destruct (1 <? length r0); [|done]. apply twoOptOptimize_head. }
  rewrite Hr0 in Hperm, Hhead. simpl in Hhead.
  destruct r as [|r1 rest] eqn:Er; [done|]. injection Hhead as ->.
  apply Permutation_cons_inv in Hperm as Hrest.
  assert (∀ k, k ∈ rest → 1 ≤ k < length zs ∧ isAssigned a k = false) as Hin.
  { intros k Hk. rewrite Hrest in Hk.
    by apply Hsub, availableZonesOf_spec in Hk. }
  assert (Forall (λ k, k ≠ 0) rest) as Hnz.
  { apply Forall_forall. intros k Hk%Hin. lia. }
  assert (NoDup (0 :: rest)) as Hnd' by (by rewrite Hperm).
  apply markStep_routed in Hmark as (H1 & H2 & H3 & H4); [|done..|].
  2:{ intros k [->|Hk%Hin]%elem_of_cons Hk0; [done|]. split; [lia|tauto]. }
  split; [by exists rest|]. split; [done|]. split.
  { intros k [->|Hk%Hin]%elem_of_cons Hk0; [done|]. split; [lia|tauto]. }
  split; [done|]. split; [by rewrite H2|]. split; [done|]. split; [done|].
  rewrite H4. simpl. rewrite filter_positive_all by done. lia.
Qed.

(** Every branch of [assignDrone] keeps the zones and the drone's limits. *)
Lemma assignDrone_frame (M : list (list jsnum)) (zs : list Zone)
    (a : list bool) (d d' : Drone) (zs' : list Zone) (a' : list bool) :
  assignDrone M zs a d = (d', zs', a') →
  unserve zs' = unserve zs ∧ length a' = length a ∧ sameLimits d d'.
Proof.
  unfold assignDrone.
  destruct (length (availableZonesOf zs a d) =? 0).
  { by intros [= <- <- <-]. }
  destruct (fold_left markStep _ _) as [[zs1 a1] t1] eqn:Hmark.
  intros [= <- <- <-].
  apply markStep_fold in Hmark as (Hu & Hl & _). done.
Qed.

Lemma assignAll_frame (M : list (list jsnum)) (ds : list Drone) :
  ∀ (zs : list Zone) (a : list bool) (ds' : list Drone) (zs' : list Zone),
  assignAll M zs a ds = (ds', zs') →
  unserve zs' = unserve zs ∧ Forall2 sameLimits ds ds'.
Proof.
  induction ds as [|d ds IH]; intros zs a ds' zs'; simpl.
  { intros [= <- <-]. split; [done|constructor]. }
  destruct (assignDrone M zs a d) as [[d1 zs1] a1] eqn:Hd.
  destruct (assignAll M zs1 a1 ds) as [ds1 zs2] eqn:Hds.
  intros [= <- <-].
  apply assignDrone_frame in Hd as (Hu1 & _ & Hsame).
  apply IH in Hds as (Hu2 & Hsames).
  split; [by rewrite Hu2|by constructor].
Qed.

(** The loop over a fleet of fresh drones: which zones end up served. *)
Lemma assignAll_served (M : list (list jsnum)) (ds : list Drone) :
  ∀ (zs : list Zone) (a : list bool) (ds' : list Drone) (zs' : list Zone),
  served <$> zs = a → Forall fresh ds →
  assignAll M zs a ds = (ds', zs') →
  (∀ k, served (zoneAt zs' k) = true
        ↔ served (zoneAt zs k) = true
          ∨ ∃ d', d' ∈ ds' ∧ k ∈ route d' ∧ k ≠ 0)
  ∧ count served zs' = count served zs + sum_list (stops <$> ds')
  ∧ Forall (λ d', route d' = []
                  ∨ ∃ rest, route d' = 0 :: rest ∧ Forall (λ k, k ≠ 0) rest)
           ds'.
Proof.
  induction ds as [|d ds IH]; intros zs a ds' zs' Ha Hfresh; simpl.
  { intros [= <- <-]. split; [|split; [simpl; lia|constructor]].
    intros k. split; [by left|]. intros [?|(d' & ?%elem_of_nil & _)]; done. }
  destruct (assignDrone M zs a d) as [[d1 zs1] a1] eqn:Hd.
  destruct (assignAll M zs1 a1 ds) as [ds1 zs2] eqn:Hds.
  intros [= <- <-].
  apply Forall_cons in Hfresh as [Hfd Hfds].
  destruct (decide (availableZonesOf zs a d = [])) as [Hskip|Hrouted].
  - rewrite assignDrone_skips in Hd by done. injection Hd as <- <- <-.
    apply IH in Hds as (H1 & H2 & H3); [|done..].
    split; [|split].
    + intros k. rewrite H1. split.
      * intros [?|(d' & Hd' & ?)]; [by left|right].
        exists d'. split; [by right|done].
      * intros [?|(d' & [->|Hd']%elem_of_cons & Hk & ?)]; [by left| |].
        -- rewrite Hfd in Hk. by apply elem_of_nil in Hk.
        -- right. by exists d'.
    + assert (stops d = 0) as Hd0 by (unfold stops; by rewrite Hfd).
      rewrite H2.
      change (sum_list (stops <$> d :: ds1))
        with (stops d + sum_list (stops <$> ds1)). lia.
    + constructor; [by left|done].
  - apply assignDrone_routed in Hd
      as (Hshape & _ & _ & _ & _ & Ha1 & Hiff & Hcount); [|done..].
    apply IH in Hds as (H1 & H2 & H3); [|done..].
    split; [|split].
    + intros k. rewrite H1. rewrite <- !served_isAssigned, Ha1, Ha, Hiff.
      split.
      * intros [[?|[? ?]]|(d' & Hd' & ?)].
        -- by left.
        -- right. exists d1. split; [by left|done].
        -- right. exists d'. split; [by right|done].
      * intros [?|(d' & [->|Hd']%elem_of_cons & Hk & ?)].
        -- left. by left.
        -- left. by right.
        -- right. by exists d'.
    + rewrite H2, Hcount.
      change (sum_list (stops <$> d1 :: ds1))
        with (stops d1 + sum_list (stops <$> ds1)). lia.
    + constructor; [by right|done].
Qed.

(** The loop over a fleet of drones as their constructor leaves them: the
    totals each drone records. *)
Lemma assignAll_totals (M : list (list jsnum)) (ds : list Drone) :
  ∀ (zs : list Zone) (a : list bool) (ds' : list Drone) (zs' : list Zone),
  served <$> zs = a →
  Forall (λ d, ∃ i b p, d = newDrone i b p) ds →
  assignAll M zs a ds = (ds', zs') →
  Forall (λ d', totalDistance d' = calculateRouteDistance M (route d')
                ∧ totalDelivered d' = currentLoad zs (route d')) ds'.
Proof.
  induction ds as [|d ds IH]; intros zs a ds' zs' Ha Hnew; simpl.
  { intros [= <- <-]. constructor. }
  destruct (assignDrone M zs a d) as [[d1 zs1] a1] eqn:Hd.
  destruct (assignAll M zs1 a1 ds) as [ds1 zs2] eqn:Hds.
  intros [= <- <-].
  apply Forall_cons in Hnew as [(i & b & p & ->) Hnews].
  assert (unserve zs1 = unserve zs ∧ served <$> zs1 = a1
          ∧ totalDistance d1 = calculateRouteDistance M (route d1)
          ∧ totalDelivered d1 = currentLoad zs (route d1))
    as (Hu & Ha1 & Hdist & Hdel).
  { destruct (decide (availableZonesOf zs a (newDrone i b p) = []))
      as [Hskip|Hrouted].
    - rewrite assignDrone_skips in Hd by done. by injection Hd as <- <- <-.
    - pose proof (assignDrone_frame _ _ _ _ _ _ _ Hd) as (Hu & _).
      apply assignDrone_routed in Hd
        as (_ & _ & _ & Hdist & Hdel & Ha1 & _); done. }
  constructor; [done|].
  apply IH in Hds; [|done..].
  eapply Forall_impl; [exact Hds|]. intros d' [H1 H2]. split; [done|].
  by rewrite H2, (currentLoad_unserve zs zs1).
Qed.

(** A drone that can carry none of the requests is left as it is. *)
Lemma assignAll_skips (M : list (list jsnum)) (ds : list Drone) :
  ∀ (zs : list Zone) (a : list bool) (ds' : list Drone) (zs' : list Zone),
  assignAll M zs a ds = (ds', zs') →
  Forall2 (λ d d',
    Forall (λ z, le (demand z) (payloadCapacity d) = false)
           (tail (unserve zs)) → d' = d) ds ds'.
Proof.
  induction ds as [|d ds IH]; intros zs a ds' zs'; simpl.
  { intros [= <- <-]. constructor. }
  destruct (assignDrone M zs a d) as [[d1 zs1] a1] eqn:Hd.
  destruct (assignAll M zs1 a1 ds) as [ds1 zs2] eqn:Hds.
  intros [= <- <-].
  pose proof (assignDrone_frame _ _ _ _ _ _ _ Hd) as (Hu & _).
  apply IH in Hds. rewrite Hu in Hds. constructor; [|done].
  intros Hall.
  assert (availableZonesOf zs a d = []) as Hnone.
  { unfold availableZonesOf.
    assert (∀ k, k ∈ seq 1 (length zs - 1) →
              le (demand (zoneAt zs k)) (payloadCapacity d) = false) as Hk.
    { intros k [Hk1 Hk2]%elem_of_seq.
      destruct k as [|k]; [lia|].
      destruct (lookup_lt_is_Some_2 zs (S k)) as [z Hz]; [lia|].
      unfold zoneAt. rewrite Hz. simpl.
      assert (tail (unserve zs) !! k = Some (set_served false z)) as Hz'.
      { unfold unserve. destruct zs as [|z0 zs]; [done|]. simpl in *.
        change (map (set_served false) zs !! k) with
          ((set_served false <$> zs) !! k).
        by rewrite list_lookup_fmap, Hz. }
      apply (proj1 (Forall_lookup _ _) Hall) in Hz'. done. }
    induction (seq 1 (length zs - 1)) as [|k l IHl]; [done|]. simpl.
    rewrite (Hk k) by (by left). rewrite andb_false_r.
    apply IHl. intros k' Hk'. apply Hk. by right. }
  rewrite assignDrone_skips in Hd by done. by injection Hd as <- _ _.
Qed.

Lemma assignAll_routes (M : list (list jsnum)) (ds : list Drone) :
  ∀ (zs : list Zone) (a : list bool) (ds' : list Drone) (zs' : list Zone),
  served <$> zs = a → Forall fresh ds →
  assignAll M zs a ds = (ds', zs') →
  Forall (λ d', route d' = []
                ∨ ∃ rest, route d' = 0 :: rest ∧ NoDup rest
                          ∧ Forall (λ k, 0 < k < length zs) rest) ds'.
Proof.
  induction ds as [|d ds IH]; intros zs a ds' zs' Ha Hfresh; simpl.
  { intros [= <- <-]. constructor. }
  destruct (assignDrone M zs a d) as [[d1 zs1] a1] eqn:Hd.
  destruct (assignAll M zs1 a1 ds) as [ds1 zs2] eqn:Hds.
  intros [= <- <-].
  apply Forall_cons in Hfresh as [Hfd Hfds].
  pose proof (assignDrone_frame _ _ _ _ _ _ _ Hd) as (Hu & _).
  assert (served <$> zs1 = a1
          ∧ (route d1 = []
             ∨ ∃ rest, route d1 = 0 :: rest ∧ NoDup rest
                       ∧ Forall (λ k, 0 < k < length zs) rest))
    as [Ha1 Hd1].
  { destruct (decide (availableZonesOf zs a d = [])) as [Hskip|Hrouted].
    - rewrite assignDrone_skips in Hd by done. injection Hd as <- <- <-.
      split; [done|by left].
    - apply assignDrone_routed in Hd
        as ((rest & Hr & Hnz) & Hnd & Hin & _ & _ & Ha1 & _); [|done..].
      split; [done|]. right. exists rest. split; [done|].
      rewrite Hr in Hnd, Hin. apply NoDup_cons in Hnd as [_ Hnd].
      split; [done|]. apply Forall_forall. intros k Hk.
      pose proof (proj1 (Forall_forall _ _) Hnz k Hk) as Hk0.
      destruct (Hin k) as [Hlt _]; [by right|done|]. simpl in *. lia. }
  constructor; [done|].
  apply IH in Hds; [|done..].
  by rewrite (unserve_length zs zs1 Hu) in Hds.
Qed.

(** ** The whole run, continued *)

Section RunTheorems.
Context `{MathLib}.

Lemma served_unserve (l : list Zone) :
  served <$> map (set_served false) l = replicate (length l) false.
Proof. induction l as [|z l IH]; [done|]. simpl. by f_equal. Qed.

Lemma count_served_unserve (l : list Zone) :
  count served (map (set_served false) l) = 0.
Proof. unfold count. induction l as [|z l IH]; done. Qed.

(** [optimize], unfolded once: the state the loop over the drones starts
    from and the state the call leaves. *)
Lemma optimize_unfold (t0 t1 : jsnum) (s s' : Optimizer) (res : Results) :
  optimize t0 t1 s = inr (s', res) →
  ∃ b rest,
    sortZonesByPriority (zones s) = b :: rest
    ∧ assignAll (buildDistanceMatrix (zones s))
        (set_served true b :: map (set_served false) rest)
        (served <$> (set_served true b :: map (set_served false) rest))
        (drones s)
      = (drones s', zones s')
    ∧ distanceMatrix s' = buildDistanceMatrix (zones s)
    ∧ baseLocation s' = baseLocation s
    ∧ executionTime s' = sub t1 t0
    ∧ res = getResults s'.
Proof.
  unfold optimize.
  destruct (sortZonesByPriority (zones s)) as [|b rest] eqn:Hsort; [done|].
  change (alter (set_served true) 0 (map (set_served false) (b :: rest)))
    with (set_served true b :: map (set_served false) rest).
  assert (<[0:=true]> (replicate
            (length (set_served true b :: map (set_served false) rest)) false)
          = served <$> (set_served true b :: map (set_served false) rest))
    as ->.
  { simpl. f_equal. rewrite length_map. symmetry. apply served_unserve. }
  destruct (assignAll _ _ _ _) as [ds' zs'] eqn:Hall.
  intros [= <- <-]. by exists b, rest.
Qed.

Lemma optimize_zones (t0 t1 : jsnum) (s s' : Optimizer) (res : Results) :
  optimize t0 t1 s = inr (s', res) →
  unserve (zones s') = unserve (sortZonesByPriority (zones s)).
Proof.
  intros (b & rest & Hsort & Hall & _)%optimize_unfold.
  apply assignAll_frame in Hall as [Hu _]. rewrite Hu, Hsort.
  unfold unserve. simpl. f_equal. rewrite map_map. by apply map_ext.
Qed.

(** X14.  A successful [optimize] keeps the requests and the limits of
    the fleet: the zones it leaves are the zones it found, in the order of
    [sortZonesByPriority] and apart from their [served] flags; every drone
    keeps its id, battery range and payload capacity, in fleet order; the
    base location is not touched. *)
Theorem optimize_keeps_requests (t0 t1 : jsnum) (s s' : Optimizer)
    (res : Results) :
  optimize t0 t1 s = inr (s', res) →
  unserve (zones s') = unserve (sortZonesByPriority (zones s))
  ∧ unserve (zones s') ≡ₚ unserve (zones s)
  ∧ Forall2 sameLimits (drones s) (drones s')
  ∧ baseLocation s' = baseLocation s.
Proof.
  intros Hrun. pose proof (optimize_zones _ _ _ _ _ Hrun) as Hz.
  split; [done|]. split.
  { rewrite Hz. unfold unserve.
    apply Permutation_map, sortZonesByPriority_Permutation. }
  apply optimize_unfold in Hrun as (b & rest & _ & Hall & _ & Hbase & _).
  apply assignAll_frame in Hall as [_ Hsame]. done.
Qed.

(** X15.  After a successful [optimize] on a fleet of fresh drones,
    every drone's route is empty or starts with the base position 0 and
    goes on with positions of requests, each one existing and none twice;
    and the [route] of a drone in the result object holds, for each
    position of [routeIndices], the zone at that position, never
    [undefined]. *)
Theorem optimize_routes_from_base (t0 t1 : jsnum) (s s' : Optimizer)
    (res : Results) :
  Forall fresh (drones s) →
  optimize t0 t1 s = inr (s', res) →
  Forall (λ d, route d = []
               ∨ ∃ rest, route d = 0 :: rest ∧ NoDup rest
                         ∧ Forall (λ k, 0 < k < length (zones s')) rest)
         (drones s')
  ∧ Forall (λ r, res_route r
                 = Some <$> (zoneAt (zones s') <$> res_routeIndices r))
           (res_drones res).
Proof.
  intros Hfresh Hrun.
  pose proof (optimize_zones _ _ _ _ _ Hrun) as Hz.
  apply optimize_unfold in Hrun as (b & rest & Hsort & Hall & _ & _ & _ & ->).
  apply assignAll_routes in Hall; [|done..].
  assert (length (zones s')
          = length (set_served true b :: map (set_served false) rest)) as Hlen.
  { rewrite (unserve_length _ _ Hz), Hsort. simpl. by rewrite length_map. }
  rewrite <- Hlen in Hall. split; [done|].
  cbn [getResults res_drones]. apply Forall_forall. intros r Hr.
  apply list_elem_of_In, in_map_iff in Hr as (d & <- & Hd%list_elem_of_In).
  cbn [res_route res_routeIndices].
  apply (proj1 (Forall_forall _ _) Hall) in Hd as [->|(l & -> & _ & Hl)];
    [done|].
  change (map (λ i, zones s' !! i) (0 :: l))
    with ((λ i, zones s' !! i) <$> (0 :: l)).
  rewrite <- list_fmap_compose. apply Forall_fmap_ext_1, Forall_forall.
  intros k Hk. simpl. unfold zoneAt.
  assert (k < length (zones s')) as Hlt.
  { apply elem_of_cons in Hk as [->|Hk]; [rewrite Hlen; simpl; lia|].
    apply (proj1 (Forall_forall _ _) Hl) in Hk. lia. }
  by destruct (lookup_lt_is_Some_2 _ _ Hlt) as [z ->].
Qed.

(** X16.  After a successful [optimize] on a fleet of drones as their
    constructor leaves them, each drone's [totalDistance] is the round trip
    of its route in the matrix of the run, and its [totalDelivered] is the
    sum, in route order, of the demands of its stops other than the
    base. *)
Theorem optimize_totals (t0 t1 : jsnum) (s s' : Optimizer) (res : Results) :
  Forall (λ d, ∃ i b p, d = newDrone i b p) (drones s) →
  optimize t0 t1 s = inr (s', res) →
  Forall (λ d, totalDistance d
                 = calculateRouteDistance (distanceMatrix s') (route d)
               ∧ totalDelivered d = currentLoad (zones s') (route d))
         (drones s').
Proof.
  intros Hnew (b & rest & _ & Hall & HM & _)%optimize_unfold.
  pose proof (assignAll_frame _ _ _ _ _ _ Hall) as [Hu _].
  apply assignAll_totals in Hall; [|done..]. rewrite HM.
  eapply Forall_impl; [exact Hall|]. intros d [H1 H2]. split; [done|].
  rewrite H2. symmetry. by apply currentLoad_unserve.
Qed.

(** X17.  After a successful [optimize] on a fleet of fresh drones, the
    zone at a position is flagged [served] exactly when the position is 0
    (the base) or is on the route of some drone. *)
Theorem optimize_served_iff (t0 t1 : jsnum) (s s' : Optimizer)
    (res : Results) (k : nat) :
  Forall fresh (drones s) →
  optimize t0 t1 s = inr (s', res) →
  served (zoneAt (zones s') k) = true
  ↔ k = 0 ∨ ∃ d, d ∈ drones s' ∧ k ∈ route d.
Proof.
  intros Hfresh (b & rest & _ & Hall & _)%optimize_unfold.
  apply assignAll_served in Hall as (Hiff & _ & _); [|done..].
  rewrite Hiff. destruct k as [|k].
  - split; [by left|]. intros _. by left.
  - assert (served (zoneAt (set_served true b :: map (set_served false) rest)
                           (S k)) = false) as ->.
    { unfold zoneAt. simpl.
      change (map (set_served false) rest !! k)
        with ((set_served false <$> rest) !! k).
      rewrite list_lookup_fmap. by destruct (rest !! k). }
    split.
    + intros [?|(d & ? & ? & _)]; [done|]. right. by exists d.
    + intros [?|(d & ? & ?)]; [done|]. right. by exists d.
Qed.

(** X18.  After a successful [optimize] on well-formed zones and a
    fleet of fresh drones, [zonesServed] of the summary is the number of
    stops besides the base on all routes together. *)
Theorem optimize_zonesServed (t0 t1 : jsnum) (s s' : Optimizer)
    (res : Results) :
  Forall fresh (drones s) → wellFormed s →
  optimize t0 t1 s = inr (s', res) →
  zonesServed (summary res) = sum_list (stops <$> drones s').
Proof.
  intros Hfresh [Hhead Hids] Hrun.
  pose proof (optimize_zones _ _ _ _ _ Hrun) as Hz.
  apply optimize_unfold in Hrun as (b & rest & Hsort & Hall & _ & _ & _ & ->).
  apply assignAll_served in Hall as (Hiff & Hcount & _); [|done..].
  assert (zid <$> zones s' = zid <$> (b :: rest)) as Hzid
    by (by rewrite <- (zid_unserve (zones s')), Hz, Hsort, zid_unserve).
  assert (zid b = 0) as Hb.
  { pose proof (sortZonesByPriority_head (zones s)) as Hh.
    rewrite Hsort in Hh. simpl in Hh.
    rewrite list_lookup_fmap, <- Hh in Hhead. by injection Hhead. }
  assert (NoDup (zid <$> (b :: rest))) as Hnd.
  { by rewrite <- Hsort, sortZonesByPriority_Permutation. }
  destruct (zones s') as [|b' rest'] eqn:Hzs'; [done|].
  simpl in Hzid. injection Hzid as Hb' Hrest.
  simpl in Hnd. apply NoDup_cons in Hnd as [Hnotin _].
  rewrite Hb, <- Hrest in Hnotin.
  assert (served b' = true) as Hsb.
  { specialize (Hiff 0). unfold zoneAt in Hiff. simpl in Hiff.
    apply Hiff. by left. }
  assert (∀ l, 0 ∉ zid <$> l →
            List.filter (λ z, served z && nonBase z) l = List.filter served l)
    as Hfilter.
  { induction l as [|z l IH]; [done|]. simpl. intros Hn.
    apply not_elem_of_cons in Hn as [Hz0 Hn]. unfold nonBase at 1.
    replace (zid z =? 0) with false by (symmetry; apply Nat.eqb_neq; lia).
    rewrite andb_true_r, IH by done. done. }
  cbn [summary getResults zonesServed zones]. rewrite Hzs'.
  unfold count in *. simpl in Hcount |- *. rewrite Hsb in Hcount |- *.
  unfold nonBase at 1. rewrite Hb', Hb. simpl.
  rewrite Hfilter by done.
  simpl in Hcount. pose proof (count_served_unserve rest) as E0.
  unfold count in E0. rewrite E0 in Hcount. lia.
Qed.

(** X19.  A drone whose payload capacity is below the demand of every
    request comes out of a successful [optimize] exactly as it went in:
    route, total distance and total delivered included. *)
Theorem optimize_skips_incapable (t0 t1 : jsnum) (s s' : Optimizer)
    (res : Results) (i : nat) (d : Drone) :
  optimize t0 t1 s = inr (s', res) →
  drones s !! i = Some d →
  Forall (λ z, le (demand z) (payloadCapacity d) = false) (tail (zones s)) →
  drones s' !! i = Some d.
Proof.
  intros (b & rest & Hsort & Hall & _)%optimize_unfold Hd Hheavy.
  apply assignAll_skips in Hall.
  destruct (Forall2_lookup_l _ _ _ _ _ Hall Hd) as (d' & Hd' & Himp).
  rewrite Hd'. f_equal. apply Himp.
  rewrite unserve_tail. simpl.
  assert (rest ≡ₚ tail (zones s)) as Hperm.
  { destruct (zones s) as [|b0 rest0]; [done|]. simpl in Hsort.
    injection Hsort as _ <-. apply sortZones_Permutation. }
  rewrite <- Hperm in Hheavy. unfold unserve.
  apply Forall_forall. intros z Hz.
  apply list_elem_of_In, in_map_iff in Hz as (z1 & <- & Hz1).
  apply in_map_iff in Hz1 as (z0 & <- & Hz0%list_elem_of_In).
  by apply (proj1 (Forall_forall _ _) Hheavy) in Hz0.
Qed.

(** X20.  When the zones are in the order [sortZonesByPriority] gives
    them before the call, the matrix a successful [optimize] leaves is the
    distance matrix of the zones it leaves: entry [(i, j)] is the distance
    between the zones at the positions [i] and [j] that the routes refer
    to. *)
Theorem optimize_matrix_of_sorted (t0 t1 : jsnum) (s s' : Optimizer)
    (res : Results) :
  sortZonesByPriority (zones s) = zones s →
  optimize t0 t1 s = inr (s', res) →
  distanceMatrix s' = buildDistanceMatrix (zones s').
Proof.
  intros Hsorted Hrun.
  pose proof (optimize_zones _ _ _ _ _ Hrun) as Hz. rewrite Hsorted in Hz.
  apply optimize_unfold in Hrun as (_ & _ & _ & _ & -> & _).
  symmetry. by apply buildDistanceMatrix_unserve.
Qed.

(** X21.  A successful [optimize] on requests with finite priorities
    and demands leaves the requests ordered by priority and demand, so
    that sorting them again changes nothing. *)
Theorem optimize_leaves_sorted (t0 t1 : jsnum) (s s' : Optimizer)
    (res : Results) :
  Forall finiteKeys (tail (zones s)) →
  optimize t0 t1 s = inr (s', res) →
  ordered (tail (zones s'))
  ∧ sortZonesByPriority (zones s') = zones s'.
Proof.
  intros Hfin Hrun.
  pose proof (optimize_zones _ _ _ _ _ Hrun) as Hz.
  apply (f_equal tail) in Hz as Htail. rewrite !unserve_tail in Htail.
  assert (ordered (tail (sortZonesByPriority (zones s)))
          ∧ Forall finiteKeys (tail (sortZonesByPriority (zones s))))
    as [Hord Hfin'].
  { destruct (zones s) as [|b rest]; [split; [apply ordered_nil|done]|].
    simpl in *. split; [by apply sortZones_ordered|].
    by rewrite sortZones_Permutation. }
  assert (ordered (tail (zones s'))) as Hord'
    by (by apply (ordered_unserve _ _ Htail)).
  split; [done|].
  destruct (zones s') as [|b' rest']; [done|]. simpl in *. f_equal.
  apply sortZones_fixed; [|done].
  by apply (finiteKeys_unserve _ _ Htail).
Qed.

(** X22.  On requests with finite priorities and demands that are in
    priority order already, a run can be repeated: [optimize] on the state
    a successful run has left, with the fleet of before the run put back
    and the same clock readings, returns that same state and the same
    result. *)
Theorem optimize_repeatable (t0 t1 : jsnum) (s s' : Optimizer)
    (res : Results) :
  Forall finiteKeys (tail (zones s)) →
  ordered (tail (zones s)) →
  optimize t0 t1 s = inr (s', res) →
  optimize t0 t1 (withFleet (drones s) s') = inr (s', res).
Proof.
  intros Hfin Hord Hrun.
  assert (sortZonesByPriority (zones s) = zones s) as Hsorted.
  { destruct (zones s) as [|b rest]; [done|]. simpl in *. f_equal.
    by apply sortZones_fixed. }
  pose proof (optimize_zones _ _ _ _ _ Hrun) as Hz. rewrite Hsorted in Hz.
  assert (sortZonesByPriority (zones s') = zones s') as Hsorted'.
  { apply (f_equal tail) in Hz as Htail. rewrite !unserve_tail in Htail.
    destruct (zones s') as [|b' rest']; [done|]. simpl in *. f_equal.
    apply sortZones_fixed.
    - by apply (finiteKeys_unserve _ _ Htail).
    - by apply (ordered_unserve _ _ Htail). }
  assert (baseLocation s' = baseLocation s) as Hbase.
  { by apply optimize_unfold in Hrun as (_ & _ & _ & _ & _ & ? & _). }
  rewrite <- Hrun. unfold optimize, withFleet. cbn [zones drones baseLocation].
  rewrite Hsorted, Hsorted', (buildDistanceMatrix_unserve _ _ Hz), Hbase.
  destruct (zones s') as [|b' rest'], (zones s) as [|b rest]; try done.
  lazy beta iota zeta.
  change (map (set_served false) (b' :: rest')) with (unserve (b' :: rest')).
  change (map (set_served false) (b :: rest)) with (unserve (b :: rest)).
  by rewrite Hz.
Qed.

End RunTheorems.

(** ** The counts of [getResults] *)

Lemma count_le (f g : Zone → bool) (zs : list Zone) :
  (∀ z, z ∈ zs → f z = true → g z = true) → count f zs ≤ count g zs.
Proof.
  unfold count. induction zs as [|z zs IH]; intros Himp; [done|]. simpl.
  assert (length (List.filter f zs) ≤ length (List.filter g zs)) as Hle.
  { apply IH. intros z' Hz'. apply Himp. by right. }
  destruct (f z) eqn:Hf.
  - rewrite (Himp z) by (done || by left). simpl. lia.
  - destruct (g z); simpl; lia.
Qed.

Lemma count_nonBase (zs : list Zone) :
  (∃ z, z ∈ zs ∧ zid z = 0) → count nonBase zs < length zs.
Proof.
  unfold count. intros (z0 & Hin & Hz0).
  induction zs as [|z zs IH]; [by apply elem_of_nil in Hin|].
  pose proof (List.filter_length_le nonBase zs) as Hle. simpl.
  apply elem_of_cons in Hin as [<-|Hin].
  - unfold nonBase at 1. rewrite Hz0. simpl. lia.
  - specialize (IH Hin). destruct (nonBase z); simpl; lia.
Qed.

(** X23.  In a state that has a zone with id 0 and in which every zone
    with id 0 has priority 0 (as the base that [setBase] makes has), the
    summary never counts more served zones than zones: [zonesServed] is at
    most [totalZones], and the served critical, moderate and low zones are
    at most the critical, moderate and low zones in total. *)
Theorem getResults_counts_bounded (s : Optimizer) :
  (∃ z, z ∈ zones s ∧ zid z = 0) →
  Forall (λ z, zid z = 0 → priority z = zero) (zones s) →
  let r := summary (getResults s) in
  (Z.of_nat (zonesServed r) ≤ totalZones r)%Z
  ∧ criticalServed r ≤ totalCritical r
  ∧ moderateServed r ≤ totalModerate r
  ∧ lowServed r ≤ totalLow r.
Proof.
  intros Hbase Hprio r. unfold r. cbn.
  assert (∀ p, eqb zero (ofZ p) = false ∨ p = 0%Z) as Hp0.
  { intros p. destruct (decide (p = 0%Z)) as [->|Hne]; [by right|left].
    simpl. apply not_true_iff_false. rewrite Qc_eqb_eq.
    intros E. apply Q2Qc_eq_iff in E. unfold Qeq in E. simpl in E. lia. }
  assert (∀ p, p ≠ 0%Z →
            count (λ z, served z && eqb (priority z) (ofZ p)) (zones s)
            ≤ count (λ z, eqb (priority z) (ofZ p) && nonBase z) (zones s))
    as Hcount.
  { intros p Hp. apply count_le. intros z Hz [Hs He]%andb_true_iff.
    rewrite He. simpl. unfold nonBase.
    destruct (zid z =? 0) eqn:E0; [|done]. apply Nat.eqb_eq in E0.
    pose proof (proj1 (Forall_forall _ _) Hprio z Hz E0) as Hpz.
    rewrite Hpz in He.
    destruct (Hp0 p) as [E|E]; congruence. }
  split; [|split; [|split]]; [|by apply Hcount..].
  pose proof (count_nonBase (zones s) Hbase) as Hlt.
  pose proof (count_le (λ z, served z && nonBase z) nonBase (zones s)) as Hle.
  assert (count (λ z, served z && nonBase z) (zones s)
          ≤ count nonBase (zones s))
    as Hle' by (apply Hle; by intros z _ [_ ?]%andb_true_iff).
  lia.
Qed.

Section Usage.
Local Open Scope Qc_scope.

Lemma nonneg_le (x : jsnum) : nonneg x ↔ finite x ∧ le zero x = true.
Proof.
  split.
  - intros (q & -> & Hq). split; [by eexists|]. by apply Qc_leb_le.
  - intros [[q ->] Hq]. exists q. split; [done|]. by apply Qc_leb_le in Hq.
Qed.

Lemma add_nonneg (x y : jsnum) : nonneg x → nonneg y → nonneg (add x y).
Proof.
  intros (p & -> & Hp) (q & -> & Hq). exists (p + q). split; [done|].
  by apply Qcplus_nonneg_nonneg.
Qed.

Lemma mul_nonneg (x y : jsnum) : nonneg x → nonneg y → nonneg (mul x y).
Proof.
  intros (p & -> & Hp) (q & -> & Hq). exists (p * q). split; [done|].
  by apply Qcmult_nonneg_nonneg.
Qed.

Lemma div_nonneg (x y : jsnum) :
  nonneg x → finite y → lt zero y = true → nonneg (div x y).
Proof.
  intros (p & -> & Hp) [q ->] Hq. apply Qc_ltb_lt in Hq. simpl.
  destruct (Qc_eqb q 0) eqn:E.
  { apply Qc_eqb_eq in E. subst q. by apply Qclt_not_eq in Hq. }
  exists (p / q). split; [done|]. unfold Qcdiv.
  apply Qcmult_nonneg_nonneg; [done|]. apply Qclt_le_weak.
  by apply Qcinv_pos.
Qed.

Lemma ofNat_S_positive (n : nat) :
  finite (ofNat (S n)) ∧ lt zero (ofNat (S n)) = true.
Proof.
  split; [by eexists|]. unfold ofNat, ofZ, zero. simpl. apply Qc_ltb_lt.
  unfold Qclt. simpl. rewrite !Qred_correct. unfold Qlt. simpl. lia.
Qed.

Lemma batteryUsage_sum_nonneg (ds : list Drone) (t : jsnum) :
  Forall (λ d, nonneg (totalDistance d) ∧ finite (batteryCapacity d)
               ∧ lt zero (batteryCapacity d) = true) ds →
  nonneg t →
  nonneg (fold_left (λ sum d, add sum (batteryUsage d)) ds t).
Proof.
  intros Hall. revert t.
  induction Hall as [|d ds (Hd & Hc & Hc0) _ IH]; intros t Ht; [exact Ht|].
  simpl. apply IH. apply add_nonneg; [done|].
  unfold batteryUsage. apply mul_nonneg; [by apply div_nonneg|].
  exists (Q2Qc (inject_Z 100)). split; [done|]. by apply Qc_leb_le.
Qed.

(** X24.  For a fleet that is not empty, whose drones have finite total
    distances that are not negative and finite battery ranges above 0, the
    average battery usage that [getResults] computes is a number that is
    not negative; in particular it is not [NaN]. *)
Theorem averageBatteryUsage_number (ds : list Drone) :
  ds ≠ [] →
  Forall (λ d, finite (totalDistance d) ∧ le zero (totalDistance d) = true
               ∧ finite (batteryCapacity d)
               ∧ lt zero (batteryCapacity d) = true) ds →
  le zero (averageBatteryUsage ds) = true.
Proof.
  intros Hne Hall. apply nonneg_le.
  unfold averageBatteryUsage.
  destruct ds as [|d0 ds0] eqn:Eds; [done|]. rewrite <- Eds in *.
  assert (length ds = S (length ds0)) as -> by (by rewrite Eds).
  apply div_nonneg; [|apply ofNat_S_positive..].
  apply batteryUsage_sum_nonneg.
  - eapply Forall_impl; [exact Hall|]. intros d (Hd & Hd0 & Hc & Hpos).
    split; [by apply nonneg_le|done].
  - exists 0. split; [done|]. by apply Qc_leb_le.
Qed.

End Usage.

(** ** The caller *)

Lemma count_nonBase_canonical (zs : list Zone) :
  canonical zs → count nonBase zs = length zs - 1.
Proof.
  intros Hcan. destruct (canonical_nonBase zs Hcan) as [Hperm _].
  apply Permutation_length in Hperm.
  rewrite length_fmap, length_seq in Hperm. exact Hperm.
Qed.

Lemma count_nonBase_ids (zs zs' : list Zone) :
  zid <$> zs' ≡ₚ zid <$> zs → count nonBase zs' = count nonBase zs.
Proof.
  intros Hperm. unfold count.
  rewrite <- (length_fmap zid (List.filter _ zs')),
          <- (length_fmap zid (List.filter _ zs)).
  rewrite !filter_nonBase_ids.
  apply Permutation_length, filter_Permutation, Hperm.
Qed.

Lemma canonical_ids (zs zs' : list Zone) :
  zid <$> zs' ≡ₚ zid <$> zs → head (zid <$> zs') = head (zid <$> zs) →
  canonical zs → canonical zs'.
Proof.
  intros Hperm Hhead [Hcan H0].
  assert (length zs' = length zs) as Hlen.
  { apply Permutation_length in Hperm. by rewrite !length_fmap in Hperm. }
  split.
  - by rewrite Hperm, Hcan, Hlen.
  - rewrite <- head_lookup in *. by rewrite Hhead.
Qed.

Lemma optimize_ids `{MathLib} (t0 t1 : jsnum) (s s' : Optimizer)
    (res : Results) :
  optimize t0 t1 s = inr (s', res) →
  zid <$> zones s' ≡ₚ zid <$> zones s
  ∧ head (zid <$> zones s') = head (zid <$> zones s).
Proof.
  intros Hz%optimize_zones.
  assert (zid <$> zones s' = zid <$> sortZonesByPriority (zones s)) as ->
    by (by rewrite <- (zid_unserve (zones s')), Hz, zid_unserve).
  split; [by rewrite sortZonesByPriority_Permutation|].
  by destruct (zones s).
Qed.

Lemma addZone_consistent (la ln p d : jsnum) (st : App.State) :
  App.consistent st → App.consistent (App.addZone la ln p d st).
Proof.
  intros [Hcan Hlen]. split.
  - intros Hb. by apply canonical_addZone, Hcan.
  - simpl. rewrite length_app, Hlen. unfold count.
    rewrite List.filter_app, length_app. simpl.
    unfold nonBase at 3. simpl.
    by replace (length (List.filter nonBase (zones (App.optimizer st))) + 1
                =? 0) with false by (symmetry; apply Nat.eqb_neq; lia).
Qed.

Lemma clearZones_consistent (st : App.State) :
  App.baseMarker st = true → App.consistent st →
  App.consistent (App.clearZones st).
Proof.
  intros Hb [Hcan _]. specialize (Hcan Hb). destruct Hcan as [_ Hhead].
  unfold App.clearZones. destruct (zones (App.optimizer st)) as [|b rest];
    [done|]. simpl in Hhead. injection Hhead as Hb0.
  split; simpl.
  - intros _. split; simpl; by rewrite Hb0.
  - unfold count, nonBase. simpl. by rewrite Hb0.
Qed.

(** X25.  The handlers of the page keep the zones and the markers
    consistent: from a state in which the zones carry the ids 0, 1, ...
    with the base in front whenever the base marker is set, and in which
    there is one zone marker for each request, the same holds after
    [changeLocation], [generateRandomZones], a click on the map,
    [clearAll], the first part of [optimizeRoutes], a successful
    [optimize] of its second part, and [updateZoneMarkers]. *)
Theorem handlers_consistent `{MathLib} (st : App.State) :
  App.consistent st →
  (∀ la ln, App.consistent (App.changeLocation la ln st))
  ∧ (∀ generated, App.consistent (App.generateRandomZones generated st))
  ∧ (∀ la ln p d, App.consistent (App.onMapClick la ln p d st))
  ∧ App.consistent (App.clearAll st)
  ∧ (∀ n b p st', App.optimizeRoutes_prepare n b p st = inr st' →
       App.consistent st')
  ∧ (∀ t0 t1 o' res, optimize t0 t1 (App.optimizer st) = inr (o', res) →
       ∀ active, App.consistent
         (App.mkState o' (App.baseMarker st) (App.zoneMarkers st) active))
  ∧ (∀ results, App.consistent (App.updateZoneMarkers results st)).
Proof.
  intros Hst. split; [|split; [|split; [|split; [|split; [|split]]]]].
  - intros la ln. split; [|done]. intros _. by split.
  - intros generated. unfold App.generateRandomZones.
    destruct (App.baseMarker st) eqn:Hb; [|done]. simpl.
    pose proof (clearZones_consistent st Hb Hst) as Hc.
    revert Hc. generalize (App.clearZones st).
    induction generated as [|[[[la ln] p] d] g IH]; intros st0 Hc; [done|].
    simpl. by apply IH, addZone_consistent.
  - intros la ln p d. by apply addZone_consistent.
  - by split.
  - intros n b p st'. unfold App.optimizeRoutes_prepare.
    destruct (negb _); [done|]. destruct (_ <=? 1); [done|].
    destruct (App.animationActive st); [done|]. intros [= <-].
    destruct Hst as [Hcan Hlen].
    assert (∀ ds o, zones (fold_left (λ o d, addDrone d o) ds o) = zones o)
      as Hz.
    { induction ds as [|d0 ds IH]; intros o; [done|]. simpl. by rewrite IH. }
    split; simpl; by rewrite Hz.
  - intros t0 t1 o' res Hrun active. destruct Hst as [Hcan Hlen].
    destruct (optimize_ids _ _ _ _ _ Hrun) as [Hperm Hhead].
    split; simpl.
    + intros Hb. by apply (canonical_ids (zones (App.optimizer st))), Hcan.
    + by rewrite (count_nonBase_ids _ _ Hperm).
  - intros results. destruct Hst as [Hcan Hlen].
    split; [done|]. simpl. by rewrite length_imap.
Qed.

Lemma addZone_fold (generated : list (jsnum * jsnum * jsnum * jsnum)) :
  ∀ st : App.State,
  zones (App.optimizer st) ≠ [] →
  zid <$> zones (App.optimizer st) = seq 0 (length (zones (App.optimizer st))) →
  let st' := fold_left (λ st '(la, ln, priority, demand),
                          App.addZone la ln priority demand st)
                       generated st in
  zones (App.optimizer st')
  = zones (App.optimizer st)
    ++ imap (λ i '(la, ln, p, d),
               mkZone (length (zones (App.optimizer st)) + i) p d la ln false)
            generated
  ∧ drones (App.optimizer st') = drones (App.optimizer st)
  ∧ App.zoneMarkers st'
    = App.zoneMarkers st ++ replicate (length generated) App.opaque
  ∧ App.baseMarker st' = App.baseMarker st.
Proof.
  induction generated as [|[[[la ln] p] d] g IH]; intros st Hne Hids; simpl.
  { by rewrite !app_nil_r. }
  destruct (addZone_ids_step (newZone 0 p d la ln) (App.optimizer st) Hne Hids)
    as [Hids' Hzs].
  assert (length (zones (App.optimizer (App.addZone la ln p d st)))
          = length (zones (App.optimizer st)) + 1) as Hlen.
  { cbn [App.addZone App.optimizer]. by rewrite Hzs, length_app. }
  destruct (IH (App.addZone la ln p d st)) as (H1 & H2 & H3 & H4).
  { cbn [App.addZone App.optimizer]. rewrite Hzs. by destruct (zones _). }
  { cbn [App.addZone App.optimizer] in *. by rewrite Hids', Hlen. }
  rewrite H1, H2, H3, H4. rewrite Hlen.
  cbn [App.addZone App.optimizer App.zoneMarkers App.baseMarker].
  rewrite Hzs, <- !app_assoc. simpl. rewrite Nat.add_0_r.
  split; [|done].
  do 2 f_equal. apply imap_ext. intros i [[[la' ln'] p'] d'] _. simpl.
  f_equal. lia.
Qed.

(** X26.  With the base marker set, [generateRandomZones] replaces the
    requests: afterwards the zones are the base followed by the generated
    zones, in the order generated and with the ids 1, 2, ..., each not
    served; the fleet is untouched, and there is one opaque marker for each
    generated zone. *)
Theorem generateRandomZones_replaces
    (generated : list (jsnum * jsnum * jsnum * jsnum)) (st : App.State) :
  App.consistent st → App.baseMarker st = true →
  let st' := App.generateRandomZones generated st in
  zones (App.optimizer st')
  = take 1 (zones (App.optimizer st))
    ++ imap (λ i '(la, ln, p, d), mkZone (S i) p d la ln false) generated
  ∧ drones (App.optimizer st') = drones (App.optimizer st)
  ∧ App.zoneMarkers st' = replicate (length generated) App.opaque.
Proof.
  intros [Hcan _] Hb. specialize (Hcan Hb). destruct Hcan as [_ Hhead].
  unfold App.generateRandomZones. rewrite Hb. simpl negb. cbv iota.
  destruct (zones (App.optimizer st)) as [|b rest] eqn:Hzs; [done|].
  simpl in Hhead. injection Hhead as Hb0.
  destruct (addZone_fold generated (App.clearZones st)) as (H1 & H2 & H3 & _).
  { unfold App.clearZones. simpl. by rewrite Hzs. }
  { unfold App.clearZones. simpl. rewrite Hzs. simpl. by rewrite Hb0. }
  cbv zeta. rewrite H1, H2, H3.
  unfold App.clearZones. simpl. rewrite Hzs. simpl. done.
Qed.

Lemma optimize_returns `{MathLib} (t0 t1 : jsnum) (s : Optimizer) :
  zones s ≠ [] → ∃ s' res, optimize t0 t1 s = inr (s', res).
Proof.
  intros Hne. unfold optimize.
  destruct (zones s) as [|b rest]; [done|]. simpl sortZonesByPriority.
  lazy beta iota zeta.
  destruct (assignAll _ _ _ _) as [ds zs']. by eexists _, _.
Qed.

Lemma fold_addDrone (ds : list Drone) (o : Optimizer) :
  zones (fold_left (λ o d, addDrone d o) ds o) = zones o
  ∧ drones (fold_left (λ o d, addDrone d o) ds o) = drones o ++ ds.
Proof.
  revert o. induction ds as [|d ds IH]; intros o; simpl.
  { by rewrite app_nil_r. }
  destruct (IH (addDrone d o)) as [-> ->]. simpl.
  by rewrite <- app_assoc.
Qed.

(** X27.  When [optimizeRoutes] gets past its three guards in a
    consistent state, it leaves the zones as they are and replaces the fleet
    by [numDrones] new drones with the ids 1, 2, ... and the limits
    entered; there are then at least two zones, the base first and no id
    twice, every drone is without a route, and [optimize] called on that
    state returns normally. *)
Theorem optimizeRoutes_prepare_ready `{MathLib} (numDrones : option Z)
    (battery payload t0 t1 : jsnum) (st st' : App.State) :
  App.consistent st →
  App.optimizeRoutes_prepare numDrones battery payload st = inr st' →
  zones (App.optimizer st') = zones (App.optimizer st)
  ∧ drones (App.optimizer st') = App.newFleet numDrones battery payload
  ∧ Forall fresh (drones (App.optimizer st'))
  ∧ wellFormed (App.optimizer st')
  ∧ 2 ≤ length (zones (App.optimizer st'))
  ∧ ∃ o' res, optimize t0 t1 (App.optimizer st') = inr (o', res).
Proof.
  intros [Hcan _]. unfold App.optimizeRoutes_prepare.
  destruct (App.baseMarker st) eqn:Hb; [|done]. simpl.
  destruct (_ <=? 1) eqn:Hlen; [done|]. apply Nat.leb_gt in Hlen.
  destruct (App.animationActive st); [done|]. intros [= <-]. simpl.
  destruct (fold_addDrone (App.newFleet numDrones battery payload)
              (withFleet [] (App.optimizer st))) as [Hz Hd].
  simpl in Hz, Hd. rewrite Hz, Hd.
  split; [done|]. split; [done|]. split.
  { unfold App.newFleet. destruct numDrones as [n|]; [|constructor].
    apply Forall_fmap, Forall_forall. by intros i _. }
  split.
  { pose proof (canonical_wellFormed (App.optimizer st) (Hcan eq_refl))
      as [H0 Hnd].
    split; simpl; by rewrite Hz. }
  split; [lia|].
  apply optimize_returns. rewrite Hz. destruct (zones _); [simpl in Hlen; lia|done].
Qed.

Lemma servedZones_inner (l : list nat) (acc : gset nat) (k : nat) :
  k ∈ fold_left (λ acc idx, if negb (idx =? 0) then {[idx - 1]} ∪ acc else acc)
                l acc
  ↔ k ∈ acc ∨ S k ∈ l.
Proof.
  revert acc. induction l as [|x l IH]; intros acc; simpl.
  { split; [by left|]. intros [?|?%elem_of_nil]; done. }
  rewrite IH. destruct x as [|x]; simpl.
  - split.
    + intros [?|?]; [by left|right; by right].
    + intros [?|[?|?]%elem_of_cons]; [by left|done|by right].
  - rewrite Nat.sub_0_r, elem_of_union, elem_of_singleton. split.
    + intros [[->|?]|?]; [right; by left|by left|right; by right].
    + intros [?|[[= ->]|?]%elem_of_cons];
        [left; by right|left; by left|by right].
Qed.

Lemma servedZones_spec (results : Results) (k : nat) :
  k ∈ App.servedZones results
  ↔ ∃ r, r ∈ res_drones results ∧ S k ∈ res_routeIndices r.
Proof.
  unfold App.servedZones.
  assert (∀ (l : list DroneResult) (acc : gset nat),
    k ∈ fold_left
          (λ acc drone,
             fold_left (λ acc idx,
                          if negb (idx =? 0) then {[idx - 1]} ∪ acc else acc)
                       (res_routeIndices drone) acc) l acc
    ↔ k ∈ acc ∨ ∃ r, r ∈ l ∧ S k ∈ res_routeIndices r) as Hgen.
  { induction l as [|r0 l IH]; intros acc; simpl.
    { split; [by left|]. intros [?|(r & ?%elem_of_nil & _)]; done. }
    rewrite IH, servedZones_inner. split.
    - intros [[?|?]|(r & ? & ?)]; [by left| |].
      + right. exists r0. split; [by left|done].
      + right. exists r. split; [by right|done].
    - intros [?|(r & [->|?]%elem_of_cons & ?)].
      + left. by left.
      + left. by right.
      + right. by exists r. }
  rewrite Hgen. split; [|by right]. intros [?%elem_of_empty|?]; done.
Qed.

(** X28.  With the result of a successful [optimize] on a fleet of fresh
    drones, [updateZoneMarkers] makes the marker at index [i] opaque
    exactly when the zone at position [i + 1] of the zones the run has
    left is flagged [served], and dims it otherwise. *)
Theorem updateZoneMarkers_served `{MathLib} (t0 t1 : jsnum)
    (s s' : Optimizer) (res : Results) (st : App.State) (i : nat) :
  Forall fresh (drones s) →
  optimize t0 t1 s = inr (s', res) →
  i < length (App.zoneMarkers st) →
  App.zoneMarkers (App.updateZoneMarkers res st) !! i
  = Some (if served (zoneAt (zones s') (S i))
          then App.opaque else App.dimmed).
Proof.
  intros Hfresh Hrun Hi.
  destruct (lookup_lt_is_Some_2 _ _ Hi) as [m Hm].
  unfold App.updateZoneMarkers. simpl. rewrite list_lookup_imap, Hm. simpl.
  f_equal.
  apply optimize_unfold in Hrun as (b & rest & _ & Hall & _ & _ & _ & ->).
  apply assignAll_served in Hall as (Hiff & _ & _); [|done..].
  assert (i ∈ App.servedZones (getResults s')
          ↔ served (zoneAt (zones s') (S i)) = true) as Hdec.
  { rewrite servedZones_spec, Hiff. cbn [getResults res_drones]. split.
    - intros (r & Hr & Hin).
      apply list_elem_of_In, in_map_iff in Hr as (d & <- & Hd%list_elem_of_In).
      right. by exists d.
    - intros [Hs|(d & Hd & Hin & _)].
      + unfold zoneAt in Hs. simpl in Hs.
        change (map (set_served false) rest !! i)
          with ((set_served false <$> rest) !! i) in Hs.
        rewrite list_lookup_fmap in Hs. by destruct (rest !! i).
      + exists (mkDroneResult (did d) (map (λ i, zones s' !! i) (route d))
                  (totalDistance d) (totalDelivered d)
                  (toFixed (batteryUsage d) 1) (route d)).
        split; [|exact Hin].
        apply list_elem_of_In, in_map_iff. exists d.
        split; [done|by apply list_elem_of_In]. }
  case_bool_decide as Hin.
  - by rewrite (proj1 Hdec Hin).
  - destruct (decide (served (zoneAt (zones s') (S i)) = true)) as [Hs|Hs].
    + by apply Hdec in Hs.
    + by rewrite (not_true_is_false _ Hs).
Qed.

(** ** The further properties at concrete inputs *)

Lemma fleet_runs :
  ∃ s' res, optimize (H := RefMath.lib) zero zero Scenario.fleet
            = inr (s', res).
Proof.
  destruct (optimize (H := RefMath.lib) zero zero Scenario.fleet)
    as [e|[s' res]] eqn:Hrun.
  - by vm_compute in Hrun.
  - exists s', res. reflexivity.
Qed.

Lemma negativePayload_runs :
  ∃ s' res, optimize (H := RefMath.lib) zero zero Scenario.negativePayload
            = inr (s', res).
Proof.
  destruct (optimize (H := RefMath.lib) zero zero Scenario.negativePayload)
    as [e|[s' res]] eqn:Hrun.
  - by vm_compute in Hrun.
  - exists s', res. reflexivity.
Qed.

Lemma movedBase_runs :
  ∃ s' res, optimize (H := RefMath.lib) zero zero Scenario.movedBase
            = inr (s', res).
Proof.
  destruct (optimize (H := RefMath.lib) zero zero Scenario.movedBase)
    as [e|[s' res]] eqn:Hrun.
  - by vm_compute in Hrun.
  - exists s', res. reflexivity.
Qed.

Lemma fleet_fresh : Forall fresh (drones Scenario.fleet).
Proof. repeat constructor. Qed.

Lemma fleet_new :
  Forall (λ d, ∃ i b p, d = newDrone i b p) (drones Scenario.fleet).
Proof. repeat constructor; by eexists _, _, _. Qed.

Lemma fleet_finiteKeys : Forall finiteKeys (tail (zones Scenario.fleet)).
Proof. repeat constructor; by eexists. Qed.

Lemma movedBase_ordered : ordered (tail (zones Scenario.movedBase)).
Proof.
  apply ordered_cons. split.
  - constructor; [|constructor]. left. reflexivity.
  - apply ordered_cons. split; [constructor|apply ordered_nil].
Qed.

Lemma initial_consistent : App.consistent App.initial.
Proof. split; [done|reflexivity]. Qed.

Lemma example_consistent : App.consistent App.example.
Proof. split; [intros _; split; reflexivity|reflexivity]. Qed.


Lemma calculateDistance_same_point_witness :
  calculateDistance (H := RefMath.lib) zero zero zero zero = zero.
Proof.
  apply (calculateDistance_same_point (H := RefMath.lib) zero zero).
  - by eexists.
  - by eexists.
  - by eexists.
  - eexists. vm_compute. reflexivity.
  - reflexivity.
  - reflexivity.
  - reflexivity.
  - reflexivity.
Defined.

Lemma sortZonesByPriority_sorted_witness :
  sortZonesByPriority (zones Scenario.fleet) ≡ₚ zones Scenario.fleet
  ∧ head (sortZonesByPriority (zones Scenario.fleet))
    = head (zones Scenario.fleet)
  ∧ ordered (tail (sortZonesByPriority (zones Scenario.fleet))).
Proof.
  exact (sortZonesByPriority_sorted (zones Scenario.fleet) fleet_finiteKeys).
Defined.

Lemma sortZonesByPriority_idempotent_witness :
  sortZonesByPriority (sortZonesByPriority (zones Scenario.fleet))
  = sortZonesByPriority (zones Scenario.fleet).
Proof.
  exact (sortZonesByPriority_idempotent (zones Scenario.fleet)
           fleet_finiteKeys).
Defined.

Lemma twoOptOptimize_within_ceiling_witness :
  le (calculateRouteDistance Scenario.lineMatrix
        (twoOptOptimize Scenario.lineMatrix (ofZ 100) [0; 1; 2; 3; 4]))
     (ofZ 100) = true.
Proof.
  apply (twoOptOptimize_within_ceiling Scenario.lineMatrix (ofZ 100)
           [0; 1; 2; 3; 4]).
  vm_compute. reflexivity.
Defined.

Lemma reverseSegment_lookup_witness :
  reverseSegment [0; 1; 2; 3; 4] 1 3 !! 1
  = [0; 1; 2; 3; 4] !! (if bool_decide (1 ≤ 1 ≤ 3) then 1 + 3 - 1 else 1).
Proof.
  apply (reverseSegment_lookup [0; 1; 2; 3; 4] 1 3 1). simpl. lia.
Defined.

Lemma reverseSegment_involutive_witness :
  reverseSegment (reverseSegment [0; 1; 2; 3; 4] 1 3) 1 3 = [0; 1; 2; 3; 4]
  ∧ reverseSegment [0; 1; 2; 3; 4] 1 3 ≡ₚ [0; 1; 2; 3; 4].
Proof.
  apply (reverseSegment_involutive [0; 1; 2; 3; 4] 1 3). simpl. lia.
Defined.

Lemma optimize_keeps_requests_witness :
  ∃ s' res,
    optimize (H := RefMath.lib) zero zero Scenario.fleet = inr (s', res)
    ∧ unserve (zones s') = unserve (sortZonesByPriority (zones Scenario.fleet))
    ∧ unserve (zones s') ≡ₚ unserve (zones Scenario.fleet)
    ∧ Forall2 sameLimits (drones Scenario.fleet) (drones s')
    ∧ baseLocation s' = baseLocation Scenario.fleet.
Proof.
  destruct fleet_runs as (s' & res & Hrun). exists s', res.
  split; [exact Hrun|].
  exact (optimize_keeps_requests (H := RefMath.lib) zero zero Scenario.fleet
           s' res Hrun).
Defined.

Lemma optimize_routes_from_base_witness :
  ∃ s' res,
    optimize (H := RefMath.lib) zero zero Scenario.fleet = inr (s', res)
    ∧ Forall (λ d, route d = []
                   ∨ ∃ rest, route d = 0 :: rest ∧ NoDup rest
                             ∧ Forall (λ k, 0 < k < length (zones s')) rest)
             (drones s')
    ∧ Forall (λ r, res_route r
                   = Some <$> (zoneAt (zones s') <$> res_routeIndices r))
             (res_drones res).
Proof.
  destruct fleet_runs as (s' & res & Hrun). exists s', res.
  split; [exact Hrun|].
  exact (optimize_routes_from_base (H := RefMath.lib) zero zero
           Scenario.fleet s' res fleet_fresh Hrun).
Defined.

Lemma optimize_totals_witness :
  ∃ s' res,
    optimize (H := RefMath.lib) zero zero Scenario.fleet = inr (s', res)
    ∧ Forall (λ d, totalDistance d
                     = calculateRouteDistance (distanceMatrix s') (route d)
                   ∧ totalDelivered d = currentLoad (zones s') (route d))
             (drones s').
Proof.
  destruct fleet_runs as (s' & res & Hrun). exists s', res.
  split; [exact Hrun|].
  exact (optimize_totals (H := RefMath.lib) zero zero Scenario.fleet s' res
           fleet_new Hrun).
Defined.

Lemma optimize_served_iff_witness :
  ∃ s' res,
    optimize (H := RefMath.lib) zero zero Scenario.fleet = inr (s', res)
    ∧ (served (zoneAt (zones s') 2) = true
       ↔ 2 = 0 ∨ ∃ d, d ∈ drones s' ∧ 2 ∈ route d).
Proof.
  destruct fleet_runs as (s' & res & Hrun). exists s', res.
  split; [exact Hrun|].
  exact (optimize_served_iff (H := RefMath.lib) zero zero Scenario.fleet s'
           res 2 fleet_fresh Hrun).
Defined.

Lemma optimize_zonesServed_witness :
  ∃ s' res,
    optimize (H := RefMath.lib) zero zero Scenario.fleet = inr (s', res)
    ∧ zonesServed (summary res) = sum_list (stops <$> drones s').
Proof.
  destruct fleet_runs as (s' & res & Hrun). exists s', res.
  split; [exact Hrun|].
  exact (optimize_zonesServed (H := RefMath.lib) zero zero Scenario.fleet
           s' res fleet_fresh fleet_wellFormed Hrun).
Defined.

Lemma optimize_skips_incapable_witness :
  ∃ s' res,
    optimize (H := RefMath.lib) zero zero Scenario.negativePayload
      = inr (s', res)
    ∧ drones s' !! 0 = Some (newDrone 1 (ofZ 1000) (ofZ (-1))).
Proof.
  destruct negativePayload_runs as (s' & res & Hrun). exists s', res.
  split; [exact Hrun|].
  apply (optimize_skips_incapable (H := RefMath.lib) zero zero
           Scenario.negativePayload s' res 0 _ Hrun).
  - reflexivity.
  - repeat constructor.
Defined.

Lemma optimize_matrix_of_sorted_witness :
  ∃ s' res,
    optimize (H := RefMath.lib) zero zero Scenario.movedBase = inr (s', res)
    ∧ distanceMatrix s' = buildDistanceMatrix (H := RefMath.lib) (zones s').
Proof.
  destruct movedBase_runs as (s' & res & Hrun). exists s', res.
  split; [exact Hrun|].
  apply (optimize_matrix_of_sorted (H := RefMath.lib) zero zero
           Scenario.movedBase s' res); [|exact Hrun].
  reflexivity.
Defined.

Lemma optimize_leaves_sorted_witness :
  ∃ s' res,
    optimize (H := RefMath.lib) zero zero Scenario.fleet = inr (s', res)
    ∧ ordered (tail (zones s'))
    ∧ sortZonesByPriority (zones s') = zones s'.
Proof.
  destruct fleet_runs as (s' & res & Hrun). exists s', res.
  split; [exact Hrun|].
  exact (optimize_leaves_sorted (H := RefMath.lib) zero zero Scenario.fleet
           s' res fleet_finiteKeys Hrun).
Defined.

Lemma optimize_repeatable_witness :
  ∃ s' res,
    optimize (H := RefMath.lib) zero zero Scenario.movedBase = inr (s', res)
    ∧ optimize (H := RefMath.lib) zero zero
        (withFleet (drones Scenario.movedBase) s') = inr (s', res).
Proof.
  destruct movedBase_runs as (s' & res & Hrun). exists s', res.
  split; [exact Hrun|].
  apply (optimize_repeatable (H := RefMath.lib) zero zero Scenario.movedBase
           s' res); [|exact movedBase_ordered|exact Hrun].
  repeat constructor; by eexists.
Defined.

Lemma getResults_counts_bounded_witness :
  let r := summary (getResults Scenario.fleet) in
  (Z.of_nat (zonesServed r) ≤ totalZones r)%Z
  ∧ criticalServed r ≤ totalCritical r
  ∧ moderateServed r ≤ totalModerate r
  ∧ lowServed r ≤ totalLow r.
Proof.
  apply (getResults_counts_bounded Scenario.fleet).
  - exists (baseZone zero zero). split; [by left|reflexivity].
  - repeat constructor; by intros [=].
Defined.

Lemma averageBatteryUsage_number_witness :
  le zero (averageBatteryUsage (drones Scenario.fleet)) = true.
Proof.
  apply (averageBatteryUsage_number (drones Scenario.fleet)).
  - discriminate.
  - repeat constructor; by eexists.
Defined.

Lemma handlers_consistent_witness :
  let st := App.example in
  (∀ la ln, App.consistent (App.changeLocation la ln st))
  ∧ (∀ generated, App.consistent (App.generateRandomZones generated st))
  ∧ (∀ la ln p d, App.consistent (App.onMapClick la ln p d st))
  ∧ App.consistent (App.clearAll st)
  ∧ (∀ n b p st', App.optimizeRoutes_prepare n b p st = inr st' →
       App.consistent st')
  ∧ (∀ t0 t1 o' res,
       optimize (H := RefMath.lib) t0 t1 (App.optimizer st) = inr (o', res) →
       ∀ active, App.consistent
         (App.mkState o' (App.baseMarker st) (App.zoneMarkers st) active))
  ∧ (∀ results, App.consistent (App.updateZoneMarkers results st)).
Proof.
  exact (handlers_consistent (H := RefMath.lib) App.example
           example_consistent).
Defined.

Lemma generateRandomZones_replaces_witness :
  let generated := [(zero, ofZ 180, ofZ 2, ofZ 20)] in
  let st' := App.generateRandomZones generated App.example in
  zones (App.optimizer st')
  = take 1 (zones (App.optimizer App.example))
    ++ imap (λ i '(la, ln, p, d), mkZone (S i) p d la ln false) generated
  ∧ drones (App.optimizer st') = drones (App.optimizer App.example)
  ∧ App.zoneMarkers st' = replicate (length generated) App.opaque.
Proof.
  apply (generateRandomZones_replaces [(zero, ofZ 180, ofZ 2, ofZ 20)]
           App.example).
  - exact example_consistent.
  - reflexivity.
Defined.

Lemma optimizeRoutes_prepare_ready_witness :
  let st := App.example in
  let st' := App.proceed (App.optimizeRoutes_prepare (Some 2%Z) (ofZ 1000)
                            (ofZ 100) st) st in
  zones (App.optimizer st') = zones (App.optimizer st)
  ∧ drones (App.optimizer st') = App.newFleet (Some 2%Z) (ofZ 1000) (ofZ 100)
  ∧ Forall fresh (drones (App.optimizer st'))
  ∧ wellFormed (App.optimizer st')
  ∧ 2 ≤ length (zones (App.optimizer st'))
  ∧ ∃ o' res, optimize (H := RefMath.lib) zero zero (App.optimizer st')
              = inr (o', res).
Proof.
  apply (optimizeRoutes_prepare_ready (H := RefMath.lib) (Some 2%Z)
           (ofZ 1000) (ofZ 100) zero zero App.example).
  - exact example_consistent.
  - reflexivity.
Defined.

Lemma updateZoneMarkers_served_witness :
  ∃ s' res,
    optimize (H := RefMath.lib) zero zero Scenario.fleet = inr (s', res)
    ∧ App.zoneMarkers
        (App.updateZoneMarkers res
           (App.mkState s' true
              [App.opaque; App.opaque; App.opaque; App.opaque] true)) !! 1
      = Some (if served (zoneAt (zones s') 2)
              then App.opaque else App.dimmed).
Proof.
  destruct fleet_runs as (s' & res & Hrun). exists s', res.
  split; [exact Hrun|].
  apply (updateZoneMarkers_served (H := RefMath.lib) zero zero Scenario.fleet
           s' res _ 1 fleet_fresh Hrun).
  simpl. lia.
Defined.
